(** * Worm-like chain fitting: model library and iterative fitter

    A shallow embedding of [wlc/models.py] and [wlc/fitting.py].

    Numbers.  The Python code computes on binary64 values.  A finite
    binary64 number is a rational, so numbers are rationals ([Q])
    throughout.  Where the arithmetic of the code decides a statement (the
    model functions in [models64], the temperature check of [compile]),
    every operation is rounded to binary64 by [binary64.b64]: to nearest,
    ties to even, with gradual underflow, and without a finite value on
    overflow.  The module [models] has the same formulas in exact
    arithmetic, the reading of the model library over the reals.  The
    fitter only carries numbers from the minimizer to the table and
    compares them; there they are taken as they are.  A quotient whose
    divisor is zero has no finite value in Python ([ZeroDivisionError] on
    two floats, [inf]/[nan] as an array element), so division is partial
    and the model functions live in [option Q].  The two infinities that
    the code handles explicitly ([np.infty] as the initial [dLp], the
    default bounds of an lmfit parameter) are the constructors [NInf] and
    [PInf] of [Ext]. *)

From Stdlib Require Import QArith Qabs Qreduction Qround Qpower Lqa Lia.
From Stdlib Require Import ZArith Zdiv String List.
From Stdlib Require Import Morphisms Setoid.
From stdpp Require Import base option strings gmap.
Import ListNotations.

Open Scope Q_scope.

(* ===================================================================== *)
(** * Numbers *)
(* ===================================================================== *)

Module Num.

(** [a / b] of the source: no finite value when [b] is zero. *)
Definition fdiv (a b : Q) : option Q :=
  if Qeq_bool b 0 then None else Some (a / b).

(** Equality of two outcomes of a model function: both finite and equal as
    rationals, or both without a finite value. *)
Definition oQeq (a b : option Q) : Prop :=
  match a, b with
  | Some x, Some y => x == y
  | None, None => True
  | _, _ => False
  end.

(** Sum of two outcomes; it has a finite value when both have one. *)
Definition oadd (a b : option Q) : option Q :=
  x ← a; y ← b; Some (x + y).

(** Extended numbers: a finite value or one of the two infinities. *)
Inductive Ext : Type :=
| NInf
| Fin (q : Q)
| PInf.

(** [x <= y] on extended numbers. *)
Definition Ext_leb (x y : Ext) : bool :=
  match x, y with
  | NInf, _ => true
  | _, PInf => true
  | Fin a, Fin b => Qle_bool a b
  | _, _ => false
  end.

(** [x > y] on extended numbers. *)
Definition Ext_gtb (x y : Ext) : bool := negb (Ext_leb x y).

(** [x < y] as a proposition. *)
Definition Ext_lt (x y : Ext) : Prop :=
  match x, y with
  | NInf, NInf => False
  | NInf, _ => True
  | Fin a, Fin b => a < b
  | Fin _, PInf => True
  | _, _ => False
  end.

End Num.
Import Num.

(* ===================================================================== *)
(** * Binary64 arithmetic *)
(* ===================================================================== *)

(** The finite numbers of IEEE 754 binary64 as rationals, and the
    operations of the code on them: the exact result rounded to the
    nearest binary64 number, ties to the even significand.  [None] stands
    for a result that is not finite. *)
Module binary64.

(** Rounding to the nearest integer, ties to the even one. *)
Definition rne (x : Q) : Z :=
  let f := Qfloor x in
  match Qcompare (x - inject_Z f) (1 # 2) with
  | Lt => f
  | Gt => (f + 1)%Z
  | Eq => if Z.even f then f else (f + 1)%Z
  end.

(** [floor (log2 x)] of a positive number. *)
Definition ilog2 (x : Q) : Z :=
  let k := (Z.log2 (Qnum x) - Z.log2 (Z.pos (Qden x)))%Z in
  if Qle_bool (2 ^ k) x then k else (k - 1)%Z.

(** The exponent of the last place of a positive number: 53 significant
    bits, and [2^-1074] the smallest spacing. *)
Definition expo (x : Q) : Z := Z.max (ilog2 x - 52) (-1074).

Definition rnd_pos (x : Q) : Q :=
  inject_Z (rne (x / 2 ^ expo x)) * 2 ^ expo x.

(** Rounding to nearest, ties to even, with unbounded exponent above. *)
Definition rnd (x : Q) : Q :=
  match Qcompare x 0 with
  | Eq => 0
  | Gt => rnd_pos x
  | Lt => - rnd_pos (- x)
  end.

(** The first power of two that is not a binary64 number. *)
Definition huge : Q := 2 ^ 1024.

(** The binary64 number nearest to [x]; none when it overflows. *)
Definition b64 (x : Q) : option Q :=
  let r := Qred (rnd x) in
  if Qle_bool huge (Qabs r) then None else Some r.

Definition fadd (a b : Q) : option Q := b64 (a + b).
Definition fsub (a b : Q) : option Q := b64 (a - b).
Definition fmul (a b : Q) : option Q := b64 (a * b).
Definition fdiv (a b : Q) : option Q :=
  if Qeq_bool b 0 then None else b64 (a / b).

(** The binary64 number a decimal literal of the source denotes. *)
Definition lit (q : Q) : Q := Qred (rnd q).

End binary64.

(* ===================================================================== *)
(** * [wlc/models.py]: the model library *)
(* ===================================================================== *)

(** The functions are embedded on one element of the distance (and force)
    array; NumPy applies them elementwise. *)
Module models.

(** [WLC(d, kBT, Lc, Lp)]:
    [d = d*1000; return (kBT/Lp)*(0.25/(1-d/Lc)**2 - 0.25 + d/Lc)]. *)
Definition WLC (d kBT Lc Lp : Q) : option Q :=
  let d := d * 1000 in
  a ← fdiv kBT Lp;
  x ← fdiv d Lc;
  b ← fdiv 0.25 ((1 - x) ^ 2);
  Some (a * (b - 0.25 + x)).

(** [eWLC(fdata, kBT, Lc, Lp, S)] with [d, F = fdata]:
    [(kBT/Lp)*(0.25/(1-(d/Lc - F/S))**2 - 0.25 + (d/Lc - F/S))]. *)
Definition eWLC (fdata : Q * Q) (kBT Lc Lp S : Q) : option Q :=
  let '(d, F) := fdata in
  let d := d * 1000 in
  a ← fdiv kBT Lp;
  x ← fdiv d Lc;
  y ← fdiv F S;
  b ← fdiv 0.25 ((1 - (x - y)) ^ 2);
  Some (a * (b - 0.25 + (x - y))).

(** The correction coefficients [alpha]. *)
Definition alpha : list Q :=
  [-0.5164228; -2.737418; 16.07497; -38.87607; 39.49944; -14.17718].

(** [corr = 0; for n in range(len(alpha)): corr += alpha[n]*(l)**(n+2)]. *)
Definition corr (l : Q) : Q :=
  fold_left (fun acc n => acc + nth n alpha 0 * l ^ Z.of_nat (n + 2))
            (seq 0 (length alpha)) 0.

(** [bouchiat(d, kBT, Lc, Lp)]:
    [(kBT/Lp)*(0.25/(1-d/Lc)**2 - 0.25 + d/Lc + corr)]. *)
Definition bouchiat (d kBT Lc Lp : Q) : option Q :=
  let d := d * 1000 in
  x ← fdiv d Lc;
  let c := corr x in
  a ← fdiv kBT Lp;
  b ← fdiv 0.25 ((1 - x) ^ 2);
  Some (a * (b - 0.25 + x + c)).

(** [ebouchiat(fdata, kBT, Lc, Lp, S)] with [l = d/Lc - F/S]:
    [(kBT/Lp)*(0.25/(1-l)**2 - 0.25 + l + corr)]. *)
Definition ebouchiat (fdata : Q * Q) (kBT Lc Lp S : Q) : option Q :=
  let '(d, F) := fdata in
  let d := d * 1000 in
  x ← fdiv d Lc;
  y ← fdiv F S;
  let l := x - y in
  let c := corr l in
  a ← fdiv kBT Lp;
  b ← fdiv 0.25 ((1 - l) ^ 2);
  Some (a * (b - 0.25 + l + c)).

(** The correction term as the specification words it: [kBT/Lp] times the
    sum, over the powers [n = 2..7], of [alpha_(n-1) * (1000*d/Lc)^n]. *)
Definition spec_correction (d kBT Lc Lp : Q) : option Q :=
  a ← fdiv kBT Lp;
  x ← fdiv (1000 * d) Lc;
  Some (a * (  -0.5164228 * x ^ 2
             + -2.737418 * x ^ 3
             + 16.07497 * x ^ 4
             + -38.87607 * x ^ 5
             + 39.49944 * x ^ 6
             + -14.17718 * x ^ 7)).

End models.

(** Two forms of the correction polynomial used in the proofs about it. *)
Module correction_poly.

(** The correction polynomial is [l^2] times this quintic. *)
Definition bracketQ (l : Q) : Q :=
  -0.5164228 + -2.737418 * l + 16.07497 * l ^ 2 + -38.87607 * l ^ 3
  + 39.49944 * l ^ 4 + -14.17718 * l ^ 5.

(** [10^7 * r^5 * bracketQ (p/r)], an integer form in [p] and [r]. *)
Definition bracketZ (p r : Z) : Z :=
  (- 5164228 * (r * r * r * r * r) - 27374180 * (p * r * r * r * r)
   + 160749700 * (p * p * r * r * r) - 388760700 * (p * p * p * r * r)
   + 394994400 * (p * p * p * p * r) - 141771800 * (p * p * p * p * p))%Z.


End correction_poly.

(* ===================================================================== *)
(** * [wlc/models.py] in binary64 *)
(* ===================================================================== *)

(** The model functions with every operation rounded to binary64.  An
    outcome is [None] when a quotient has a zero divisor or an
    intermediate value overflows; [Some F] is the binary64 number the
    code returns. *)
Module models64.
Import binary64.

(** [x**n] on an array element: [n = 2] is the product [x*x]; the other
    powers go through the [pow] of the C library, taken here as correctly
    rounded. *)
Definition fpow (x : Q) (n : nat) : option Q :=
  match n with
  | 2%nat => fmul x x
  | _ => b64 (x ^ Z.of_nat n)
  end.

(** The bracket [0.25/(1-x)**2 - 0.25 + x] on a normalised extension. *)
Definition bracket (x : Q) : option Q :=
  t ← fsub 1 x; s ← fpow t 2; b ← fdiv 0.25 s; u ← fsub b 0.25; fadd u x.

(** [WLC(d, kBT, Lc, Lp)]. *)
Definition WLC (d kBT Lc Lp : Q) : option Q :=
  d ← fmul d 1000;
  a ← fdiv kBT Lp;
  x ← fdiv d Lc;
  t ← fsub 1 x;
  s ← fpow t 2;
  b ← fdiv 0.25 s;
  u ← fsub b 0.25;
  v ← fadd u x;
  fmul a v.

Definition alpha : list Q :=
  map lit [-0.5164228; -2.737418; 16.07497; -38.87607; 39.49944; -14.17718].

(** [corr = 0; for n in range(len(alpha)): corr += alpha[n]*(l)**(n+2)]. *)
Definition corr (l : Q) : option Q :=
  fold_left (fun acc n =>
               c ← acc; p ← fpow l (n + 2); m ← fmul (nth n alpha 0) p;
               fadd c m)
            (seq 0 (length alpha)) (Some 0).

(** [bouchiat(d, kBT, Lc, Lp)]. *)
Definition bouchiat (d kBT Lc Lp : Q) : option Q :=
  d ← fmul d 1000;
  x ← fdiv d Lc;
  c ← corr x;
  a ← fdiv kBT Lp;
  t ← fsub 1 x;
  s ← fpow t 2;
  b ← fdiv 0.25 s;
  u ← fsub b 0.25;
  v ← fadd u x;
  w ← fadd v c;
  fmul a w.

(** The correction term as the specification words it, evaluated in
    binary64 from left to right: [kBT/Lp] times the sum over the powers
    [n = 2..7] of [alpha_(n-1) * (1000*d/Lc)^n]. *)
Definition spec_correction (d kBT Lc Lp : Q) : option Q :=
  a ← fdiv kBT Lp;
  d ← fmul 1000 d;
  x ← fdiv d Lc;
  c ← corr x;
  fmul a c.

(** [WLC] plus the correction term, in binary64. *)
Definition WLC_plus_correction (d kBT Lc Lp : Q) : option Q :=
  w ← WLC d kBT Lc Lp;
  c ← spec_correction d kBT Lc Lp;
  fadd w c.

(** The binary64 number nearest to [10^-200], a distance whose square
    underflows. *)
Definition tiny : Q := lit (1 / 10 ^ 200).

End models64.

(* ===================================================================== *)
(** * [wlc/fitting.py]: the iterative fitter *)
(* ===================================================================== *)

(** The minimizer ([lmfit]), the progress bar and the tabular storage are
    collaborators outside the repository.  The minimizer is a parameter of
    the development: a function from the arguments of one [Model.fit] call to
    the result object it returns; it is taken to return.  The progress bar
    and the diagnostic [print]s are left out.  A data frame built with
    [ignore_index=True] is the list of its rows, labelled [0 .. n-1]. *)
Module fitting.

(** ** Exceptions *)

Inductive Key : Type :=
| KStr (s : string)
| KInt (n : nat).

Inductive Exception : Type :=
| ValueError (msg : string)
| KeyError (k : Key)
| IndexError
| AttributeError (attr : string).

Inductive Result (A : Type) : Type :=
| Ok (a : A)
| Raise (e : Exception).
Arguments Ok {A} a.
Arguments Raise {A} e.

Definition bind {A B : Type} (m : Result A) (k : A -> Result B) : Result B :=
  match m with
  | Ok a => k a
  | Raise e => Raise e
  end.

(** [d[k]] on a Python dict: the value, or [KeyError]. *)
Definition item {V : Type} (d : gmap string V) (k : string) : Result V :=
  match d !! k with
  | Some v => Ok v
  | None => Raise (KeyError (KStr k))
  end.

(** ** lmfit parameters *)

(** An lmfit [Parameter]: its value, bounds and [vary] flag. *)
Module Param.
Record t : Type := mk {
  value : Q;
  min : Ext;
  max : Ext;
  vary : bool
}.

(** [Parameter.set(value=v)] of lmfit: the value changes, the rest
    stays.  The value set by [fit] is a fitted value, which lmfit keeps
    within the bounds. *)
Definition set (p : t) (v : Q) : t :=
  {| value := v; min := min p; max := max p; vary := vary p |}.
End Param.

Abbreviation Parameters := (gmap string Param.t).

(** [set_param_hint(name, value=v)]: no bounds given, so unbounded. *)
Definition hint (v : Q) : Param.t :=
  Param.mk v NInf PInf true.

(** The value lmfit reads from a parameter with bounds: a value above
    the upper bound reads as that bound, one below the lower bound as the
    lower bound. *)
Definition clip (v lo hi : Q) : Q :=
  if Qle_bool v hi then (if Qle_bool lo v then v else lo) else hi.

(** [set_param_hint(name, value=v, min=lo, max=hi)]. *)
Definition hint_bounded (v lo hi : Q) : Param.t :=
  Param.mk (clip v lo hi) (Fin lo) (Fin hi) true.

(** ** The minimizer *)

Inductive Func : Type := f_WLC | f_bouchiat | f_odijk | f_eWLC.

(** The keyword that binds the independent variable in [Model.fit]. *)
Inductive Binding : Type :=
| bind_F (F : list Q)
| bind_fdata (fdata : list Q * list Q)
| bind_d (d : list Q).

(** The arguments of one call [self.fmodel.fit(data, params, **kw, method)]. *)
Record FitCall : Type := {
  call_func : Func;
  call_data : list Q;
  call_params : Parameters;
  call_indep : Binding;
  call_method : string
}.

(** What the fitter reads from the result object. *)
Record ModelResult : Type := {
  params : Parameters;
  chisqr : Q
}.

Abbreviation Minimizer := (FitCall -> ModelResult).

(** ** Rows and data frames *)

(** A row of [df_full]: columns [Lc[nm]], [Lp[nm]], [S[pN]], [Chisqr],
    [filename], [iter], [dLp[nm]]. *)
Record Row : Type := {
  row_Lc : Q;
  row_Lp : Q;
  row_S : option Q;
  row_Chisqr : Q;
  row_filename : option string;
  row_iter : nat;
  row_dLp : Ext
}.

Abbreviation DataFrame := (list Row).

(** The row [fit] returns: [opt_Lc[nm]], [opt_Lp[nm]], [opt_S[pN]],
    [nFittings], [filename]. *)
Record Summary : Type := {
  opt_Lc : Q;
  opt_Lp : Q;
  opt_S : option Q;
  nFittings : nat;
  s_filename : option string
}.

Definition summary_of (r : Row) : Summary :=
  {| opt_Lc := row_Lc r; opt_Lp := row_Lp r; opt_S := row_S r;
     nFittings := row_iter r; s_filename := row_filename r |}.

(** ** The class *)

(** The attributes of an instance.  [fparams], [result] and [df_full] do
    not exist until [compile], the first minimizer call and the first
    return of [fit] create them. *)
Record WormLikeChain : Type := {
  func : Func;
  model : string;
  fparams : option Parameters;
  result : option ModelResult;
  df_full : option DataFrame
}.

Definition unknown_model : string :=
  "Unknown fitting model. Available models are: 'WLC', 'bouchiat', and 'odijk'.".

Definition new (f : Func) (name : string) : WormLikeChain :=
  {| func := f; model := name; fparams := None; result := None;
     df_full := None |}.

(** Attribute assignments on the instance. *)
Definition with_result (s : WormLikeChain) (r : ModelResult) : WormLikeChain :=
  {| func := func s; model := model s; fparams := fparams s;
     result := Some r; df_full := df_full s |}.

Definition with_fparams (s : WormLikeChain) (ps : Parameters) : WormLikeChain :=
  {| func := func s; model := model s; fparams := Some ps;
     result := result s; df_full := df_full s |}.

Definition with_df_full (s : WormLikeChain) (df : DataFrame) : WormLikeChain :=
  {| func := func s; model := model s; fparams := fparams s;
     result := result s; df_full := Some df |}.

(** [WormLikeChain.__init__(model)]. *)
Definition init (model : string) : Result WormLikeChain :=
  if String.eqb model "WLC" then Ok (new f_WLC model)
  else if String.eqb model "bouchiat" then Ok (new f_bouchiat model)
  else if String.eqb model "odijk" then Ok (new f_odijk model)
  else if String.eqb model "eWLC" then Ok (new f_eWLC model)
  else Raise (ValueError unknown_model).

(** Boltzmann constant in pN*nm*K-1. *)
Definition KB : Q := 0.013806.

Definition contradictory : string :=
  "Please provide either T or kBT. They are contradictory".

Definition has (d : gmap string Q) (k : string) : bool :=
  match d !! k with Some _ => true | None => false end.

(** [KB*(273.15 + T)] as the code computes it: the two literals, the sum
    and the product are binary64 numbers.  For a binary64 [T] neither the
    sum nor the product overflows. *)
Definition kBT_of_T (T : Q) : Q :=
  binary64.lit (binary64.lit KB * binary64.lit (binary64.lit 273.15 + T)).

(** The first statement of [compile]: the hint for [kBT]. *)
Definition kBT_hint (params : gmap string Q) : Result Param.t :=
  if has params "kBT" && negb (has params "T") then
    bind (item params "kBT") (fun k => Ok (hint k))
  else if negb (has params "kBT") && has params "T" then
    bind (item params "T") (fun T => Ok (hint (kBT_of_T T)))
  else
    bind (item params "kBT") (fun k =>
    bind (item params "T") (fun T =>
    if Qeq_bool k (kBT_of_T T) then
      bind (item params "kBT") (fun k => Ok (hint k))
    else Raise (ValueError contradictory))).

(** [set_param_hint(name, value=params[name], min=params[name_lower],
    max=params[name_upper])]. *)
Definition bounded_hint (params : gmap string Q) (name : string)
  : Result Param.t :=
  bind (item params name) (fun v =>
  bind (item params (name ++ "_lower")) (fun lo =>
  bind (item params (name ++ "_upper")) (fun hi =>
  Ok (hint_bounded v lo hi)))).

(** [WormLikeChain.compile(params)].  Every argument of the model function
    has received a hint when [make_params] runs, so the parameters it
    builds are the hints; [kBT] is then frozen. *)
Definition compile (self : WormLikeChain) (params : gmap string Q)
  : Result WormLikeChain :=
  bind (kBT_hint params) (fun kBT =>
  bind (bounded_hint params "Lc") (fun Lc =>
  bind (bounded_hint params "Lp") (fun Lp =>
  let hints : Parameters :=
    <["Lp" := Lp]> (<["Lc" := Lc]> (<["kBT" := kBT]> ∅)) in
  bind (if String.eqb (model self) "odijk" || String.eqb (model self) "eWLC"
        then bind (bounded_hint params "S") (fun S => Ok (<["S" := S]> hints))
        else Ok hints) (fun hints =>
  let made : Parameters :=
    alter (fun p => Param.mk (Param.value p) (Param.min p)
                                 (Param.max p) false) "kBT" hints in
  Ok (with_fparams self made))))).

(** ** [fit]: state and exceptions *)

(** What a call of [fit] can change and what outlives an exception: the
    instance, and the record of the minimizer calls made so far (latest
    last), kept to count and inspect them. *)
Record World : Type := {
  self : WormLikeChain;
  calls : list FitCall
}.

(** The outcome of a computation: a value, an exception, or no outcome
    because the recursion budget of the embedding ran out. *)
Inductive Res (A : Type) : Type :=
| Done (a : A) (w : World)
| Fail (e : Exception) (w : World)
| OutOfFuel.
Arguments Done {A} a w.
Arguments Fail {A} e w.
Arguments OutOfFuel {A}.

Definition M (A : Type) : Type := World -> Res A.

Definition ret {A : Type} (a : A) : M A := fun w => Done a w.

Definition raise {A : Type} (e : Exception) : M A := fun w => Fail e w.

Definition mbind' {A B : Type} (m : M A) (k : A -> M B) : M B :=
  fun w =>
    match m w with
    | Done a w' => k a w'
    | Fail e w' => Fail e w'
    | OutOfFuel => OutOfFuel
    end.

Notation "'do' x <- m ; k" := (mbind' m (fun x => k))
  (at level 10, x name, m at level 100, k at level 200).
Notation "'do' ' p <- m ; k" := (mbind' m (fun x => let p := x in k))
  (at level 10, p strict pattern, m at level 100, k at level 200).

(** [self.fparams]: an [AttributeError] before [compile]. *)
Definition get_fparams : M Parameters :=
  fun w =>
    match fparams (self w) with
    | Some ps => Done ps w
    | None => Fail (AttributeError "fparams") w
    end.

(** [ps[name]] on a parameter set. *)
Definition param (ps : Parameters) (name : string) : M Param.t :=
  match ps !! name with
  | Some p => ret p
  | None => raise (KeyError (KStr name))
  end.

(** [self.result = self.fmodel.fit(...)]. *)
Definition call_fit (minimize : Minimizer) (c : FitCall) : M ModelResult :=
  fun w =>
    let r := minimize c in
    Done r {| self := with_result (self w) r; calls := calls w ++ [c] |}.

(** [self.fparams[name].set(v)]. *)
Definition set_param (name : string) (v : Q) : M unit :=
  do ps <- get_fparams;
  do p <- param ps name;
  fun w =>
    Done tt {| self := with_fparams (self w) (<[name := Param.set p v]> ps);
               calls := calls w |}.

(** [self.df_full = df]. *)
Definition set_df_full (df : DataFrame) : M unit :=
  fun w =>
    Done tt {| self := with_df_full (self w) df; calls := calls w |}.

(** [df.loc[label, 'Lp[nm]']]: the row with that label, or [KeyError]. *)
Definition loc_Lp (df : DataFrame) (label : nat) : M Q :=
  match df !! label with
  | Some r => ret (row_Lp r)
  | None => raise (KeyError (KInt label))
  end.

(** The local variables of the loop. *)
Record Locals : Type := {
  df : DataFrame;
  dLp : Ext;
  i : nat
}.

(** The bounds test of [fit]: [v <= p.min | v >= p.max]. *)
Definition out_of_bounds (v : Q) (p : Param.t) : bool :=
  Ext_leb (Fin v) (Param.min p) || Ext_leb (Param.max p) (Fin v).

Section Fit.
Variable minimize : Minimizer.
Variable data : list Q * list Q.
Variable min_delta : Q.
Variable max_iters : nat.
Variable filename : option string.
Variable method : string.

(** [self.model] and [self.func]. *)
Definition get_model : M string := fun w => Done (model (self w)) w.
Definition get_func : M Func := fun w => Done (func (self w)) w.

(** The minimizer call of one iteration and the values read from it:
    [Lc, Lp, S, Chisqr]. *)
Definition fit_model : M (Q * Q * option Q * Q) :=
  let '(d, F) := data in
  do m <- get_model;
  do f <- get_func;
  if String.eqb m "odijk" then
    do ps <- get_fparams;
    do r <- call_fit minimize
              {| call_func := f; call_data := d; call_params := ps;
                 call_indep := bind_F F; call_method := method |};
    do Lc <- param (params r) "Lc";
    do Lp <- param (params r) "Lp";
    do Sp <- param (params r) "S";
    ret (Param.value Lc, Param.value Lp, Some (Param.value Sp), chisqr r)
  else if String.eqb m "eWLC" then
    do ps <- get_fparams;
    do r <- call_fit minimize
              {| call_func := f; call_data := F; call_params := ps;
                 call_indep := bind_fdata data; call_method := method |};
    do Lc <- param (params r) "Lc";
    do Lp <- param (params r) "Lp";
    do Sp <- param (params r) "S";
    ret (Param.value Lc, Param.value Lp, Some (Param.value Sp), chisqr r)
  else
    do ps <- get_fparams;
    do r <- call_fit minimize
              {| call_func := f; call_data := F; call_params := ps;
                 call_indep := bind_d d; call_method := method |};
    do Lc <- param (params r) "Lc";
    do Lp <- param (params r) "Lp";
    ret (Param.value Lc, Param.value Lp, None, chisqr r).

(** The body of the [while] loop. *)
Definition fit_body (l : Locals) : M Locals :=
  do '(Lc, Lp, Sv, Chisqr) <- fit_model;
  do dLp' <- (if (0 <? i l)%nat
              then do prev <- loc_Lp (df l) (i l - 1);
                   ret (Fin (Qabs (Lp - prev)))
              else ret (dLp l));
  let df_res :=
    {| row_Lc := Lc; row_Lp := Lp; row_S := Sv; row_Chisqr := Chisqr;
       row_filename := filename; row_iter := (i l + 1)%nat;
       row_dLp := dLp' |} in
  do ps <- get_fparams;
  do pLc <- param ps "Lc";
  do df' <- (if out_of_bounds Lc pLc then ret (df l)
             else do pLp <- param ps "Lp";
                  if out_of_bounds Lp pLp then ret (df l)
                  else ret (df l ++ [df_res]));
  do _ <- set_param "Lp" Lp;
  ret {| df := df'; dLp := dLp'; i := (i l + 1)%nat |}.

(** The loop test [(dLp > min_delta) and (i < max_iters)]. *)
Definition continues (l : Locals) : bool :=
  Ext_gtb (dLp l) (Fin min_delta) && (i l <? max_iters)%nat.

(** [while (dLp > min_delta) and (i < max_iters): body]. *)
Fixpoint fit_loop (fuel : nat) (l : Locals) : M Locals :=
  if continues l then
    match fuel with
    | O => fun _ => OutOfFuel
    | S fuel' => do l' <- fit_body l; fit_loop fuel' l'
    end
  else ret l.

(** [df[[...]].values[-1]]: the last row, or [IndexError]. *)
Definition last_row (df : DataFrame) : M Row :=
  match last df with
  | Some r => ret r
  | None => raise IndexError
  end.

(** [WormLikeChain.fit(data, min_delta, max_iters, filename, method)]. *)
Definition fit : M Summary :=
  do l <- fit_loop max_iters {| df := []; dLp := PInf; i := 0 |};
  do r <- last_row (df l);
  do _ <- set_df_full (df l);
  ret (summary_of r).

End Fit.

End fitting.

(* ===================================================================== *)
(** * Vocabulary of the statements *)
(* ===================================================================== *)

(** Predicates and observations used to state what the fitter does. *)
Module fit_spec.
Import fitting.

(** The arguments [fit] passes to the minimizer for an instance [s] whose
    parameters are [ps]. *)
Definition the_call (data : list Q * list Q) (method : string)
           (s : WormLikeChain) (ps : Parameters) : FitCall :=
  if String.eqb (model s) "odijk" then
    {| call_func := func s; call_data := fst data; call_params := ps;
       call_indep := bind_F (snd data); call_method := method |}
  else if String.eqb (model s) "eWLC" then
    {| call_func := func s; call_data := snd data; call_params := ps;
       call_indep := bind_fdata data; call_method := method |}
  else
    {| call_func := func s; call_data := snd data; call_params := ps;
       call_indep := bind_d (fst data); call_method := method |}.

(** The stretch modulus [fit] reads from a result: that of the result for
    the two models that have one, [None] for the others. *)
Definition fitted_S (s : WormLikeChain) (r : ModelResult) : option Q :=
  if String.eqb (model s) "odijk" || String.eqb (model s) "eWLC"
  then Param.value <$> params r !! "S"
  else None.

(** The value of a parameter in the latest minimizer result. *)
Definition fitted (w : World) (name : string) : option Q :=
  r ← result (self w); p ← params r !! name; Some (Param.value p).

(** The row iteration [n] builds from the result [r]. *)
Definition row_of (filename : option string) (s : WormLikeChain)
           (r : ModelResult) (pc pp : Param.t) (n : nat) (delta : Ext) : Row :=
  {| row_Lc := Param.value pc; row_Lp := Param.value pp;
     row_S := fitted_S s r; row_Chisqr := chisqr r;
     row_filename := filename; row_iter := (n + 1)%nat;
     row_dLp := delta |}.

(** [v] lies strictly between the bounds of [p]. *)
Definition inside (v : Q) (p : Param.t) : Prop :=
  Ext_lt (Param.min p) (Fin v) /\ Ext_lt (Fin v) (Param.max p).

(** A finite bound equal to [v]. *)
Definition Ext_is (v : Q) (b : Ext) : Prop :=
  match b with
  | Fin q => v == q
  | _ => False
  end.

(** [v] sits exactly on one of the bounds of [p]. *)
Definition on_bound (v : Q) (p : Param.t) : Prop :=
  Ext_is v (Param.min p) \/ Ext_is v (Param.max p).

(** [P] holds of the world an outcome ends in, and there is an outcome. *)
Definition ends_in {A : Type} (r : Res A) (P : World -> Prop) : Prop :=
  match r with
  | Done _ w' => P w'
  | Fail _ w' => P w'
  | OutOfFuel => False
  end.

(** [ps'] is [ps] with the value of [Lp] replaced by [v]: the bounds of
    [Lp] and every other parameter are those of [ps]. *)
Definition warm_started (ps ps' : Parameters) (v : Q) : Prop :=
  (exists bp p' : Param.t,
      ps !! "Lp" = Some bp /\ ps' !! "Lp" = Some p' /\
      Param.value p' = v /\ Param.min p' = Param.min bp /\
      Param.max p' = Param.max bp /\ Param.vary p' = Param.vary bp) /\
  (forall name : string, name <> "Lp" -> ps' !! name = ps !! name).

(** The parameters of [w'] are those of [w] warm-started with the [Lp] of
    the latest minimizer result in [w']. *)
Definition warm (w w' : World) : Prop :=
  exists (ps ps' : Parameters) (Lp : Q),
    fparams (self w) = Some ps /\ fparams (self w') = Some ps' /\
    fitted w' "Lp" = Some Lp /\ warm_started ps ps' Lp.

(** The parameters of [w'] are [ps], or [ps] with the value of [Lp]
    replaced. *)
Definition kept (ps : Parameters) (w' : World) : Prop :=
  exists ps' : Parameters,
    fparams (self w') = Some ps' /\
    (ps' = ps \/ exists v : Q, warm_started ps ps' v).

(** A minimizer whose results stay strictly inside the bounds [bc] of
    [Lc] and [lo], [hi] of [Lp], and carry [S] for the models that read
    it, on every call that starts inside these bounds. *)
Definition well_fitted (minimize : Minimizer) (name : string)
           (bc : Param.t) (lo hi : Ext) : Prop :=
  forall (c : FitCall) (p : Param.t),
    call_params c !! "Lc" = Some bc ->
    call_params c !! "Lp" = Some p ->
    Param.min p = lo -> Param.max p = hi ->
    inside (Param.value p) p ->
    exists pc pp : Param.t,
      params (minimize c) !! "Lc" = Some pc /\
      params (minimize c) !! "Lp" = Some pp /\
      inside (Param.value pc) bc /\ inside (Param.value pp) p /\
      (String.eqb name "odijk" || String.eqb name "eWLC" = true ->
       is_Some (params (minimize c) !! "S")).

(** The state of a loop in which no row has been dropped so far. *)
Definition on_track (name : string) (bc : Param.t) (lo hi : Ext)
           (l : Locals) (w : World) : Prop :=
  model (self w) = name /\
  (exists (ps : Parameters) (p : Param.t),
      fparams (self w) = Some ps /\
      ps !! "Lc" = Some bc /\ ps !! "Lp" = Some p /\
      Param.min p = lo /\ Param.max p = hi /\
      inside (Param.value p) p) /\
  length (df l) = i l /\
  (dLp l = PInf \/ exists q : Q, dLp l = Fin (Qabs q)) /\
  (forall r : Row, last (df l) = Some r -> row_iter r = i l).

(** The model names the constructor accepts. *)
Definition wired : list string := ["WLC"; "bouchiat"; "odijk"; "eWLC"].

(** The enumerated set of the specification. *)
Definition enumerated : list string :=
  ["WLC"; "eWLC"; "bouchiat"; "ebouchiat"; "odijk"].

End fit_spec.

(* ===================================================================== *)
(** * A small configuration and two scripted minimizers *)
(* ===================================================================== *)

(** Concrete inputs on which the fitter is run below. *)
Module demo.
Import fitting.

(** A parameter specification for the "WLC" model. *)
Definition spec : gmap string Q :=
  {[ "T" := 25; "Lc" := 1000; "Lc_lower" := 500; "Lc_upper" := 2000;
     "Lp" := 50; "Lp_lower" := 10; "Lp_upper" := 100 ]}.

(** [w = WormLikeChain("WLC"); w.compile(spec)]. *)
Definition instance : WormLikeChain :=
  match bind (init "WLC") (fun s => compile s spec) with
  | Ok s => s
  | Raise _ => new f_WLC "WLC"
  end.

Definition world : World := {| self := instance; calls := [] |}.

(** [WormLikeChain("WLC").compile(params)]. *)
Definition compile_WLC (params : gmap string Q) : Result WormLikeChain :=
  bind (init "WLC") (fun s => compile s params).

(** Three observations of distance [um] and force [pN]. *)
Definition data : list Q * list Q := ([0.2; 0.4; 0.6], [0.05; 0.13; 0.3]).

(** A result whose parameters are those of the call with the values of
    [Lc] and [Lp] replaced. *)
Definition answer (Lc Lp : Q) (c : FitCall) : ModelResult :=
  {| params := alter (fun p => Param.set p Lc) "Lc"
                 (alter (fun p => Param.set p Lp) "Lp" (call_params c));
     chisqr := 0.01 |}.

(** The initial value of [Lp] a call starts from. *)
Definition seed_Lp (c : FitCall) : Q :=
  match call_params c !! "Lp" with
  | Some p => Param.value p
  | None => 0
  end.

(** A minimizer whose [Lp] moves halfway to 40 at each call; [Lc] stays
    inside its bounds. *)
Definition steady (c : FitCall) : ModelResult :=
  answer 1000 (Qred ((seed_Lp c + 40) / 2)) c.

(** A minimizer whose second answer puts [Lc] on its upper bound. *)
Definition stray (c : FitCall) : ModelResult :=
  if Qeq_bool (seed_Lp c) 50 then answer 1000 45 c
  else if Qeq_bool (seed_Lp c) 45 then answer 2000 42 c
  else answer 1000 41 c.

(** A minimizer pinned on the upper bound of [Lc] at every call. *)
Definition stuck (c : FitCall) : ModelResult :=
  answer 2000 (Qred ((seed_Lp c + 40) / 2)) c.

(** The local variables at the start of the loop. *)
Definition start : Locals := {| df := []; dLp := PInf; i := 0 |}.

(** [fit(data, min_delta, max_iters)] on the compiled instance. *)
Definition run (m : Minimizer) (min_delta : Q) (max_iters : nat)
  : Res Summary :=
  fit m data min_delta max_iters None "leastsq" world.

(** The first [n] iterations of the loop, run one after the other. *)
Fixpoint iterate (m : Minimizer) (n : nat) : M Locals :=
  match n with
  | O => ret start
  | S k => do l <- iterate m k; fit_body m data None "leastsq" l
  end.

(** The parts of an outcome, with defaults where it has none. *)
Definition value_of {A : Type} (default : A) (r : Res A) : A :=
  match r with
  | Done a _ => a
  | _ => default
  end.

Definition world_of {A : Type} (r : Res A) : World :=
  match r with
  | Done _ w => w
  | Fail _ w => w
  | OutOfFuel => world
  end.

(** The row of the first iteration of [stray]. *)
Definition first_row : Row :=
  {| row_Lc := 1000; row_Lp := 45; row_S := None; row_Chisqr := 0.01;
     row_filename := None; row_iter := 1; row_dLp := PInf |}.

(** Specifications with both [kBT] and [T]. *)
Definition spec_kBT_T (kBT T : Q) : gmap string Q :=
  <["kBT" := kBT]> (<["T" := T]> spec).

End demo.


(* ===================================================================== *)
(** * More vocabulary: what [compile] needs and builds *)
(* ===================================================================== *)

Module compile_spec.
Import fitting.

(** The models whose function has the stretch modulus [S]. *)
Definition needs_S (name : string) : bool :=
  String.eqb name "odijk" || String.eqb name "eWLC".

(** The entries [compile] reads after the temperature, in the order it
    reads them. *)
Definition required (name : string) : list string :=
  ["Lc"; "Lc_lower"; "Lc_upper"; "Lp"; "Lp_lower"; "Lp_upper"]
  ++ (if needs_S name then ["S"; "S_lower"; "S_upper"] else []).

(** One of [kBT] and [T] is given, and if both are they agree. *)
Definition temperature_ok (params : gmap string Q) : Prop :=
  match params !! "kBT", params !! "T" with
  | Some k, Some T => k == kBT_of_T T
  | None, None => False
  | _, _ => True
  end.

(** The thermal energy a specification stands for: [kBT] if given,
    otherwise derived from [T]. *)
Definition kBT_of (params : gmap string Q) : option Q :=
  match params !! "kBT", params !! "T" with
  | Some k, _ => Some k
  | None, Some T => Some (kBT_of_T T)
  | None, None => None
  end.

(** The parameter [p] that a hint with the value [v] and the bounds
    [lo], [hi] makes: free to vary, with these bounds, and with the value
    [v] when it lies within them. *)
Definition built (p : Param.t) (v lo hi : Q) : Prop :=
  Param.min p = Fin lo /\ Param.max p = Fin hi /\ Param.vary p = true /\
  (lo <= v -> v <= hi -> Param.value p = v).

(** The names of the parameters with bounds that a model is fitted
    with. *)
Definition bounded_names (name : string) : list string :=
  ["Lc"; "Lp"] ++ (if needs_S name then ["S"] else []).

End compile_spec.

(* ===================================================================== *)
(** * More vocabulary: the course of a run of [fit] *)
(* ===================================================================== *)

Module run_spec.
Import fitting fit_spec compile_spec.

(** The parameters an iteration starts from after a result with
    [Lp = v]: those the run began with, the value of [Lp] replaced. *)
Definition restart (ps0 : Parameters) (v : Q) : Parameters :=
  alter (fun p => Param.set p v) "Lp" ps0.

(** The parameters of a run stay those it began with, up to the value of
    [Lp]. *)
Definition since (ps0 ps : Parameters) : Prop :=
  ps = ps0 \/ exists u : Q, ps = restart ps0 u.

(** The minimizer calls [cs] of a run on the instance [s] that began with
    the parameters [ps0]: the first call has these parameters, and every
    later one has them with [Lp] set to the value the call before it
    fitted; function, data, binding and method are those of the run. *)
Definition chained (minimize : Minimizer) (data : list Q * list Q)
           (method : string) (s : WormLikeChain) (ps0 : Parameters)
           (cs : list FitCall) : Prop :=
  (forall c : FitCall,
      cs !! 0%nat = Some c -> c = the_call data method s ps0) /\
  (forall (k : nat) (c c' : FitCall),
      cs !! k = Some c -> cs !! S k = Some c' ->
      exists pp : Param.t,
        params (minimize c) !! "Lp" = Some pp /\
        c' = the_call data method s (restart ps0 (Param.value pp))).

(** The result of the call [c] has [Lc] or [Lp] on or outside the bounds
    of [ps0]. *)
Definition rejected (minimize : Minimizer) (ps0 : Parameters) (c : FitCall)
  : Prop :=
  exists pc pp bc bp : Param.t,
    params (minimize c) !! "Lc" = Some pc /\
    params (minimize c) !! "Lp" = Some pp /\
    ps0 !! "Lc" = Some bc /\ ps0 !! "Lp" = Some bp /\
    ~ (inside (Param.value pc) bc /\ inside (Param.value pp) bp).

(** Row [k] of the table [rows] is built from the result of call [k] of
    [cs], which lies strictly inside the bounds of [ps0]; its [dLp] is
    infinite in the first row and the distance to the [Lp] of the row
    before in the others. *)
Definition row_from (minimize : Minimizer) (filename : option string)
           (s : WormLikeChain) (ps0 : Parameters) (cs : list FitCall)
           (rows : DataFrame) (k : nat) (r : Row) : Prop :=
  exists (c : FitCall) (pc pp bc bp : Param.t),
    cs !! k = Some c /\
    params (minimize c) !! "Lc" = Some pc /\
    params (minimize c) !! "Lp" = Some pp /\
    ps0 !! "Lc" = Some bc /\ ps0 !! "Lp" = Some bp /\
    inside (Param.value pc) bc /\ inside (Param.value pp) bp /\
    r = row_of filename s (minimize c) pc pp k (row_dLp r) /\
    match k with
    | O => row_dLp r = PInf
    | S j => exists prev : Row,
        rows !! j = Some prev /\
        row_dLp r = Fin (Qabs (Param.value pp - row_Lp prev))
    end.

(** What no run touches: the model name, the function and, until it
    returns, the table of an earlier run. *)
Definition framed (w0 w : World) : Prop :=
  model (self w) = model (self w0) /\ func (self w) = func (self w0) /\
  df_full (self w) = df_full (self w0).

(** The instance and [dLp] after the calls [cs]. *)
Definition latest (minimize : Minimizer) (w0 : World) (ps0 : Parameters)
           (l : Locals) (w : World) (cs : list FitCall) : Prop :=
  match last cs with
  | None =>
      fparams (self w) = Some ps0 /\ result (self w) = result (self w0) /\
      dLp l = PInf
  | Some c =>
      exists pp : Param.t,
        params (minimize c) !! "Lp" = Some pp /\
        fparams (self w) = Some (restart ps0 (Param.value pp)) /\
        result (self w) = Some (minimize c) /\
        match i l with
        | S (S j) => exists prev : Row,
            df l !! j = Some prev /\
            dLp l = Fin (Qabs (Param.value pp - row_Lp prev))
        | _ => dLp l = PInf
        end
  end.

(** The state of the loop of a run that began in [w0] with the
    parameters [ps0]: one call per iteration, at most the latest row
    missing from the table. *)
Definition trace (minimize : Minimizer) (data : list Q * list Q)
           (max_iters : nat) (filename : option string) (method : string)
           (w0 : World) (ps0 : Parameters) (l : Locals) (w : World) : Prop :=
  framed w0 w /\ (i l <= max_iters)%nat /\
  exists cs : list FitCall,
    calls w = calls w0 ++ cs /\ length cs = i l /\
    chained minimize data method (self w0) ps0 cs /\
    latest minimize w0 ps0 l w cs /\
    (length (df l) = i l \/
     (S (length (df l)) = i l /\
      exists c : FitCall, last cs = Some c /\ rejected minimize ps0 c)) /\
    (forall (k : nat) (r : Row),
        df l !! k = Some r ->
        row_from minimize filename (self w0) ps0 cs (df l) k r).

(** A [KeyError] for a parameter name: one of the names the model is
    fitted with, missing from the result of the call [c] or from the
    parameters of the run. *)
Definition missing_name (minimize : Minimizer) (s : WormLikeChain)
           (ps0 : Parameters) (c : FitCall) (e : Exception) : Prop :=
  exists k : string,
    e = KeyError (KStr k) /\ In k (bounded_names (model s)) /\
    (params (minimize c) !! k = None \/ ps0 !! k = None).

(** A [KeyError] for a row label: the label [n] of the row that the
    rejected result of call [n] did not add, looked up by the call after
    it, the last of [cs]. *)
Definition missing_row (minimize : Minimizer) (ps0 : Parameters)
           (cs : list FitCall) (e : Exception) : Prop :=
  exists (n : nat) (c0 : FitCall),
    e = KeyError (KInt n) /\ length cs = (n + 2)%nat /\
    cs !! n = Some c0 /\ rejected minimize ps0 c0.

(** The world an iteration that raises leaves behind. *)
Definition failed (minimize : Minimizer) (data : list Q * list Q)
           (max_iters : nat) (method : string)
           (w0 : World) (ps0 : Parameters) (e : Exception) (w' : World)
  : Prop :=
  framed w0 w' /\
  exists (cs : list FitCall) (c : FitCall),
    calls w' = calls w0 ++ cs /\ (length cs <= max_iters)%nat /\
    chained minimize data method (self w0) ps0 cs /\
    last cs = Some c /\ result (self w') = Some (minimize c) /\
    (missing_name minimize (self w0) ps0 c e \/
     missing_row minimize ps0 cs e).

End run_spec.

(** The parameters of the compiled instance of the examples. *)
Module demo_run.
Import fitting.

Definition params0 : Parameters :=
  <["Lp" := hint_bounded 50 10 100]>
    (<["Lc" := hint_bounded 1000 500 2000]>
       (<["kBT" := Param.mk (kBT_of_T 25) NInf PInf false]> ∅)).

(** The summary and the world a run ends with. *)
Definition summary (r : Res Summary) : Summary :=
  demo.value_of (summary_of demo.first_row) r.

Definition uncompiled : World := {| self := new f_WLC "WLC"; calls := [] |}.

End demo_run.

(* ===================================================================== *)
(** * [plot_residuals]: the bin edges *)
(* ===================================================================== *)

(** The local function [bins] of [plot_residuals], which the method
    defines and does not call.  NumPy's reductions and [arange] are
    embedded on lists of exact rationals. *)
Module plotting.
Import fitting.

Definition zero_size : string :=
  "zero-size array to reduction operation maximum which has no identity".

(** [max(a, b)]: [b] if it is greater, else [a]. *)
Definition maximum (a b : Q) : Q := if Qle_bool b a then a else b.

(** [np.max(l)]: a [ValueError] on an empty array. *)
Definition np_max (l : list Q) : Result Q :=
  match l with
  | [] => Raise (ValueError zero_size)
  | a :: t => Ok (fold_left maximum t a)
  end.

(** [np.abs(l)]. *)
Definition np_abs (l : list Q) : list Q := map Qabs l.

(** [int(q)]: truncation towards zero. *)
Definition int (q : Q) : Z := Z.quot (Qnum q) (Z.pos (Qden q)).

(** The least integer not below [q]. *)
Definition ceil (q : Q) : Z := (- ((- Qnum q) / Z.pos (Qden q)))%Z.

(** [np.arange(start, stop, step)]: [ceil((stop - start) / step)] values
    [start + k * step]. *)
Definition np_arange (start stop step : Q) : list Q :=
  map (fun k : nat => start + inject_Z (Z.of_nat k) * step)
      (seq 0 (Z.to_nat (ceil ((stop - start) / step)))).

Definition binwidth : Q := 0.25.

(** [bins(x, y)]. *)
Definition bins (x y : list Q) : Result (list Q) :=
  bind (np_max (np_abs x)) (fun mx =>
  bind (np_max (np_abs y)) (fun my =>
  let xymax := maximum mx my in
  let lim := inject_Z (int (xymax / binwidth) + 1) * binwidth in
  Ok (np_arange (- lim) (lim + binwidth) binwidth))).

End plotting.

(* ===================================================================== *)
(** * Properties of the model library *)
(* ===================================================================== *)

Module models_props.
Import models.

Lemma fdiv_Some (a b : Q) : ~ b == 0 -> fdiv a b = Some (a / b).
Proof.
  intros Hb. unfold fdiv.
  destruct (Qeq_bool b 0) eqn:E; [|reflexivity].
  apply Qeq_bool_eq in E. contradiction.
Qed.

Lemma fdiv_None (a b : Q) : b == 0 -> fdiv a b = None.
Proof.
  intros Hb. unfold fdiv. apply Qeq_eq_bool in Hb. now rewrite Hb.
Qed.

Lemma fdiv_compat (a a' b b' : Q) :
  a == a' -> b == b' -> oQeq (fdiv a b) (fdiv a' b').
Proof.
  intros Ha Hb. destruct (Qeq_dec b 0) as [Z | NZ].
  - rewrite (fdiv_None a b Z), (fdiv_None a' b'); [exact I|].
    now rewrite <- Hb.
  - rewrite (fdiv_Some a b NZ), (fdiv_Some a' b'); cbn.
    + now rewrite Ha, Hb.
    + now rewrite <- Hb.
Qed.

Lemma oQeq_refl (a : option Q) : oQeq a a.
Proof. destruct a; cbn; [reflexivity | exact I]. Qed.

Lemma sq_compat (x y : Q) : x == y -> (1 - x) ^ 2 == (1 - y) ^ 2.
Proof. intros ->. reflexivity. Qed.

(** The loop of [bouchiat] adds the six terms of the polynomial. *)
Lemma corr_unfold (l : Q) :
  corr l == -0.5164228 * l ^ 2 + -2.737418 * l ^ 3 + 16.07497 * l ^ 4
            + -38.87607 * l ^ 5 + 39.49944 * l ^ 6 + -14.17718 * l ^ 7.
Proof.
  unfold corr, alpha.
  cbv [length seq fold_left nth Nat.add Z.of_nat Pos.of_succ_nat Pos.succ].
  ring.
Qed.

End models_props.

Module extensible_props.
Import models models_props.

(** A nonzero force term [0/S] leaves the normalised extension unchanged. *)
Lemma zero_force (x S : Q) : ~ S == 0 -> x - 0 / S == x.
Proof. intros HS. field. exact HS. Qed.

(** C10.  At zero force and with a nonzero stretch modulus the extensible
    models are their inextensible counterparts: [eWLC((d, 0), ...)] is
    [WLC(d, ...)] and [ebouchiat((d, 0), ...)] is [bouchiat(d, ...)], the
    two sides having a finite value for the same arguments. *)
Theorem extensible_at_zero_force (d kBT Lc Lp S : Q) :
  ~ S == 0 ->
  oQeq (eWLC (d, 0) kBT Lc Lp S) (WLC d kBT Lc Lp) /\
  oQeq (ebouchiat (d, 0) kBT Lc Lp S) (bouchiat d kBT Lc Lp).
Proof.
  intros HS. unfold eWLC, WLC, ebouchiat, bouchiat.
  rewrite (fdiv_Some 0 S HS).
  destruct (fdiv kBT Lp) as [a|], (fdiv (d * 1000) Lc) as [x|];
    cbn [mbind option_bind oQeq]; try (split; exact I).
  pose proof (zero_force x S HS) as Hl.
  pose proof (fdiv_compat 0.25 0.25 _ _ (Qeq_refl _) (sq_compat _ _ Hl)) as Hb.
  destruct (fdiv 0.25 ((1 - (x - 0 / S)) ^ 2)) as [b|],
           (fdiv 0.25 ((1 - x) ^ 2)) as [b'|];
    cbn [mbind option_bind oQeq] in Hb |- *;
    try contradiction; try (split; exact I).
  split.
  - rewrite Hb, Hl. reflexivity.
  - rewrite !corr_unfold. rewrite Hb, Hl. reflexivity.
Qed.

(** The theorem at [d = 0.5], [kBT = 4.1], [Lc = 1000], [Lp = 50],
    [S = 1000]. *)
Lemma extensible_at_zero_force_witness :
  oQeq (eWLC (0.5, 0) 4.1 1000 50 1000) (WLC 0.5 4.1 1000 50) /\
  oQeq (ebouchiat (0.5, 0) 4.1 1000 50 1000) (bouchiat 0.5 4.1 1000 50).
Proof.
  apply (extensible_at_zero_force 0.5 4.1 1000 50 1000). discriminate.
Defined.
End extensible_props.

Module bouchiat_props.
Import models correction_poly models_props.

Lemma corr_factor (l : Q) : corr l == l ^ 2 * bracketQ l.
Proof. rewrite corr_unfold. unfold bracketQ. ring. Qed.

Section Mod3.
#[local] Instance eqm3_equiv : Equivalence (eqm 3) := eqm_setoid 3.
#[local] Instance add_eqm3 : Proper (eqm 3 ==> eqm 3 ==> eqm 3) Z.add := Zplus_eqm 3.
#[local] Instance sub_eqm3 : Proper (eqm 3 ==> eqm 3 ==> eqm 3) Z.sub := Zminus_eqm 3.
#[local] Instance mul_eqm3 : Proper (eqm 3 ==> eqm 3 ==> eqm 3) Z.mul := Zmult_eqm 3.
#[local] Instance opp_eqm3 : Proper (eqm 3 ==> eqm 3) Z.opp := Zopp_eqm 3.

Lemma bracketZ_eqm3 (p r u v : Z) :
  eqm 3 p u -> eqm 3 r v -> eqm 3 (bracketZ p r) (bracketZ u v).
Proof. intros Hp Hr. unfold bracketZ. rewrite Hp, Hr. reflexivity. Qed.
End Mod3.

(** Modulo 3 the form vanishes only at [(0, 0)]. *)
Lemma bracketZ_mod3 (p r : Z) :
  bracketZ p r = 0%Z -> exists p' r', p = (3 * p')%Z /\ r = (3 * r')%Z.
Proof.
  intros H.
  assert (E : eqm 3 (bracketZ p r) (bracketZ (p mod 3) (r mod 3))).
  { apply bracketZ_eqm3; symmetry; apply Zmod_eqm. }
  unfold eqm in E. rewrite H in E.
  pose proof (Z.mod_pos_bound p 3 ltac:(lia)) as Bp.
  pose proof (Z.mod_pos_bound r 3 ltac:(lia)) as Br.
  assert (Hu : (p mod 3 = 0 \/ p mod 3 = 1 \/ p mod 3 = 2)%Z) by lia.
  assert (Hv : (r mod 3 = 0 \/ r mod 3 = 1 \/ r mod 3 = 2)%Z) by lia.
  destruct Hu as [Hu | [Hu | Hu]], Hv as [Hv | [Hv | Hv]];
    rewrite Hu, Hv in E; try (vm_compute in E; discriminate E).
  exists (p / 3)%Z, (r / 3)%Z.
  pose proof (Z.div_mod p 3 ltac:(lia)).
  pose proof (Z.div_mod r 3 ltac:(lia)). lia.
Qed.

Lemma bracketZ_scale (p r : Z) :
  bracketZ (3 * p) (3 * r) = (243 * bracketZ p r)%Z.
Proof. unfold bracketZ. ring. Qed.

(** Descent on the denominator: the form has no zero with [r > 0]. *)
Lemma bracketZ_no_root :
  forall r : Z, (0 <= r)%Z -> forall p : Z, (0 < r)%Z -> bracketZ p r <> 0%Z.
Proof.
  intros r Hr. pattern r. apply Z_lt_induction; [|exact Hr].
  clear r Hr. intros r IH p Hr H.
  destruct (bracketZ_mod3 _ _ H) as (p' & r' & -> & ->).
  rewrite bracketZ_scale in H.
  apply (IH r' ltac:(lia) p' ltac:(lia)). lia.
Qed.

Lemma bracketQ_bracketZ (p : Z) (r : positive) :
  bracketQ (p # r) * (10000000 * inject_Z (Z.pos r) ^ 5)
  == inject_Z (bracketZ p (Z.pos r)).
Proof.
  unfold bracketQ, bracketZ.
  rewrite (Qmake_Qdiv p r).
  unfold Z.sub.
  repeat (rewrite inject_Z_plus || rewrite inject_Z_mult
          || rewrite inject_Z_opp).
  assert (NZ : ~ inject_Z (Z.pos r) == 0)
    by (unfold Qeq; simpl; lia).
  set (P := inject_Z p) in *. set (R := inject_Z (Z.pos r)) in *.
  unfold inject_Z. field. exact NZ.
Qed.

(** The quintic has no rational root. *)
Lemma bracketQ_no_root (l : Q) : ~ bracketQ l == 0.
Proof.
  destruct l as [p r]. intros H.
  pose proof (bracketQ_bracketZ p r) as E.
  rewrite H, Qmult_0_l in E.
  apply (bracketZ_no_root (Z.pos r) ltac:(lia) p ltac:(lia)).
  unfold Qeq in E. simpl in E. lia.
Qed.

Lemma corr_zero_iff (l : Q) : corr l == 0 <-> l == 0.
Proof.
  split.
  - rewrite corr_factor. intros H.
    apply Qmult_integral in H. destruct H as [H | H].
    + simpl in H. apply Qmult_integral in H. tauto.
    + exfalso. exact (bracketQ_no_root l H).
  - intros H. rewrite corr_unfold, H. reflexivity.
Qed.

Lemma spec_correction_value (d kBT Lc Lp : Q) :
  ~ Lc == 0 -> ~ Lp == 0 ->
  spec_correction d kBT Lc Lp =
  Some (kBT / Lp * (  -0.5164228 * (1000 * d / Lc) ^ 2
                    + -2.737418 * (1000 * d / Lc) ^ 3
                    + 16.07497 * (1000 * d / Lc) ^ 4
                    + -38.87607 * (1000 * d / Lc) ^ 5
                    + 39.49944 * (1000 * d / Lc) ^ 6
                    + -14.17718 * (1000 * d / Lc) ^ 7)).
Proof.
  intros HLc HLp. unfold spec_correction.
  rewrite (fdiv_Some kBT Lp HLp), (fdiv_Some (1000 * d) Lc HLc).
  reflexivity.
Qed.

Lemma bouchiat_split (d kBT Lc Lp : Q) :
  oQeq (bouchiat d kBT Lc Lp)
       (oadd (WLC d kBT Lc Lp) (spec_correction d kBT Lc Lp)).
Proof.
  destruct (Qeq_dec Lp 0) as [ZLp | NLp].
  { unfold bouchiat, WLC, oadd. rewrite (fdiv_None kBT Lp ZLp).
    destruct (fdiv (d * 1000) Lc); exact I. }
  destruct (Qeq_dec Lc 0) as [ZLc | NLc].
  { unfold bouchiat, WLC, oadd. rewrite (fdiv_None (d * 1000) Lc ZLc).
    rewrite (fdiv_Some kBT Lp NLp). exact I. }
  rewrite (spec_correction_value d kBT Lc Lp NLc NLp).
  unfold bouchiat, WLC, oadd.
  rewrite (fdiv_Some kBT Lp NLp), (fdiv_Some (d * 1000) Lc NLc).
  cbn [mbind option_bind].
  destruct (fdiv 0.25 ((1 - d * 1000 / Lc) ^ 2)) as [b|];
    cbn [mbind option_bind oQeq]; [|exact I].
  rewrite corr_unfold.
  assert (E : 1000 * d / Lc == d * 1000 / Lc) by (field; exact NLc).
  rewrite E. ring.
Qed.

Lemma correction_zero_iff (d kBT Lc Lp x : Q) :
  fdiv (1000 * d) Lc = Some x -> ~ Lp == 0 ->
  exists c : Q,
    spec_correction d kBT Lc Lp = Some c /\ (c == 0 <-> kBT == 0 \/ x == 0).
Proof.
  intros Hx NLp. unfold spec_correction.
  rewrite Hx, (fdiv_Some kBT Lp NLp). cbn [mbind option_bind].
  eexists. split; [reflexivity|].
  rewrite <- corr_unfold. split.
  - intros H. apply Qmult_integral in H. destruct H as [H | H].
    + left. unfold Qdiv in H. apply Qmult_integral in H.
      destruct H as [H | H]; [exact H|].
      exfalso. apply NLp.
      rewrite <- (Qinv_involutive Lp), H. reflexivity.
    + right. apply corr_zero_iff. exact H.
  - intros [H | H].
    + rewrite H. unfold Qdiv. ring.
    + apply corr_zero_iff in H. rewrite H. ring.
Qed.

Lemma zero_extension_values (kBT Lc Lp : Q) :
  ~ Lc == 0 -> ~ Lp == 0 ->
  oQeq (WLC 0 kBT Lc Lp) (Some 0) /\ oQeq (bouchiat 0 kBT Lc Lp) (Some 0).
Proof.
  intros NLc NLp. unfold WLC, bouchiat.
  rewrite (fdiv_Some kBT Lp NLp), (fdiv_Some (0 * 1000) Lc NLc).
  cbn [mbind option_bind].
  assert (E : 0 * 1000 / Lc == 0) by (field; exact NLc).
  assert (E1 : (1 - 0 * 1000 / Lc) ^ 2 == 1) by (rewrite E; reflexivity).
  pose proof (fdiv_compat 0.25 0.25 _ 1 (Qeq_refl _) E1) as Hb.
  rewrite (fdiv_Some 0.25 1) in Hb by discriminate.
  destruct (fdiv 0.25 ((1 - 0 * 1000 / Lc) ^ 2)) as [b|];
    cbn [mbind option_bind oQeq] in Hb |- *; [|contradiction].
  rewrite corr_unfold, Hb, E. split; field; exact NLp.
Qed.

End bouchiat_props.

(* ===================================================================== *)
(** * Properties of binary64 rounding *)
(* ===================================================================== *)

Module binary64_props.
Import binary64.

(** ** Powers of two *)

Lemma p2_pos (e : Z) : 0 < 2 ^ e.
Proof. apply Qpower_0_lt. reflexivity. Qed.

Lemma p2_add (a b : Z) : 2 ^ (a + b) == 2 ^ a * 2 ^ b.
Proof. apply Qpower_plus. discriminate. Qed.

Lemma p2_le (a b : Z) : (a <= b)%Z -> 2 ^ a <= 2 ^ b.
Proof. intros H. apply Qpower_le_compat_l; [exact H | discriminate]. Qed.

Lemma p2_Z (n : Z) : (0 <= n)%Z -> inject_Z (2 ^ n) == 2 ^ n.
Proof. intros H. apply (Zpower_Qpower 2 n H). Qed.

(** ** Rounding to an integer *)

Lemma rne_floor (x : Q) : (Qfloor x <= rne x <= Qfloor x + 1)%Z.
Proof.
  unfold rne. destruct (Qcompare (x - inject_Z (Qfloor x)) (1 # 2));
    [destruct (Z.even (Qfloor x))| |]; lia.
Qed.

Lemma rne_mono (x y : Q) : x <= y -> (rne x <= rne y)%Z.
Proof.
  intros H. pose proof (Qfloor_resp_le x y H) as Hf.
  pose proof (rne_floor x) as Hx. pose proof (rne_floor y) as Hy.
  destruct (Z.eq_dec (Qfloor x) (Qfloor y)) as [E | N]; [|lia].
  unfold rne in *. rewrite <- E in *.
  destruct (Qcompare_spec (x - inject_Z (Qfloor x)) (1 # 2)) as [Ex | Lx | Gx];
    destruct (Qcompare_spec (y - inject_Z (Qfloor x)) (1 # 2)) as [Ey | Ly | Gy];
    try lia; try (destruct (Z.even (Qfloor x)); lia); exfalso; lra.
Qed.

Lemma rne_Z (n : Z) : rne (inject_Z n) = n.
Proof.
  unfold rne. rewrite Qfloor_Z.
  destruct (Qcompare_spec (inject_Z n - inject_Z n) (1 # 2)) as [E | L | G].
  - exfalso. lra.
  - reflexivity.
  - exfalso. lra.
Qed.

Lemma rne_ge (x : Q) (n : Z) : inject_Z n <= x -> (n <= rne x)%Z.
Proof. intros H. rewrite <- (rne_Z n). apply rne_mono. exact H. Qed.

Lemma rne_le (x : Q) (n : Z) : x <= inject_Z n -> (rne x <= n)%Z.
Proof. intros H. rewrite <- (rne_Z n). apply rne_mono. exact H. Qed.

(** ** The binary logarithm *)

Lemma ilog2_spec (x : Q) :
  0 < x -> 2 ^ ilog2 x <= x /\ x < 2 ^ (ilog2 x + 1).
Proof.
  intros Hx. destruct x as [n d]. unfold ilog2. cbn [Qnum Qden].
  assert (Hn : (0 < n)%Z) by (unfold Qlt in Hx; cbn in Hx; lia).
  pose proof (Z.log2_spec n Hn) as [Ha1 Ha2].
  pose proof (Z.log2_spec (Z.pos d) ltac:(lia)) as [Hb1 Hb2].
  pose proof (Z.log2_nonneg n) as Ha0.
  pose proof (Z.log2_nonneg (Z.pos d)) as Hb0.
  set (a := Z.log2 n) in *. set (b := Z.log2 (Z.pos d)) in *.
  assert (Qa1 : 2 ^ a <= inject_Z n)
    by (rewrite <- p2_Z by lia; rewrite <- Zle_Qle; exact Ha1).
  assert (Qa2 : inject_Z n < 2 ^ (a + 1))
    by (rewrite <- p2_Z by lia; rewrite <- Zlt_Qlt; exact Ha2).
  assert (Qb1 : 2 ^ b <= inject_Z (Z.pos d))
    by (rewrite <- p2_Z by lia; rewrite <- Zle_Qle; exact Hb1).
  assert (Qb2 : inject_Z (Z.pos d) < 2 ^ (b + 1))
    by (rewrite <- p2_Z by lia; rewrite <- Zlt_Qlt; exact Hb2).
  assert (Hd : 0 < inject_Z (Z.pos d)) by reflexivity.
  assert (Ex : (n # d) * inject_Z (Z.pos d) == inject_Z n).
  { rewrite (Qmake_Qdiv n d). field. intros H. rewrite H in Hd.
    exact (Qlt_irrefl 0 Hd). }
  pose proof (p2_pos b) as Pb. pose proof (p2_pos (a - b)) as Pk.
  pose proof (p2_pos (a - b - 1)) as Pk1.
  assert (Eup : 2 ^ (a - b + 1) * 2 ^ b == 2 ^ (a + 1))
    by (rewrite <- p2_add; replace (a - b + 1 + b)%Z with (a + 1)%Z by lia;
        reflexivity).
  assert (Elo : 2 ^ (a - b - 1) * 2 ^ (b + 1) == 2 ^ a)
    by (rewrite <- p2_add; replace (a - b - 1 + (b + 1))%Z with a by lia;
        reflexivity).
  assert (Hup : (n # d) < 2 ^ (a - b + 1)).
  { apply Qnot_le_lt. intros Hc.
    assert (2 ^ (a - b + 1) * 2 ^ b <= (n # d) * inject_Z (Z.pos d)).
    { apply Qle_trans with ((n # d) * 2 ^ b).
      - apply Qmult_le_compat_r; [exact Hc | apply Qlt_le_weak; exact Pb].
      - rewrite !(Qmult_comm (n # d)).
        apply Qmult_le_compat_r; [exact Qb1 | apply Qlt_le_weak; exact Hx]. }
    rewrite Eup, Ex in H. lra. }
  assert (Hlo : 2 ^ (a - b - 1) < (n # d)).
  { apply Qnot_le_lt. intros Hc.
    assert ((n # d) * inject_Z (Z.pos d) < 2 ^ (a - b - 1) * 2 ^ (b + 1)).
    { apply Qle_lt_trans with (2 ^ (a - b - 1) * inject_Z (Z.pos d)).
      - apply Qmult_le_compat_r; [exact Hc | apply Qlt_le_weak; exact Hd].
      - rewrite !(Qmult_comm (2 ^ (a - b - 1))).
        apply Qmult_lt_compat_r; [exact Pk1 | exact Qb2]. }
    rewrite Elo, Ex in H. lra. }
  destruct (Qle_bool (2 ^ (a - b)) (n # d)) eqn:E.
  - apply Qle_bool_iff in E. split; [exact E | exact Hup].
  - split; [apply Qlt_le_weak; exact Hlo|].
    replace (a - b - 1 + 1)%Z with (a - b)%Z by lia.
    apply Qnot_le_lt. intros Hc. apply Qle_bool_iff in Hc.
    rewrite Hc in E. discriminate E.
Qed.

Lemma ilog2_mono (x y : Q) : 0 < x -> x <= y -> (ilog2 x <= ilog2 y)%Z.
Proof.
  intros Hx Hxy.
  destruct (ilog2_spec x Hx) as [Lx _].
  destruct (ilog2_spec y ltac:(lra)) as [_ Uy].
  assert (H : 2 ^ ilog2 x < 2 ^ (ilog2 y + 1)) by lra.
  apply Qpower_lt_compat_l_inv in H; [lia | reflexivity].
Qed.

Lemma rne_compat (x y : Q) : x == y -> rne x = rne y.
Proof.
  intros H. apply Z.le_antisymm; apply rne_mono; lra.
Qed.

Lemma ilog2_lt (x : Q) (k : Z) : 0 < x -> x < 2 ^ k -> (ilog2 x < k)%Z.
Proof.
  intros Hx H. destruct (ilog2_spec x Hx) as [L _].
  assert (H' : 2 ^ ilog2 x < 2 ^ k) by lra.
  apply Qpower_lt_compat_l_inv in H'; [exact H' | reflexivity].
Qed.

Lemma ilog2_ge (x : Q) (k : Z) : 0 < x -> 2 ^ k <= x -> (k <= ilog2 x)%Z.
Proof.
  intros Hx H. destruct (ilog2_spec x Hx) as [_ U].
  assert (H' : 2 ^ k < 2 ^ (ilog2 x + 1)) by lra.
  apply Qpower_lt_compat_l_inv in H'; [lia | reflexivity].
Qed.

(** ** Rounding a positive number *)

Lemma rnd_pos_nonneg (x : Q) : 0 < x -> 0 <= rnd_pos x.
Proof.
  intros Hx. unfold rnd_pos. pose proof (p2_pos (expo x)) as P.
  apply Qmult_le_0_compat; [|lra].
  change 0 with (inject_Z 0). rewrite <- Zle_Qle. apply rne_ge.
  change (inject_Z 0) with 0. apply Qlt_le_weak.
  apply Qlt_shift_div_l; [exact P | lra].
Qed.

Lemma rnd_pos_mono (x y : Q) : 0 < x -> x <= y -> rnd_pos x <= rnd_pos y.
Proof.
  intros Hx Hxy. assert (Hy : 0 < y) by lra.
  pose proof (ilog2_mono x y Hx Hxy) as Hl.
  destruct (ilog2_spec x Hx) as [Lx Ux], (ilog2_spec y Hy) as [Ly Uy].
  unfold rnd_pos, expo in *.
  set (ex := Z.max (ilog2 x - 52) (-1074)).
  set (ey := Z.max (ilog2 y - 52) (-1074)).
  pose proof (p2_pos ex) as Px. pose proof (p2_pos ey) as Py.
  destruct (Z.eq_dec ex ey) as [E | N].
  - rewrite <- E. apply Qmult_le_compat_r; [|lra].
    rewrite <- Zle_Qle. apply rne_mono.
    apply Qmult_le_compat_r; [exact Hxy|].
    apply Qlt_le_weak, Qinv_lt_0_compat. exact Px.
  - assert (Hlt : (ex + 1 <= ey)%Z) by lia.
    assert (Hey : ey = (ilog2 y - 52)%Z) by lia.
    assert (Hmx : inject_Z (rne (x / 2 ^ ex)) <= 2 ^ 53).
    { rewrite <- (p2_Z 53) by lia. rewrite <- Zle_Qle. apply rne_le.
      rewrite (p2_Z 53) by lia. apply Qle_shift_div_r; [exact Px|].
      rewrite <- p2_add. apply Qlt_le_weak.
      apply Qlt_le_trans with (2 ^ (ilog2 x + 1)); [exact Ux|].
      apply p2_le. lia. }
    assert (Hmy : 2 ^ 52 <= inject_Z (rne (y / 2 ^ ey))).
    { rewrite <- (p2_Z 52) by lia. rewrite <- Zle_Qle. apply rne_ge.
      rewrite (p2_Z 52) by lia. apply Qle_shift_div_l; [exact Py|].
      rewrite <- p2_add. replace (52 + ey)%Z with (ilog2 y) by lia.
      exact Ly. }
    apply Qle_trans with (2 ^ 53 * 2 ^ ex).
    { apply Qmult_le_compat_r; [exact Hmx | lra]. }
    apply Qle_trans with (2 ^ 52 * 2 ^ ey).
    { rewrite <- !p2_add. apply p2_le. lia. }
    apply Qmult_le_compat_r; [exact Hmy | lra].
Qed.

(** The significand of a rounded number has at most 53 bits, and 53
    above the smallest spacing. *)
Lemma significand_bounds (x : Q) :
  0 < x ->
  (0 <= rne (x / 2 ^ expo x) <= 2 ^ 53)%Z /\
  ((-1074 < expo x)%Z -> (2 ^ 52 <= rne (x / 2 ^ expo x))%Z).
Proof.
  intros Hx. destruct (ilog2_spec x Hx) as [L U].
  pose proof (p2_pos (expo x)) as P. unfold expo in *.
  set (e := Z.max (ilog2 x - 52) (-1074)) in *.
  split; [split|].
  - apply rne_ge. change (inject_Z 0) with 0.
    apply Qle_shift_div_l; [exact P | lra].
  - apply rne_le. rewrite (p2_Z 53) by lia.
    apply Qle_shift_div_r; [exact P|]. rewrite <- p2_add.
    apply Qlt_le_weak. apply Qlt_le_trans with (2 ^ (ilog2 x + 1)); [exact U|].
    apply p2_le. lia.
  - intros He. apply rne_ge. rewrite (p2_Z 52) by lia.
    apply Qle_shift_div_l; [exact P|]. rewrite <- p2_add.
    replace (52 + e)%Z with (ilog2 x) by lia. exact L.
Qed.

(** A rounded number rounds to itself. *)
Lemma rnd_pos_idem (x : Q) :
  0 < x -> 0 < rnd_pos x -> rnd_pos (rnd_pos x) == rnd_pos x.
Proof.
  intros Hx Hr. destruct (significand_bounds x Hx) as [[M0 M53] M52].
  unfold rnd_pos in Hr |- *.
  set (e := expo x) in *. set (m := rne (x / 2 ^ e)) in *.
  set (r := inject_Z m * 2 ^ e) in *.
  pose proof (p2_pos e) as Pe.
  assert (He : (-1074 <= e)%Z) by (unfold e, expo; lia).
  assert (Hm : (1 <= m)%Z).
  { destruct (Z_lt_le_dec m 1) as [H | H]; [|exact H].
    assert (m = 0%Z) by lia. exfalso. unfold r in Hr.
    rewrite H0 in Hr. change (inject_Z 0) with 0 in Hr. lra. }
  assert (Qm53 : inject_Z m <= 2 ^ 53)
    by (rewrite <- (p2_Z 53) by lia; rewrite <- Zle_Qle; exact M53).
  assert (Hup : r <= 2 ^ (53 + e)).
  { rewrite p2_add. unfold r. apply Qmult_le_compat_r; [exact Qm53 | lra]. }
  assert (Hlo : (-1074 < e)%Z -> 2 ^ (52 + e) <= r).
  { intros H. specialize (M52 H). rewrite p2_add. unfold r.
    apply Qmult_le_compat_r; [|lra].
    rewrite <- (p2_Z 52) by lia. rewrite <- Zle_Qle. exact M52. }
  set (e' := expo r).
  assert (Hcase : e' = e \/ (e' = (e + 1)%Z /\ m = (2 ^ 53)%Z)).
  { unfold e', expo.
    destruct (Z_lt_le_dec (ilog2 r) (53 + e)) as [Hl | Hl].
    - left. destruct (Z.eq_dec e (-1074)%Z) as [E | N].
      + lia.
      + pose proof (ilog2_ge r (52 + e) Hr (Hlo ltac:(lia))). lia.
    - right.
      assert (H54 : (ilog2 r < 54 + e)%Z).
      { apply ilog2_lt; [exact Hr|].
        apply Qle_lt_trans with (2 ^ (53 + e)); [exact Hup|].
        apply Qpower_lt_compat_l; [lia | reflexivity]. }
      split; [lia|].
      destruct (ilog2_spec r Hr) as [L _].
      assert (Hr53 : 2 ^ (53 + e) <= r).
      { apply Qle_trans with (2 ^ ilog2 r); [apply p2_le; lia | exact L]. }
      rewrite p2_add in Hr53. unfold r in Hr53.
      apply Qmult_le_r in Hr53; [|exact Pe].
      rewrite <- (p2_Z 53) in Hr53 by lia. rewrite <- Zle_Qle in Hr53. lia. }
  pose proof (p2_pos e') as Pe'.
  destruct Hcase as [E | [E Em]].
  - rewrite E.
    assert (Hq : r / 2 ^ e == inject_Z m) by (unfold r; field; lra).
    rewrite (rne_compat _ _ Hq), rne_Z. reflexivity.
  - rewrite E.
    assert (Hq : r / 2 ^ (e + 1) == inject_Z (2 ^ 52)).
    { unfold r. rewrite Em, (p2_Z 53), (p2_Z 52) by lia.
      rewrite p2_add. change (2 ^ 53) with (2 ^ 52 * 2 ^ 1).
      field. pose proof (p2_pos 1). lra. }
    rewrite (rne_compat _ _ Hq), rne_Z. unfold r.
    rewrite Em, (p2_Z 53), (p2_Z 52) by lia.
    rewrite p2_add. change (2 ^ 53) with (2 ^ 52 * 2 ^ 1). ring.
Qed.

(** ** Rounding *)

Lemma rnd_zero (x : Q) : x == 0 -> rnd x = 0.
Proof.
  intros H. unfold rnd. destruct (Qcompare_spec x 0); [reflexivity | |];
    exfalso; lra.
Qed.

Lemma rnd_nonneg (x : Q) : 0 <= x -> 0 <= rnd x.
Proof.
  intros H. unfold rnd. destruct (Qcompare_spec x 0) as [E | L | G].
  - lra.
  - lra.
  - apply rnd_pos_nonneg. exact G.
Qed.

Lemma rnd_opp (x : Q) : rnd (- x) == - rnd x.
Proof.
  unfold rnd.
  destruct (Qcompare_spec x 0) as [E | L | G];
    destruct (Qcompare_spec (- x) 0) as [E' | L' | G'];
    try (exfalso; lra); try reflexivity.
  - lra.
  - assert (Hle : rnd_pos (- - x) <= rnd_pos x /\ rnd_pos x <= rnd_pos (- - x))
      by (split; apply rnd_pos_mono; lra).
    lra.
Qed.

Lemma rnd_mono (x y : Q) : x <= y -> rnd x <= rnd y.
Proof.
  intros H. unfold rnd.
  destruct (Qcompare_spec x 0) as [Ex | Lx | Gx];
    destruct (Qcompare_spec y 0) as [Ey | Ly | Gy];
    try (exfalso; lra).
  - lra.
  - apply rnd_pos_nonneg. exact Gy.
  - pose proof (rnd_pos_nonneg (- x) ltac:(lra)). lra.
  - pose proof (rnd_pos_mono (- y) (- x) ltac:(lra) ltac:(lra)). lra.
  - pose proof (rnd_pos_nonneg (- x) ltac:(lra)).
    pose proof (rnd_pos_nonneg y Gy). lra.
  - apply rnd_pos_mono; assumption.
Qed.

Lemma rnd_compat (x y : Q) : x == y -> rnd x == rnd y.
Proof.
  intros H. apply Qle_antisym; apply rnd_mono; lra.
Qed.

Lemma rnd_of_pos (x : Q) : 0 < x -> rnd x = rnd_pos x.
Proof.
  intros H. unfold rnd. destruct (Qcompare_spec x 0); [| |reflexivity];
    exfalso; lra.
Qed.

Lemma rnd_idem (x : Q) : rnd (rnd x) == rnd x.
Proof.
  assert (Hpos : forall y : Q, 0 < y -> rnd (rnd y) == rnd y).
  { intros y Hy. rewrite (rnd_of_pos y Hy).
    pose proof (rnd_pos_nonneg y Hy) as H0.
    destruct (Qlt_le_dec 0 (rnd_pos y)) as [G | L].
    - rewrite (rnd_of_pos _ G). apply rnd_pos_idem; assumption.
    - rewrite (rnd_zero (rnd_pos y)) by lra. lra. }
  destruct (Qcompare_spec x 0) as [E | L | G].
  - rewrite (rnd_zero x E). rewrite rnd_zero; reflexivity.
  - assert (E1 : rnd x == - rnd (- x))
      by (rewrite <- rnd_opp; apply rnd_compat; ring).
    assert (E2 : rnd (rnd x) == - rnd (rnd (- x)))
      by (rewrite <- rnd_opp; apply rnd_compat; exact E1).
    rewrite E2, E1, Hpos by lra. reflexivity.
  - apply Hpos. exact G.
Qed.

(** ** Binary64 numbers *)

Lemma b64_Some (x r : Q) :
  b64 x = Some r -> r == rnd x /\ Qabs r < huge /\ r = Qred r.
Proof.
  unfold b64. destruct (Qle_bool huge (Qabs (Qred (rnd x)))) eqn:E;
    [discriminate|].
  intros H. injection H as <-. split; [apply Qred_correct|]. split.
  - apply Qnot_le_lt. intros Hc. apply Qle_bool_iff in Hc.
    rewrite Hc in E. discriminate E.
  - symmetry. apply Qred_complete. apply Qred_correct.
Qed.

Lemma b64_intro (x : Q) :
  Qabs (rnd x) < huge -> exists r : Q, b64 x = Some r /\ r == rnd x.
Proof.
  intros H. unfold b64.
  destruct (Qle_bool huge (Qabs (Qred (rnd x)))) eqn:E.
  - apply Qle_bool_iff in E. rewrite Qred_correct in E. lra.
  - eexists. split; [reflexivity | apply Qred_correct].
Qed.

Lemma b64_compat (x y : Q) : x == y -> b64 x = b64 y.
Proof.
  intros H. unfold b64.
  rewrite (Qred_complete _ _ (rnd_compat x y H)). reflexivity.
Qed.

Lemma b64_zero (x : Q) : x == 0 -> b64 x = Some 0.
Proof. intros H. unfold b64. rewrite (rnd_zero x H). reflexivity. Qed.

(** Rounding keeps the order, and a number between two that round to
    binary64 numbers rounds to one. *)
Lemma b64_mono (x y u v : Q) :
  x <= y -> b64 x = Some u -> b64 y = Some v -> u <= v.
Proof.
  intros H Hx Hy. apply b64_Some in Hx, Hy.
  destruct Hx as (Eu & _), Hy as (Ev & _).
  rewrite Eu, Ev. apply rnd_mono. exact H.
Qed.

Lemma b64_between (lo x hi l h : Q) :
  lo <= x -> x <= hi -> b64 lo = Some l -> b64 hi = Some h ->
  exists r : Q, b64 x = Some r /\ l <= r /\ r <= h.
Proof.
  intros H1 H2 Hl Hh. apply b64_Some in Hl, Hh.
  destruct Hl as (El & Al & _), Hh as (Eh & Ah & _).
  pose proof (rnd_mono lo x H1) as M1. pose proof (rnd_mono x hi H2) as M2.
  destruct (b64_intro x) as (r & Hr & Er).
  - apply Qabs_Qlt_condition. apply Qabs_Qlt_condition in Al, Ah.
    rewrite El in Al. rewrite Eh in Ah. lra.
  - exists r. split; [exact Hr|]. rewrite Er, El, Eh. auto.
Qed.

(** A binary64 number rounds to itself. *)
Lemma b64_idem (x r : Q) : b64 x = Some r -> b64 r = Some r.
Proof.
  intros H. apply b64_Some in H. destruct H as (Er & Ar & Cr).
  assert (E : rnd r == r).
  { rewrite (rnd_compat r (rnd x) Er), rnd_idem. symmetry. exact Er. }
  unfold b64. rewrite (Qred_complete _ _ E), <- Cr.
  destruct (Qle_bool huge (Qabs r)) eqn:B; [|reflexivity].
  apply Qle_bool_iff in B. lra.
Qed.

End binary64_props.

(* ===================================================================== *)
(** * The model library in binary64 *)
(* ===================================================================== *)

Module WLC64_props.
Import binary64 binary64_props models64.

(** ** Single operations *)

Lemma fdiv_inv (a b r : Q) :
  fdiv a b = Some r -> ~ b == 0 /\ b64 (a / b) = Some r.
Proof.
  unfold fdiv. destruct (Qeq_bool b 0) eqn:E; [discriminate|].
  intros H. split; [|exact H]. intros Hb. apply Qeq_bool_iff in Hb.
  rewrite Hb in E. discriminate E.
Qed.

Lemma fdiv_nonzero (a b : Q) : ~ b == 0 -> fdiv a b = b64 (a / b).
Proof.
  intros H. unfold fdiv. destruct (Qeq_bool b 0) eqn:E; [|reflexivity].
  apply Qeq_bool_iff in E. contradiction.
Qed.

Lemma b64_nonneg (x r : Q) : 0 <= x -> b64 x = Some r -> 0 <= r.
Proof.
  intros H Hr. apply b64_Some in Hr. destruct Hr as (Er & _).
  rewrite Er. apply rnd_nonneg. exact H.
Qed.

Lemma b64_nonpos (x r : Q) : x <= 0 -> b64 x = Some r -> r <= 0.
Proof.
  intros H Hr. apply (b64_mono x 0 r 0 H Hr). reflexivity.
Qed.

Lemma b64_le_b64 (x y r : Q) : x <= y -> rnd y == y -> b64 x = Some r -> r <= y.
Proof.
  intros H Hy Hr. apply b64_Some in Hr. destruct Hr as (Er & _).
  rewrite Er, <- Hy. apply rnd_mono. exact H.
Qed.

Lemma rnd_1 : rnd 1 == 1.
Proof. vm_compute. reflexivity. Qed.

Lemma b64_1 : b64 1 = Some 1.
Proof. vm_compute. reflexivity. Qed.

Lemma b64_quarter : b64 0.25 = Some (1 # 4).
Proof. vm_compute. reflexivity. Qed.

Lemma quarter_div_le (s1 s2 : Q) :
  0 < s2 -> s2 <= s1 -> 0.25 / s1 <= 0.25 / s2.
Proof.
  intros P H. apply Qle_shift_div_l; [exact P|].
  assert (E : 0.25 / s1 * s2 == 0.25 * s2 / s1) by (field; lra).
  rewrite E. apply Qle_shift_div_r; lra.
Qed.

(** ** The chain of operations of [WLC] *)

Lemma WLC_bracket (d kBT Lc Lp : Q) :
  WLC d kBT Lc Lp
  = (d' ← fmul d 1000; a ← fdiv kBT Lp; x ← fdiv d' Lc; v ← bracket x;
     fmul a v).
Proof.
  unfold WLC, bracket.
  destruct (fmul d 1000) as [d'|]; [|reflexivity]. cbn [mbind option_bind].
  destruct (fdiv kBT Lp) as [a|]; [|reflexivity]. cbn [mbind option_bind].
  destruct (fdiv d' Lc) as [x|]; [|reflexivity]. cbn [mbind option_bind].
  destruct (fsub 1 x) as [t|]; [|reflexivity]. cbn [mbind option_bind].
  destruct (fpow t 2) as [s|]; [|reflexivity]. cbn [mbind option_bind].
  destruct (fdiv 0.25 s) as [b|]; [|reflexivity]. cbn [mbind option_bind].
  destruct (fsub b 0.25) as [u|]; [|reflexivity]. cbn [mbind option_bind].
  destruct (fadd u x) as [v|]; reflexivity.
Qed.

(** The bracket keeps the order below the pole. *)
Lemma bracket_mono (x1 x2 v1 v2 : Q) :
  x1 <= x2 -> x2 <= 1 ->
  bracket x1 = Some v1 -> bracket x2 = Some v2 -> v1 <= v2.
Proof.
  intros H12 H2. unfold bracket, fpow, fsub, fadd, fmul.
  destruct (b64 (1 - x1)) as [t1|] eqn:T1; [|discriminate].
  destruct (b64 (1 - x2)) as [t2|] eqn:T2; [|discriminate].
  cbn [mbind option_bind].
  destruct (b64 (t1 * t1)) as [s1|] eqn:S1; [|discriminate].
  destruct (b64 (t2 * t2)) as [s2|] eqn:S2; [|discriminate].
  cbn [mbind option_bind].
  destruct (fdiv 0.25 s1) as [b1|] eqn:B1; [|discriminate].
  destruct (fdiv 0.25 s2) as [b2|] eqn:B2; [|discriminate].
  cbn [mbind option_bind].
  destruct (b64 (b1 - 0.25)) as [u1|] eqn:U1; [|discriminate].
  destruct (b64 (b2 - 0.25)) as [u2|] eqn:U2; [|discriminate].
  cbn [mbind option_bind]. intros V1 V2.
  pose proof (b64_nonneg (1 - x2) t2 ltac:(lra) T2) as Ht2.
  pose proof (b64_mono (1 - x2) (1 - x1) t2 t1 ltac:(lra) T2 T1) as Ht.
  assert (Hs : s2 <= s1).
  { apply (b64_mono (t2 * t2) (t1 * t1) s2 s1); [nra | exact S2 | exact S1]. }
  pose proof (b64_nonneg (t2 * t2) s2 ltac:(nra) S2) as Hs2.
  apply fdiv_inv in B1, B2. destruct B1 as [N1 B1], B2 as [N2 B2].
  assert (P2 : 0 < s2) by (destruct (Qlt_le_dec 0 s2); [assumption|];
                           exfalso; apply N2; lra).
  assert (Hb : b1 <= b2).
  { apply (b64_mono (0.25 / s1) (0.25 / s2) b1 b2); [|exact B1|exact B2].
    apply quarter_div_le; assumption. }
  pose proof (b64_mono (b1 - 0.25) (b2 - 0.25) u1 u2 ltac:(lra) U1 U2) as Hu.
  apply (b64_mono (u1 + x1) (u2 + x2) v1 v2); [lra | exact V1 | exact V2].
Qed.

(** Between zero extension and the pole the bracket is not negative, and
    it has a value wherever it has one further on. *)
Lemma bracket_below (x1 x2 v2 : Q) :
  0 <= x1 -> x1 <= x2 -> x2 <= 1 ->
  bracket x2 = Some v2 ->
  exists v1 : Q, bracket x1 = Some v1 /\ 0 <= v1 /\ v1 <= v2.
Proof.
  intros H1 H12 H2. unfold bracket, fpow, fsub, fadd, fmul.
  destruct (b64 (1 - x2)) as [t2|] eqn:T2; [|discriminate].
  cbn [mbind option_bind].
  destruct (b64 (t2 * t2)) as [s2|] eqn:S2; [|discriminate].
  cbn [mbind option_bind].
  destruct (fdiv 0.25 s2) as [b2|] eqn:B2; [|discriminate].
  cbn [mbind option_bind].
  destruct (b64 (b2 - 0.25)) as [u2|] eqn:U2; [|discriminate].
  cbn [mbind option_bind]. intros V2.
  pose proof (b64_nonneg (1 - x2) t2 ltac:(lra) T2) as Ht2.
  destruct (b64_between (1 - x2) (1 - x1) 1 t2 1 ltac:(lra) ltac:(lra)
                        T2 b64_1) as (t1 & T1 & Ht21 & Ht1).
  rewrite T1. cbn [mbind option_bind].
  pose proof (b64_nonneg (t2 * t2) s2 ltac:(nra) S2) as Hs2.
  destruct (b64_between (t2 * t2) (t1 * t1) 1 s2 1 ltac:(nra) ltac:(nra)
                        S2 b64_1) as (s1 & S1 & Hs21 & Hs1).
  rewrite S1. cbn [mbind option_bind].
  apply fdiv_inv in B2. destruct B2 as [N2 B2].
  assert (P2 : 0 < s2) by (destruct (Qlt_le_dec 0 s2); [assumption|];
                           exfalso; apply N2; lra).
  rewrite fdiv_nonzero by lra.
  assert (Hq1 : 0.25 <= 0.25 / s1).
  { apply Qle_shift_div_l; lra. }
  assert (Hq2 : 0.25 / s1 <= 0.25 / s2).
  { apply quarter_div_le; [assumption | lra]. }
  destruct (b64_between 0.25 (0.25 / s1) (0.25 / s2) (1 # 4) b2 Hq1 Hq2
                        b64_quarter B2) as (b1 & B1 & Hb1 & Hb12).
  rewrite B1. cbn [mbind option_bind].
  destruct (b64_between 0 (b1 - 0.25) (b2 - 0.25) 0 u2 ltac:(lra) ltac:(lra)
                        (b64_zero 0 ltac:(reflexivity)) U2)
    as (u1 & U1 & Hu1 & Hu12).
  rewrite U1. cbn [mbind option_bind].
  destruct (b64_between 0 (u1 + x1) (u2 + x2) 0 v2 ltac:(lra) ltac:(lra)
                        (b64_zero 0 ltac:(reflexivity)) V2)
    as (v1 & V1 & Hv1 & Hv12).
  exists v1. auto.
Qed.

Lemma bracket_zero : bracket 0 = Some 0.
Proof. vm_compute. reflexivity. Qed.

Lemma div_le_div (a b c : Q) : 0 < c -> a <= b -> a / c <= b / c.
Proof.
  intros Hc H. apply Qle_shift_div_l; [exact Hc|].
  assert (E : a / c * c == a) by (field; lra). rewrite E. exact H.
Qed.

(** C9, as the code has it.  For positive [kBT], [Lc], [Lp], with [Lc] a
    binary64 number, [WLC] is [0] at [d = 0] whenever [kBT/Lp] is finite,
    and it does not decrease with the distance as long as the distance,
    rescaled to nanometers, stays below [Lc]: for [0 <= d1 <= d2] and
    [1000*d2 < Lc], if [WLC(d2)] is finite then so is [WLC(d1)], and
    [0 <= WLC(d1) <= WLC(d2)]. *)
Theorem WLC_nondecreasing_and_zero (kBT Lc Lp : Q) :
  0 < kBT -> 0 < Lc -> 0 < Lp -> rnd Lc == Lc ->
  (forall a : Q, fdiv kBT Lp = Some a -> WLC 0 kBT Lc Lp = Some 0) /\
  forall d1 d2 F2 : Q,
    0 <= d1 -> d1 <= d2 -> d2 * 1000 < Lc ->
    WLC d2 kBT Lc Lp = Some F2 ->
    exists F1 : Q, WLC d1 kBT Lc Lp = Some F1 /\ 0 <= F1 /\ F1 <= F2.
Proof.
  intros HkBT HLc HLp Hrep. split.
  - intros a Ha. rewrite WLC_bracket.
    change (fmul 0 1000) with (b64 (0 * 1000)).
    rewrite (b64_zero (0 * 1000)) by ring. cbn [mbind option_bind].
    rewrite Ha. cbn [mbind option_bind].
    rewrite fdiv_nonzero by lra.
    rewrite (b64_zero (0 / Lc)) by (field; lra). cbn [mbind option_bind].
    rewrite bracket_zero. cbn [mbind option_bind].
    unfold fmul. apply b64_zero. ring.
  - intros d1 d2 F2 H1 H12 H2. rewrite !WLC_bracket.
    change (fmul d1 1000) with (b64 (d1 * 1000)).
    change (fmul d2 1000) with (b64 (d2 * 1000)).
    destruct (b64 (d2 * 1000)) as [d2'|] eqn:D2; [|discriminate].
    cbn [mbind option_bind].
    destruct (fdiv kBT Lp) as [a|] eqn:A; [|discriminate].
    cbn [mbind option_bind].
    destruct (fdiv d2' Lc) as [x2|] eqn:X2; [|discriminate].
    cbn [mbind option_bind].
    destruct (bracket x2) as [v2|] eqn:V2; [|discriminate].
    cbn [mbind option_bind]. unfold fmul. intros HF2.
    destruct (b64_between 0 (d1 * 1000) (d2 * 1000) 0 d2'
                          ltac:(lra) ltac:(lra)
                          (b64_zero 0 ltac:(reflexivity)) D2)
      as (d1' & D1 & Hd1 & Hd12).
    rewrite D1. cbn [mbind option_bind].
    pose proof (b64_le_b64 (d2 * 1000) Lc d2' ltac:(lra) Hrep D2) as Hd2.
    apply fdiv_inv in X2. destruct X2 as [_ X2].
    rewrite fdiv_nonzero by lra.
    assert (Hq2 : d2' / Lc <= 1) by (apply Qle_shift_div_r; lra).
    pose proof (b64_le_b64 (d2' / Lc) 1 x2 Hq2 rnd_1 X2) as Hx2.
    assert (Hq0 : 0 <= d1' / Lc) by (apply Qle_shift_div_l; lra).
    pose proof (div_le_div d1' d2' Lc HLc Hd12) as Hq12.
    destruct (b64_between 0 (d1' / Lc) (d2' / Lc) 0 x2 Hq0 Hq12
                          (b64_zero 0 ltac:(reflexivity)) X2)
      as (x1 & X1 & Hx1 & Hx12).
    rewrite X1. cbn [mbind option_bind].
    destruct (bracket_below x1 x2 v2 Hx1 Hx12 Hx2 V2)
      as (v1 & V1 & Hv1 & Hv12).
    rewrite V1. cbn [mbind option_bind].
    apply fdiv_inv in A. destruct A as [_ A].
    assert (Hq : 0 <= kBT / Lp) by (apply Qle_shift_div_l; lra).
    pose proof (b64_nonneg (kBT / Lp) a Hq A) as Ha.
    destruct (b64_between 0 (a * v1) (a * v2) 0 F2
                          ltac:(nra) ltac:(nra)
                          (b64_zero 0 ltac:(reflexivity)) HF2)
      as (F1 & HF1 & HF10 & HF12).
    exists F1. auto.
Qed.

(** At [kBT = 4], [Lc = 1000], [Lp = 50] the value at [d = 0.5] is the
    binary64 number nearest to [0.1], and the value at [d = 0.25] is
    finite and not above it. *)
Lemma WLC_nondecreasing_and_zero_witness :
  exists F1 : Q,
    WLC 0.25 4 1000 50 = Some F1 /\ 0 <= F1 /\ F1 <= lit 0.1.
Proof.
  destruct (WLC_nondecreasing_and_zero 4 1000 50) as [_ H];
    [reflexivity | reflexivity | reflexivity | vm_compute; reflexivity |].
  apply (H 0.25 0.5 (lit 0.1)).
  - discriminate.
  - discriminate.
  - reflexivity.
  - vm_compute. reflexivity.
Defined.

(** The claim of C9 fails in binary64.  The distances [0.25] and
    [0.25 + 2^-54] are adjacent binary64 numbers below the pole, and [WLC]
    has the same value at both: it does not increase strictly.  And with
    [kBT = 2^1000] and [Lp = 2^-1000] the quotient [kBT/Lp] overflows, so
    [WLC(0)] is not [0]. *)
Lemma WLC_strictly_increasing_counterexample :
  0 <= 0.25 /\ 0.25 < 0.25 + 2 ^ (-54) /\ (0.25 + 2 ^ (-54)) * 1000 < 1000 /\
  b64 (0.25 + 2 ^ (-54)) = Some (Qred (0.25 + 2 ^ (-54))) /\
  (exists F : Q,
      WLC 0.25 4 1000 50 = Some F /\
      WLC (0.25 + 2 ^ (-54)) 4 1000 50 = Some F) /\
  WLC 0 (2 ^ 1000) 1000 (2 ^ (-1000)) = None.
Proof.
  split_and!; try (vm_compute; reflexivity); try discriminate.
  eexists. split; vm_compute; reflexivity.
Qed.

End WLC64_props.

Module bouchiat64_props.
Import binary64 binary64_props models64 WLC64_props.

Lemma bouchiat_bracket (d kBT Lc Lp : Q) :
  bouchiat d kBT Lc Lp
  = (d' ← fmul d 1000; x ← fdiv d' Lc; c ← corr x; a ← fdiv kBT Lp;
     v ← bracket x; w ← fadd v c; fmul a w).
Proof.
  unfold bouchiat, bracket.
  destruct (fmul d 1000) as [d'|]; [|reflexivity]. cbn [mbind option_bind].
  destruct (fdiv d' Lc) as [x|]; [|reflexivity]. cbn [mbind option_bind].
  destruct (corr x) as [c|]; [|reflexivity]. cbn [mbind option_bind].
  destruct (fdiv kBT Lp) as [a|]; [|reflexivity]. cbn [mbind option_bind].
  destruct (fsub 1 x) as [t|]; [|reflexivity]. cbn [mbind option_bind].
  destruct (fpow t 2) as [s|]; [|reflexivity]. cbn [mbind option_bind].
  destruct (fdiv 0.25 s) as [b|]; [|reflexivity]. cbn [mbind option_bind].
  destruct (fsub b 0.25) as [u|]; [|reflexivity]. cbn [mbind option_bind].
  destruct (fadd u x) as [v|]; reflexivity.
Qed.

(** The bracket is a binary64 number. *)
Lemma bracket_b64 (x v : Q) : bracket x = Some v -> b64 v = Some v.
Proof.
  unfold bracket.
  destruct (fsub 1 x) as [t|]; [|discriminate]. cbn [mbind option_bind].
  destruct (fpow t 2) as [s|]; [|discriminate]. cbn [mbind option_bind].
  destruct (fdiv 0.25 s) as [b|]; [|discriminate]. cbn [mbind option_bind].
  destruct (fsub b 0.25) as [u|]; [|discriminate]. cbn [mbind option_bind].
  unfold fadd. apply b64_idem.
Qed.

Lemma corr_zero : corr 0 = Some 0.
Proof. vm_compute. reflexivity. Qed.

(** Where the rounded correction sum is zero, [bouchiat] is [WLC]. *)
Lemma bouchiat_without_correction (d kBT Lc Lp d' x c : Q) :
  fmul d 1000 = Some d' -> fdiv d' Lc = Some x -> corr x = Some c ->
  c == 0 ->
  bouchiat d kBT Lc Lp = WLC d kBT Lc Lp.
Proof.
  intros Hd Hx Hc Hz. rewrite bouchiat_bracket, WLC_bracket.
  rewrite Hd. cbn [mbind option_bind]. rewrite Hx. cbn [mbind option_bind].
  rewrite Hc. cbn [mbind option_bind].
  destruct (fdiv kBT Lp) as [a|]; [|reflexivity]. cbn [mbind option_bind].
  destruct (bracket x) as [v|] eqn:Hv; [|reflexivity].
  cbn [mbind option_bind]. unfold fadd.
  assert (E : v + c == v) by (rewrite Hz; ring).
  rewrite (b64_compat _ _ E), (bracket_b64 x v Hv). reflexivity.
Qed.

Lemma zero_extension (kBT Lc Lp a : Q) :
  ~ Lc == 0 -> fdiv kBT Lp = Some a ->
  WLC 0 kBT Lc Lp = Some 0 /\ bouchiat 0 kBT Lc Lp = Some 0.
Proof.
  intros HLc Ha.
  assert (Hd : fmul 0 1000 = Some 0) by (apply b64_zero; ring).
  assert (Hx : fdiv 0 Lc = Some 0).
  { rewrite fdiv_nonzero by exact HLc. apply b64_zero. field. exact HLc. }
  assert (Hw : WLC 0 kBT Lc Lp = Some 0).
  { rewrite WLC_bracket, Hd. cbn [mbind option_bind].
    rewrite Ha. cbn [mbind option_bind]. rewrite Hx.
    cbn [mbind option_bind]. rewrite bracket_zero. cbn [mbind option_bind].
    apply b64_zero. ring. }
  split; [exact Hw|]. rewrite <- Hw.
  apply (bouchiat_without_correction 0 kBT Lc Lp 0 0 0 Hd Hx corr_zero).
  reflexivity.
Qed.

(** C8, as the code has it.  In exact arithmetic [bouchiat] is [WLC] plus
    the correction term
    [(kBT/Lp) * sum_(n=2..7) alpha_(n-1) * (1000*d/Lc)^n], and for
    rational arguments the term is zero exactly when [kBT] or
    [1000*d/Lc] is zero.  In binary64, where the code rounds every
    operation, [bouchiat] adds the rounded correction sum to the bracket
    of [WLC] before the product with [kBT/Lp]: it returns the number
    [WLC] returns wherever that sum is zero, and at [d = 0], with [Lc]
    nonzero and [kBT/Lp] finite, both return [0]. *)
Theorem bouchiat_and_WLC (d kBT Lc Lp : Q) :
  (oQeq (models.bouchiat d kBT Lc Lp)
        (oadd (models.WLC d kBT Lc Lp) (models.spec_correction d kBT Lc Lp)) /\
   forall x : Q,
     Num.fdiv (1000 * d) Lc = Some x -> ~ Lp == 0 ->
     exists c : Q,
       models.spec_correction d kBT Lc Lp = Some c /\
       (c == 0 <-> kBT == 0 \/ x == 0)) /\
  (forall d' x c : Q,
      fmul d 1000 = Some d' -> fdiv d' Lc = Some x -> corr x = Some c ->
      c == 0 ->
      bouchiat d kBT Lc Lp = WLC d kBT Lc Lp) /\
  (forall a : Q,
      ~ Lc == 0 -> fdiv kBT Lp = Some a ->
      WLC 0 kBT Lc Lp = Some 0 /\ bouchiat 0 kBT Lc Lp = Some 0).
Proof.
  split; [split|split].
  - apply bouchiat_props.bouchiat_split.
  - intros x Hx HLp.
    exact (bouchiat_props.correction_zero_iff d kBT Lc Lp x Hx HLp).
  - intros d' x c. apply bouchiat_without_correction.
  - intros a. apply zero_extension.
Qed.

(** At the distance [tiny] the correction sum underflows to zero and the
    two functions return the same number. *)
Lemma bouchiat_and_WLC_witness :
  bouchiat tiny (lit 4.1) 1000 50 = WLC tiny (lit 4.1) 1000 50.
Proof.
  apply (proj1 (proj2 (bouchiat_and_WLC tiny (lit 4.1) 1000 50))
               (lit (tiny * 1000)) (lit (lit (tiny * 1000) / 1000)) 0);
    vm_compute; reflexivity.
Defined.

(** The claim of C8 fails in binary64.  At [d = 0.2], [kBT = 4.1],
    [Lc = 1000], [Lp = 50] the value of [bouchiat] is not the sum of
    [WLC] and the correction term.  At [d = 10^-200] the quotient
    [1000*d/Lc] is not zero and the correction term is zero.  And at
    [kBT = 0] the correction term is zero at [d = 0.5]. *)
Lemma bouchiat_minus_WLC_counterexample :
  (exists Fb Fs : Q,
      bouchiat (lit 0.2) (lit 4.1) 1000 50 = Some Fb /\
      WLC_plus_correction (lit 0.2) (lit 4.1) 1000 50 = Some Fs /\
      ~ Fb == Fs) /\
  (exists x : Q,
      (p ← fmul 1000 tiny; fdiv p 1000) = Some x /\ ~ x == 0 /\
      spec_correction tiny (lit 4.1) 1000 50 = Some 0) /\
  spec_correction 0.5 0 1000 50 = Some 0.
Proof.
  split_and!.
  - eexists. eexists. split; [vm_compute; reflexivity|].
    split; [vm_compute; reflexivity|]. intros H. vm_compute in H.
    discriminate H.
  - eexists. split; [vm_compute; reflexivity|].
    split; [|vm_compute; reflexivity]. intros H. vm_compute in H.
    discriminate H.
  - vm_compute. reflexivity.
Qed.

End bouchiat64_props.

(* ===================================================================== *)
(** * Properties of the fitter *)
(* ===================================================================== *)

Module fitting_props.
Import fitting fit_spec.

(** ** Reading the monad *)

Lemma bind_Done {A B : Type} (m : M A) (k : A -> M B) (w w' : World) (b : B) :
  mbind' m k w = Done b w' ->
  exists (a : A) (w1 : World), m w = Done a w1 /\ k a w1 = Done b w'.
Proof.
  unfold mbind'. destruct (m w) as [a w1 | e w1 |]; try discriminate.
  intros H. exists a, w1. split; [reflexivity | exact H].
Qed.

Lemma ret_Done {A : Type} (a b : A) (w w' : World) :
  ret a w = Done b w' -> b = a /\ w' = w.
Proof. unfold ret. intros H. injection H as <- <-. split; reflexivity. Qed.

Lemma get_fparams_Done (w w' : World) (ps : Parameters) :
  get_fparams w = Done ps w' -> fparams (self w) = Some ps /\ w' = w.
Proof.
  unfold get_fparams. destruct (fparams (self w)); [|discriminate].
  intros H. injection H as <- <-. split; reflexivity.
Qed.

Lemma param_Done (ps : Parameters) (name : string) (p : Param.t) (w w' : World) :
  param ps name w = Done p w' -> ps !! name = Some p /\ w' = w.
Proof.
  unfold param. destruct (ps !! name); [|discriminate].
  intros H. apply ret_Done in H. destruct H as [-> ->]. split; reflexivity.
Qed.

Lemma loc_Lp_Done (d : DataFrame) (k : nat) (v : Q) (w w' : World) :
  loc_Lp d k w = Done v w' ->
  exists r : Row, d !! k = Some r /\ v = row_Lp r /\ w' = w.
Proof.
  unfold loc_Lp. destruct (d !! k) as [r|]; [|discriminate].
  intros H. apply ret_Done in H. destruct H as [-> ->]. exists r. auto.
Qed.

Lemma set_param_Done (name : string) (v : Q) (w w' : World) (u : unit) :
  set_param name v w = Done u w' ->
  exists (ps : Parameters) (p : Param.t),
    fparams (self w) = Some ps /\ ps !! name = Some p /\
    w' = {| self := with_fparams (self w) (<[name := Param.set p v]> ps);
            calls := calls w |}.
Proof.
  unfold set_param. intros H.
  apply bind_Done in H. destruct H as (ps & w1 & H1 & H).
  apply get_fparams_Done in H1. destruct H1 as [Hps ->].
  apply bind_Done in H. destruct H as (p & w2 & H2 & H).
  apply param_Done in H2. destruct H2 as [Hp ->].
  injection H as _ <-. exists ps, p. auto.
Qed.

(** ** One minimizer call *)

Lemma the_call_params data method s ps :
  call_params (the_call data method s ps) = ps.
Proof.
  unfold the_call.
  destruct (String.eqb (model s) "odijk"), (String.eqb (model s) "eWLC");
    reflexivity.
Qed.

Section Step.
Variable minimize : Minimizer.
Variable data : list Q * list Q.
Variable min_delta : Q.
Variable max_iters : nat.
Variable filename : option string.
Variable method : string.

Lemma fit_model_Done (w w' : World) (Lc Lp chi : Q) (Sv : option Q) :
  fit_model minimize data method w = Done (Lc, Lp, Sv, chi) w' ->
  exists (ps : Parameters) (r : ModelResult) (pc pp : Param.t),
    fparams (self w) = Some ps /\
    r = minimize (the_call data method (self w) ps) /\
    params r !! "Lc" = Some pc /\ Lc = Param.value pc /\
    params r !! "Lp" = Some pp /\ Lp = Param.value pp /\
    chi = chisqr r /\ Sv = fitted_S (self w) r /\
    w' = {| self := with_result (self w) r;
            calls := calls w ++ [the_call data method (self w) ps] |}.
Proof.
  unfold fit_model, the_call, fitted_S. destruct data as [d F].
  cbn [fst snd].
  unfold get_model, get_func. cbn [mbind'].
  intros H.
  destruct (String.eqb (model (self w)) "odijk");
    [| destruct (String.eqb (model (self w)) "eWLC")];
    apply bind_Done in H; destruct H as (ps & w1 & H1 & H);
    apply get_fparams_Done in H1; destruct H1 as [Hps ->];
    apply bind_Done in H; destruct H as (r & w2 & H2 & H);
    unfold call_fit in H2; injection H2 as <- <-;
    apply bind_Done in H; destruct H as (pc & w3 & H3 & H);
    apply param_Done in H3; destruct H3 as [Hc ->];
    apply bind_Done in H; destruct H as (pp & w4 & H4 & H);
    apply param_Done in H4; destruct H4 as [Hp ->];
    try (apply bind_Done in H; destruct H as (pS & w5 & H5 & H);
         apply param_Done in H5; destruct H5 as [HS ->]);
    apply ret_Done in H; destruct H as [E ->];
    injection E as -> -> -> ->;
    exists ps; eexists; exists pc, pp;
    (split; [assumption|]); (split; [reflexivity|]);
    cbn [orb]; try rewrite HS;
    repeat split; first [assumption | reflexivity].
Qed.

(** What a completed iteration has done. *)
Lemma fit_body_Done (l l' : Locals) (w w' : World) :
  fit_body minimize data filename method l w = Done l' w' ->
  exists (ps : Parameters) (r : ModelResult) (pc pp bc bp : Param.t),
    fparams (self w) = Some ps /\
    r = minimize (the_call data method (self w) ps) /\
    params r !! "Lc" = Some pc /\ params r !! "Lp" = Some pp /\
    ps !! "Lc" = Some bc /\ ps !! "Lp" = Some bp /\
    ((i l = 0%nat /\ dLp l' = dLp l) \/
     ((0 < i l)%nat /\
      exists prev : Row,
        df l !! (i l - 1)%nat = Some prev /\
        dLp l' = Fin (Qabs (Param.value pp - row_Lp prev)))) /\
    i l' = (i l + 1)%nat /\
    df l' = (if out_of_bounds (Param.value pc) bc
                || out_of_bounds (Param.value pp) bp
             then df l
             else df l ++ [row_of filename (self w) r pc pp (i l) (dLp l')]) /\
    w' = {| self := with_fparams (with_result (self w) r)
                      (<["Lp" := Param.set bp (Param.value pp)]> ps);
            calls := calls w ++ [the_call data method (self w) ps] |}.
Proof.
  unfold fit_body. intros H.
  apply bind_Done in H. destruct H as ([[[Lc Lp] Sv] chi] & w1 & H1 & H).
  apply fit_model_Done in H1.
  destruct H1 as (ps & r & pc & pp & Hps & Hr & Hc & -> & Hp & -> & -> & -> & ->).
  apply bind_Done in H. destruct H as (dLp' & w2 & H2 & H).
  assert (HdLp : w2 = {| self := with_result (self w) r;
                         calls := calls w ++ [the_call data method (self w) ps] |} /\
                 ((i l = 0%nat /\ dLp' = dLp l) \/
                  ((0 < i l)%nat /\
                   exists prev : Row,
                     df l !! (i l - 1)%nat = Some prev /\
                     dLp' = Fin (Qabs (Param.value pp - row_Lp prev))))).
  { destruct (0 <? i l)%nat eqn:Ei.
    - apply Nat.ltb_lt in Ei.
      apply bind_Done in H2. destruct H2 as (pv & w3 & H3 & H2).
      apply loc_Lp_Done in H3. destruct H3 as (prev & Hprev & -> & ->).
      apply ret_Done in H2. destruct H2 as [-> ->].
      split; [reflexivity|]. right. split; [exact Ei|]. exists prev. auto.
    - apply Nat.ltb_ge in Ei.
      apply ret_Done in H2. destruct H2 as [-> ->].
      split; [reflexivity|]. left. split; [lia | reflexivity]. }
  clear H2. destruct HdLp as [-> HdLp].
  apply bind_Done in H. destruct H as (ps' & w3 & H3 & H).
  apply get_fparams_Done in H3. cbn [self with_result fparams] in H3.
  destruct H3 as [Hps' ->]. rewrite Hps in Hps'. injection Hps' as <-.
  apply bind_Done in H. destruct H as (bc & w4 & H4 & H).
  apply param_Done in H4. destruct H4 as [Hbc ->].
  apply bind_Done in H. destruct H as (df' & w5 & H5 & H).
  apply bind_Done in H. destruct H as (u & w6 & H6 & H).
  apply ret_Done in H. destruct H as [-> ->].
  destruct (out_of_bounds (Param.value pc) bc) eqn:Ec.
  - apply ret_Done in H5. destruct H5 as [-> ->].
    apply set_param_Done in H6. cbn [self with_result fparams calls] in H6.
    destruct H6 as (ps6 & bp & Hps6 & Hbp & ->).
    rewrite Hps in Hps6. injection Hps6 as <-.
    exists ps, r, pc, pp, bc, bp. rewrite Ec. cbn [orb i df dLp].
    repeat split; first [assumption | reflexivity].
  - apply bind_Done in H5. destruct H5 as (bp' & w7 & H7 & H5).
    apply param_Done in H7. destruct H7 as [Hbp' ->].
    assert (E5 : w5 = {| self := with_result (self w) r;
                         calls := calls w ++ [the_call data method (self w) ps] |}).
    { destruct (out_of_bounds (Param.value pp) bp');
        apply ret_Done in H5; destruct H5 as [_ ->]; reflexivity. }
    subst w5.
    apply set_param_Done in H6. cbn [self with_result fparams calls] in H6.
    destruct H6 as (ps6 & bp & Hps6 & Hbp & ->).
    rewrite Hps in Hps6. injection Hps6 as <-.
    rewrite Hbp' in Hbp. injection Hbp as <-.
    exists ps, r, pc, pp, bc, bp'. rewrite Ec. cbn [orb i df dLp].
    destruct (out_of_bounds (Param.value pp) bp');
      apply ret_Done in H5; destruct H5 as [-> _];
      repeat split; first [assumption | reflexivity].
Qed.
End Step.
End fitting_props.

Module filter_props.
Import fitting fit_spec fitting_props.

Lemma Ext_leb_false_lt (x y : Ext) : Ext_leb x y = false <-> Ext_lt y x.
Proof.
  destruct x as [|a|], y as [|b|]; unfold Ext_leb, Ext_lt;
    try (split; [discriminate | tauto]);
    try (split; [intros _; exact I | reflexivity]).
  split.
  - intros H. apply Qnot_le_lt. intros Hle.
    apply Qle_bool_iff in Hle. congruence.
  - intros H. destruct (Qle_bool a b) eqn:E; [|reflexivity].
    apply Qle_bool_iff in E. exfalso. apply (Qlt_not_le _ _ H E).
Qed.

Lemma out_of_bounds_false (v : Q) (p : Param.t) :
  out_of_bounds v p = false <-> inside v p.
Proof.
  unfold out_of_bounds, inside.
  rewrite orb_false_iff, !Ext_leb_false_lt. reflexivity.
Qed.

Lemma on_bound_not_inside (v : Q) (p : Param.t) : on_bound v p -> ~ inside v p.
Proof.
  unfold on_bound, inside, Ext_is.
  destruct (Param.min p) as [|a|], (Param.max p) as [|b|];
    unfold Ext_lt; intros [H | H] [H1 H2]; try contradiction;
    rewrite H in *; eapply Qlt_irrefl; eassumption.
Qed.
End filter_props.

Module step_props.
Import fitting fit_spec fitting_props filter_props.

Lemma fitted_after (s : WormLikeChain) (r : ModelResult) (ps : Parameters)
      (cs : list FitCall) (name : string) (p : Param.t) :
  params r !! name = Some p ->
  fitted {| self := with_fparams (with_result s r) ps; calls := cs |} name
  = Some (Param.value p).
Proof. intros H. unfold fitted. cbn. rewrite H. reflexivity. Qed.

(** In an iteration of [fit] that completes, the row of the iteration
    is appended to the accepted rows exactly when the fitted [Lc] and the
    fitted [Lp] lie strictly inside their bounds; otherwise, and so when
    one of them equals a bound, the accepted rows are unchanged.  The
    iteration counter grows by one in both cases. *)
Theorem acceptance_filter
        (minimize : Minimizer) (data : list Q * list Q)
        (filename : option string) (method : string)
        (l l' : Locals) (w w' : World) :
  fit_body minimize data filename method l w = Done l' w' ->
  exists (ps : Parameters) (bc bp : Param.t) (Lc Lp : Q) (row : Row),
    fparams (self w) = Some ps /\
    ps !! "Lc" = Some bc /\ ps !! "Lp" = Some bp /\
    fitted w' "Lc" = Some Lc /\ fitted w' "Lp" = Some Lp /\
    row_Lc row = Lc /\ row_Lp row = Lp /\ row_iter row = (i l + 1)%nat /\
    (df l' = df l ++ [row] <-> inside Lc bc /\ inside Lp bp) /\
    (~ (inside Lc bc /\ inside Lp bp) -> df l' = df l) /\
    (on_bound Lc bc \/ on_bound Lp bp -> df l' = df l) /\
    i l' = S (i l).
Proof.
  intros H. apply fit_body_Done in H.
  destruct H as (ps & r & pc & pp & bc & bp & Hps & Hr & Hc & Hp & Hbc & Hbp
                 & _ & Hi & Hdf & ->).
  exists ps, bc, bp, (Param.value pc), (Param.value pp),
         (row_of filename (self w) r pc pp (i l) (dLp l')).
  rewrite (fitted_after _ _ _ _ _ _ Hc), (fitted_after _ _ _ _ _ _ Hp).
  assert (Hin : out_of_bounds (Param.value pc) bc
                || out_of_bounds (Param.value pp) bp = false
                <-> inside (Param.value pc) bc /\ inside (Param.value pp) bp).
  { rewrite orb_false_iff, !out_of_bounds_false. reflexivity. }
  assert (Hout : ~ (inside (Param.value pc) bc /\ inside (Param.value pp) bp)
                 -> df l' = df l).
  { intros Hn. rewrite Hdf.
    destruct (out_of_bounds (Param.value pc) bc
              || out_of_bounds (Param.value pp) bp); [reflexivity|].
    exfalso. apply Hn, Hin. reflexivity. }
  split_and!; try assumption; try reflexivity.
  - split.
    + intros E. apply Hin. rewrite Hdf in E.
      destruct (out_of_bounds (Param.value pc) bc
                || out_of_bounds (Param.value pp) bp); [|reflexivity].
      exfalso. apply (f_equal length) in E. rewrite length_app in E.
      cbn in E. lia.
    + intros H. apply Hin in H. rewrite Hdf, H. reflexivity.
  - intros [Hb | Hb]; apply Hout; intros [H1 H2];
      exact (on_bound_not_inside _ _ Hb ltac:(assumption)).
  - lia.
Qed.

(** The first iteration of the run with [stray] completes; the theorem
    applies to it and gives the new counter. *)
Lemma acceptance_filter_witness :
  i (demo.value_of demo.start (demo.iterate demo.stray 1 demo.world)) = 1%nat.
Proof.
  destruct (acceptance_filter
              demo.stray demo.data None "leastsq" demo.start
              (demo.value_of demo.start (demo.iterate demo.stray 1 demo.world))
              demo.world
              (demo.world_of (demo.iterate demo.stray 1 demo.world))
              ltac:(vm_compute; reflexivity))
    as (ps & bc & bp & Lc & Lp & row & H).
  destruct H as (_ & _ & _ & _ & _ & _ & _ & _ & _ & _ & _ & Hi).
  exact Hi.
Defined.
End step_props.

Module run_props.
Import fitting fit_spec fitting_props filter_props.

Section Run.
Variable minimize : Minimizer.
Variable data : list Q * list Q.
Variable min_delta : Q.
Variable max_iters : nat.
Variable filename : option string.
Variable method : string.

Ltac run_case :=
  match goal with
  | |- context [match ?x with _ => _ end] =>
      lazymatch x with
      | context [match _ with _ => _ end] => fail
      | _ => destruct x eqn:?
      end
  end.

Ltac run_cases := cbv beta iota zeta; repeat (run_case; cbv beta iota zeta).

(** An iteration calls the minimizer once, as its first action, whatever
    its outcome; it has no outcome only if the parameters are missing. *)
Lemma fit_model_calls (w : World) (ps : Parameters) :
  fparams (self w) = Some ps ->
  match fit_model minimize data method w with
  | Done _ w' | Fail _ w' =>
      w' = {| self := with_result (self w)
                        (minimize (the_call data method (self w) ps));
              calls := calls w ++ [the_call data method (self w) ps] |}
  | OutOfFuel => False
  end.
Proof.
  intros Hps. unfold fit_model, the_call. destruct data as [d F].
  cbn [fst snd].
  cbv beta iota delta [mbind' get_model get_func].
  destruct (String.eqb (model (self w)) "odijk");
    [| destruct (String.eqb (model (self w)) "eWLC")];
    cbv beta iota delta [mbind' get_fparams call_fit param ret raise];
    rewrite Hps; run_cases; reflexivity.
Qed.

Lemma fit_model_uncompiled (w : World) :
  fparams (self w) = None ->
  fit_model minimize data method w = Fail (AttributeError "fparams") w.
Proof.
  intros Hps. unfold fit_model. destruct data as [d F].
  cbv beta iota delta [mbind' get_model get_func].
  destruct (String.eqb (model (self w)) "odijk");
    [| destruct (String.eqb (model (self w)) "eWLC")];
    cbv beta iota delta [mbind' get_fparams]; rewrite Hps; reflexivity.
Qed.

(** Every iteration makes exactly one minimizer call on a compiled
    instance, whether it completes or raises; a completed iteration
    advances the counter, and one that raises has changed nothing but
    [self.result]. *)
Lemma fit_body_calls (l : Locals) (w : World) (ps : Parameters) :
  fparams (self w) = Some ps ->
  match fit_body minimize data filename method l w with
  | Done l' w' =>
      calls w' = calls w ++ [the_call data method (self w) ps] /\
      i l' = S (i l)
  | Fail _ w' =>
      w' = {| self := with_result (self w)
                        (minimize (the_call data method (self w) ps));
              calls := calls w ++ [the_call data method (self w) ps] |}
  | OutOfFuel => False
  end.
Proof.
  intros Hps. unfold fit_body. unfold mbind' at 1.
  pose proof (fit_model_calls w ps Hps) as Hm.
  destruct (fit_model minimize data method w) as [[[[Lc Lp] Sv] chi] w1 | e w1 |];
    [| subst w1; reflexivity | contradiction].
  subst w1.
  cbv beta iota zeta delta [mbind' get_fparams param loc_Lp set_param ret raise].
  cbn [self fparams with_result with_fparams calls]. rewrite ?Hps.
  repeat (run_case; cbv beta iota zeta;
          cbn [self fparams with_result with_fparams calls df dLp i];
          rewrite ?Hps);
    try discriminate; try reflexivity;
    repeat match goal with
           | H : Done _ _ = Done _ _ |- _ => injection H as <- <-
           | H : Fail _ _ = Fail _ _ |- _ => injection H as <- <-
           end;
    cbn [self fparams with_result with_fparams calls df dLp i];
    try (split; [reflexivity | lia]).
Qed.

Lemma fit_body_uncompiled (l : Locals) (w : World) :
  fparams (self w) = None ->
  fit_body minimize data filename method l w
  = Fail (AttributeError "fparams") w.
Proof.
  intros Hps. unfold fit_body. unfold mbind' at 1.
  rewrite (fit_model_uncompiled w Hps). reflexivity.
Qed.

Lemma fit_loop_exit (fuel : nat) (l : Locals) (w : World) :
  continues min_delta max_iters l = false ->
  fit_loop minimize data min_delta max_iters filename method fuel l w
  = Done l w.
Proof.
  intros H. destruct fuel; cbn [fit_loop]; rewrite H; reflexivity.
Qed.

Lemma fit_loop_step (fuel : nat) (l : Locals) (w : World) :
  continues min_delta max_iters l = true ->
  fit_loop minimize data min_delta max_iters filename method (S fuel) l w
  = mbind' (fit_body minimize data filename method l)
           (fit_loop minimize data min_delta max_iters filename method fuel)
           w.
Proof. intros H. cbn [fit_loop]. rewrite H. reflexivity. Qed.

(** With a budget of [max_iters - i] the loop has an outcome.  It has
    made at most [max_iters - i] minimizer calls, and if the loop test
    holds on entry the first of them starts from the parameters of the
    instance. *)
Lemma fit_loop_calls (fuel : nat) :
  forall (l : Locals) (w : World),
    (max_iters - i l <= fuel)%nat ->
    ends_in
      (fit_loop minimize data min_delta max_iters filename method fuel l w)
      (fun w' => exists rest : list FitCall,
                   calls w' = calls w ++ rest /\
                   (length rest <= max_iters - i l)%nat /\
                   (continues min_delta max_iters l = true ->
                    forall ps : Parameters,
                      fparams (self w) = Some ps ->
                      exists rest' : list FitCall,
                        rest = the_call data method (self w) ps :: rest')).
Proof.
  induction fuel as [|fuel IH]; intros l w Hf.
  - assert (Hc : continues min_delta max_iters l = false).
    { unfold continues. apply andb_false_iff. right.
      apply Nat.ltb_ge. lia. }
    rewrite (fit_loop_exit _ _ _ Hc). exists []. rewrite app_nil_r.
    split_and!; [reflexivity | cbn; lia | congruence].
  - destruct (continues min_delta max_iters l) eqn:Hc.
    2:{ rewrite (fit_loop_exit _ _ _ Hc). exists [].
        rewrite app_nil_r.
        split_and!; [reflexivity | cbn; lia | congruence]. }
    rewrite (fit_loop_step _ _ _ Hc).
    unfold continues in Hc. apply andb_true_iff in Hc.
    destruct Hc as [_ Hi]. apply Nat.ltb_lt in Hi.
    unfold mbind'.
    destruct (fparams (self w)) as [ps|] eqn:Hps.
    + pose proof (fit_body_calls l w ps Hps) as Hb.
      destruct (fit_body minimize data filename method l w)
        as [l' w1 | e w1 |]; [| | contradiction].
      * destruct Hb as [Hcalls Hi'].
        specialize (IH l' w1 ltac:(lia)).
        destruct (fit_loop minimize data min_delta max_iters filename
                           method fuel l' w1) as [l2 w2 | e w2 |];
          cbn [ends_in] in IH |- *; [| | contradiction];
          destruct IH as (rest & Hr & Hlen & _);
          exists (the_call data method (self w) ps :: rest);
          rewrite Hr, Hcalls, <- app_assoc; cbn [app length];
          (split_and!; [reflexivity | lia |]);
          intros _ ps' Hps'; injection Hps' as <-; exists rest;
          reflexivity.
      * cbn [ends_in]. exists [the_call data method (self w) ps].
        split_and!; [rewrite Hb; reflexivity | cbn; lia |].
        intros _ ps' Hps'. injection Hps' as <-. exists []. reflexivity.
    + rewrite (fit_body_uncompiled l w Hps). cbn [ends_in].
      exists []. rewrite app_nil_r.
      split_and!; [reflexivity | cbn; lia | congruence].
Qed.

(** The same for a whole call of [fit]. *)
Lemma fit_calls (w : World) :
  ends_in
    (fit minimize data min_delta max_iters filename method w)
    (fun w' => exists rest : list FitCall,
                 calls w' = calls w ++ rest /\
                 (length rest <= max_iters)%nat /\
                 ((1 <= max_iters)%nat ->
                  forall ps : Parameters,
                    fparams (self w) = Some ps ->
                    exists rest' : list FitCall,
                      rest = the_call data method (self w) ps :: rest')).
Proof.
  unfold fit. unfold mbind' at 1.
  pose proof (fit_loop_calls max_iters {| df := []; dLp := PInf; i := 0 |} w
                             ltac:(cbn; lia)) as Hl.
  assert (Hc : (1 <= max_iters)%nat ->
               continues min_delta max_iters
                         {| df := []; dLp := PInf; i := 0 |} = true).
  { intros H. unfold continues. cbn [dLp i]. apply andb_true_iff.
    split; [reflexivity | apply Nat.ltb_lt; lia]. }
  destruct (fit_loop minimize data min_delta max_iters filename method
                     max_iters {| df := []; dLp := PInf; i := 0 |} w)
    as [l w1 | e w1 |]; cbn [ends_in] in Hl |- *; [| | contradiction];
    destruct Hl as (rest & Hr & Hlen & Hfirst); cbn [i] in Hlen.
  - unfold mbind', last_row, set_df_full, ret, raise.
    destruct (last (df l)); cbn [ends_in calls];
      exists rest; (split_and!; [assumption | lia | auto]).
  - exists rest. split_and!; [assumption | lia | auto].
Qed.

(** A property of the loop state that every completed iteration keeps
    holds when the loop exits. *)
Lemma fit_loop_invariant (Inv : Locals -> World -> Prop) :
  (forall l w l' w',
      Inv l w ->
      fit_body minimize data filename method l w = Done l' w' ->
      Inv l' w') ->
  forall (fuel : nat) (l : Locals) (w : World) (l' : Locals) (w' : World),
    Inv l w ->
    fit_loop minimize data min_delta max_iters filename method fuel l w
    = Done l' w' ->
    Inv l' w'.
Proof.
  intros Hstep. induction fuel as [|fuel IH]; intros l w l' w' HI H.
  - cbn [fit_loop] in H.
    destruct (continues min_delta max_iters l); [discriminate|].
    apply ret_Done in H. destruct H as [-> ->]. exact HI.
  - cbn [fit_loop] in H.
    destruct (continues min_delta max_iters l).
    + apply bind_Done in H. destruct H as (l1 & w1 & H1 & H).
      exact (IH _ _ _ _ (Hstep _ _ _ _ HI H1) H).
    + apply ret_Done in H. destruct H as [-> ->]. exact HI.
Qed.
End Run.
End run_props.

Module warm_props.
Import fitting fit_spec fitting_props filter_props run_props.

Lemma warm_started_insert (ps : Parameters) (bp : Param.t) (v : Q) :
  ps !! "Lp" = Some bp ->
  warm_started ps (<["Lp" := Param.set bp v]> ps) v.
Proof.
  intros Hbp. split.
  - exists bp, (Param.set bp v). rewrite lookup_insert_eq.
    split_and!; first [assumption | reflexivity].
  - intros name Hn. apply lookup_insert_ne. congruence.
Qed.

Lemma warm_started_trans (ps ps' ps'' : Parameters) (v v' : Q) :
  warm_started ps ps' v -> warm_started ps' ps'' v' ->
  warm_started ps ps'' v'.
Proof.
  intros [(bp & p1 & Hbp & Hp1 & _ & Hmin & Hmax & Hvary) Hframe]
         [(bp' & p2 & Hbp' & Hp2 & Hv & Hmin' & Hmax' & Hvary') Hframe'].
  rewrite Hp1 in Hbp'. injection Hbp' as <-. split.
  - exists bp, p2. split_and!; try assumption; congruence.
  - intros name Hn. rewrite (Hframe' name Hn). apply Hframe, Hn.
Qed.

Lemma warm_trans (w w' w'' : World) : warm w w' -> warm w' w'' -> warm w w''.
Proof.
  intros (ps & ps' & v & Hps & Hps' & _ & H1)
         (ps1 & ps'' & v' & Hps1 & Hps'' & Hf & H2).
  rewrite Hps' in Hps1. injection Hps1 as <-.
  exists ps, ps'', v'. split_and!; try assumption.
  exact (warm_started_trans _ _ _ _ _ H1 H2).
Qed.

Section Warm.
Variable minimize : Minimizer.

Lemma fit_body_warm data filename method (l l' : Locals) (w w' : World) :
  fit_body minimize data filename method l w = Done l' w' -> warm w w'.
Proof.
  intros H. apply fit_body_Done in H.
  destruct H as (ps & r & pc & pp & bc & bp & Hps & Hr & Hc & Hp & Hbc & Hbp
                 & _ & Hi & Hdf & ->).
  exists ps, (<["Lp" := Param.set bp (Param.value pp)]> ps), (Param.value pp).
  split_and!; [assumption | reflexivity | |].
  - unfold fitted. cbn. rewrite Hp. reflexivity.
  - apply warm_started_insert, Hbp.
Qed.

Lemma fit_loop_warm data min_delta max_iters filename method (fuel : nat)
      (l l' : Locals) (w w' : World) :
  fit_loop minimize data min_delta max_iters filename method fuel l w
  = Done l' w' ->
  (l' = l /\ w' = w) \/ warm w w'.
Proof.
  revert l w. induction fuel as [|fuel IH]; intros l w H; cbn [fit_loop] in H;
    destruct (continues min_delta max_iters l);
    try discriminate;
    try (apply ret_Done in H; destruct H as [-> ->]; left; auto).
  apply bind_Done in H. destruct H as (l1 & w1 & H1 & H).
  apply fit_body_warm in H1. right.
  destruct (IH _ _ H) as [[_ ->] | Hw]; [exact H1|].
  exact (warm_trans _ _ _ H1 Hw).
Qed.

Lemma fit_warm data min_delta max_iters filename method
      (w w' : World) (s : Summary) :
  fit minimize data min_delta max_iters filename method w = Done s w' ->
  warm w w'.
Proof.
  unfold fit. intros H.
  apply bind_Done in H. destruct H as (l & w1 & Hl & H).
  apply bind_Done in H. destruct H as (r & w2 & Hr & H).
  apply bind_Done in H. destruct H as (u & w3 & Hu & H).
  apply ret_Done in H. destruct H as [-> ->].
  unfold set_df_full in Hu. injection Hu as _ <-.
  unfold last_row in Hr. destruct (last (df l)) as [r'|] eqn:Hlast;
    [|discriminate].
  apply ret_Done in Hr. destruct Hr as [-> ->].
  apply fit_loop_warm in Hl. destruct Hl as [[-> ->] | Hw].
  - cbn in Hlast. discriminate.
  - destruct Hw as (ps & ps' & v & Hps & Hps' & Hf & Hws).
    exists ps, ps', v. unfold fitted in *.
    cbn [self with_df_full result fparams]. split_and!; assumption.
Qed.

Lemma ends_in_mono {A : Type} (r : Res A) (P Q : World -> Prop) :
  (forall w', P w' -> Q w') -> ends_in r P -> ends_in r Q.
Proof. intros H. destruct r; cbn [ends_in]; auto. Qed.

Lemma kept_trans (ps ps1 : Parameters) (v : Q) (w' : World) :
  warm_started ps ps1 v -> kept ps1 w' -> kept ps w'.
Proof.
  intros Hw (ps' & Hps' & [E | [v' Hw']]); exists ps';
    (split; [exact Hps'|]); right.
  - exists v. rewrite E. exact Hw.
  - exists v'. exact (warm_started_trans _ _ _ _ _ Hw Hw').
Qed.

(** Whatever the outcome of the loop, it has changed nothing in the
    parameters but the value of [Lp]. *)
Lemma fit_loop_kept data min_delta max_iters filename method (fuel : nat) :
  forall (l : Locals) (w : World) (ps : Parameters),
    (max_iters - i l <= fuel)%nat ->
    fparams (self w) = Some ps ->
    ends_in
      (fit_loop minimize data min_delta max_iters filename method fuel l w)
      (kept ps).
Proof.
  induction fuel as [|fuel IH]; intros l w ps Hf Hps.
  - rewrite fit_loop_exit.
    + exists ps. auto.
    + unfold continues. apply andb_false_iff. right.
      apply Nat.ltb_ge. lia.
  - destruct (continues min_delta max_iters l) eqn:Hc.
    2:{ rewrite (fit_loop_exit _ _ _ _ _ _ _ _ _ Hc). exists ps. auto. }
    rewrite (fit_loop_step _ _ _ _ _ _ _ _ _ Hc). unfold mbind'.
    pose proof (fit_body_calls minimize data filename method l w ps Hps)
      as Hb.
    destruct (fit_body minimize data filename method l w)
      as [l' w1 | e w1 |] eqn:Hbody; [| | contradiction].
    + destruct Hb as [_ Hi].
      apply fit_body_warm in Hbody.
      destruct Hbody as (ps0 & ps1 & v & Hps0 & Hps1 & _ & Hw).
      rewrite Hps in Hps0. injection Hps0 as <-.
      apply (ends_in_mono _ (kept ps1));
        [exact (fun w' => kept_trans ps ps1 v w' Hw)|].
      apply IH; [lia | exact Hps1].
    + subst w1. exists ps. auto.
Qed.

Lemma fit_kept data min_delta max_iters filename method
      (w : World) (ps : Parameters) :
  fparams (self w) = Some ps ->
  ends_in (fit minimize data min_delta max_iters filename method w)
          (kept ps).
Proof.
  intros Hps. unfold fit. unfold mbind' at 1.
  pose proof (fit_loop_kept data min_delta max_iters filename method
                            max_iters {| df := []; dLp := PInf; i := 0 |}
                            w ps ltac:(cbn; lia) Hps) as Hl.
  destruct (fit_loop minimize data min_delta max_iters filename method
                     max_iters {| df := []; dLp := PInf; i := 0 |} w)
    as [l w1 | e w1 |]; cbn [ends_in] in Hl |- *; [| exact Hl | contradiction].
  unfold mbind', last_row, set_df_full, ret, raise.
  destruct (last (df l)); cbn [ends_in]; exact Hl.
Qed.
End Warm.

End warm_props.

Module result_props.
Import fitting fit_spec fitting_props filter_props run_props.

Section Result.
Variable minimize : Minimizer.
Variable data : list Q * list Q.
Variable min_delta : Q.
Variable max_iters : nat.
Variable filename : option string.
Variable method : string.

(** Every accepted row carries the label of the run. *)
Lemma rows_labelled (l : Locals) (w w' : World) :
  fit_loop minimize data min_delta max_iters filename method max_iters
           {| df := []; dLp := PInf; i := 0 |} w = Done l w' ->
  Forall (fun r => row_filename r = filename) (df l).
Proof.
  apply (fit_loop_invariant minimize data min_delta max_iters filename method
           (fun l _ => Forall (fun r => row_filename r = filename) (df l))).
  - intros l0 w0 l1 w1 HI H. apply fit_body_Done in H.
    destruct H as (ps & r & pc & pp & bc & bp & _ & _ & _ & _ & _ & _
                   & _ & _ & Hdf & _).
    rewrite Hdf.
    destruct (out_of_bounds (Param.value pc) bc
              || out_of_bounds (Param.value pp) bp); [exact HI|].
    apply Forall_app. split; [exact HI|].
    constructor; [reflexivity | constructor].
  - cbn [df]. constructor.
Qed.
End Result.

End result_props.

Module accepted_props.
Import fitting fit_spec fitting_props filter_props run_props.

Section Accepted.
Variable minimize : Minimizer.
Variable data : list Q * list Q.
Variable min_delta : Q.
Variable max_iters : nat.
Variable filename : option string.
Variable method : string.
Variable name : string.
Variable bc : Param.t.
Variables lo hi : Ext.

Hypothesis negative : min_delta < 0.
Hypothesis fitted_inside : well_fitted minimize name bc lo hi.

(** The minimizer call succeeds when the result has the parameters
    [fit] reads. *)
Lemma fit_model_ok (w : World) (ps : Parameters) (pc pp : Param.t) :
  fparams (self w) = Some ps ->
  let c := the_call data method (self w) ps in
  params (minimize c) !! "Lc" = Some pc ->
  params (minimize c) !! "Lp" = Some pp ->
  (String.eqb (model (self w)) "odijk"
   || String.eqb (model (self w)) "eWLC" = true ->
   is_Some (params (minimize c) !! "S")) ->
  fit_model minimize data method w
  = Done (Param.value pc, Param.value pp,
          fitted_S (self w) (minimize c), chisqr (minimize c))
         {| self := with_result (self w) (minimize c);
            calls := calls w ++ [c] |}.
Proof.
  intros Hps c. subst c.
  unfold fit_model, the_call, fitted_S. destruct data as [d F].
  cbn [fst snd]. cbv beta iota delta [mbind' get_model get_func].
  destruct (String.eqb (model (self w)) "odijk");
    [| destruct (String.eqb (model (self w)) "eWLC")];
    cbv beta iota zeta delta [mbind' get_fparams call_fit param ret];
    rewrite Hps; cbv beta iota zeta; cbn [orb];
    intros Hc Hp HS; rewrite Hc, Hp; cbv beta iota;
    try (destruct (HS eq_refl) as [pS HpS]; rewrite HpS);
    reflexivity.
Qed.

Lemma Ext_gtb_Qabs (q : Q) : Ext_gtb (Fin (Qabs q)) (Fin min_delta) = true.
Proof using negative.
  unfold Ext_gtb, Ext_leb. apply negb_true_iff.
  destruct (Qle_bool (Qabs q) min_delta) eqn:E; [|reflexivity].
  apply Qle_bool_iff in E. pose proof (Qabs_nonneg q). lra.
Qed.

Lemma inside_set (v : Q) (p : Param.t) (u : Q) :
  inside v p -> inside v (Param.set p u).
Proof. intros H. exact H. Qed.

(** While no row has been dropped, an iteration completes, accepts its
    row and keeps the loop on track. *)
Lemma fit_body_on_track (l : Locals) (w : World) :
  on_track name bc lo hi l w ->
  exists (l' : Locals) (w' : World) (c : FitCall),
    fit_body minimize data filename method l w = Done l' w' /\
    on_track name bc lo hi l' w' /\
    i l' = S (i l) /\ calls w' = calls w ++ [c].
Proof using fitted_inside.
  intros (Hname & (ps & p & Hps & HLc & HLp & Hlo & Hhi & Hin) & Hlen & Hd
          & Hlast).
  pose (c := the_call data method (self w) ps).
  destruct (fitted_inside c p) as (pc & pp & Hc & Hp & Hic & Hip & HS);
    try assumption;
    try (unfold c; rewrite the_call_params; assumption).
  rewrite <- Hname in HS.
  pose proof (fit_model_ok w ps pc pp Hps Hc Hp HS) as Hm.
  assert (Hprev : (0 < i l)%nat -> is_Some (df l !! (i l - 1)%nat)).
  { intros Hi. apply lookup_lt_is_Some_2. lia. }
  assert (Hoc : out_of_bounds (Param.value pc) bc = false)
    by (apply out_of_bounds_false; exact Hic).
  assert (Hop : out_of_bounds (Param.value pp) p = false)
    by (apply out_of_bounds_false; exact Hip).
  unfold fit_body. unfold mbind' at 1. fold c in Hm. rewrite Hm.
  cbv beta iota zeta.
  destruct (0 <? i l)%nat eqn:Ei.
  - apply Nat.ltb_lt in Ei. destruct (Hprev Ei) as [prev Hpv].
    cbv beta iota zeta delta [mbind' loc_Lp get_fparams param set_param
                              ret raise].
    rewrite Hpv. cbn [self fparams with_result with_fparams calls].
    rewrite Hps, HLc, Hoc. cbv beta iota. rewrite HLp, Hop.
    cbv beta iota. cbn [self fparams with_result with_fparams calls].
    rewrite Hps, HLp.
    eexists _, _, c. split; [reflexivity|].
    split_and!; cbn [df dLp i self calls model with_fparams with_result
                     fparams]; try lia; try reflexivity.
    + split_and!; cbn [df dLp i self calls model with_fparams with_result
                       fparams]; try assumption.
      * exists (<["Lp" := Param.set p (Param.value pp)]> ps),
               (Param.set p (Param.value pp)).
        rewrite lookup_insert_eq, lookup_insert_ne by discriminate.
        split_and!; try assumption; try reflexivity.
      * rewrite length_app. cbn. lia.
      * right. eexists. reflexivity.
      * intros r Hr. rewrite last_snoc in Hr. injection Hr as <-.
        cbn. lia.
  - apply Nat.ltb_ge in Ei.
    cbv beta iota zeta delta [mbind' loc_Lp get_fparams param set_param
                              ret raise].
    cbn [self fparams with_result with_fparams calls].
    rewrite Hps, HLc, Hoc. cbv beta iota. rewrite HLp, Hop.
    cbv beta iota. cbn [self fparams with_result with_fparams calls].
    rewrite Hps, HLp.
    eexists _, _, c. split; [reflexivity|].
    split_and!; cbn [df dLp i self calls model with_fparams with_result
                     fparams]; try lia; try reflexivity.
    + split_and!; cbn [df dLp i self calls model with_fparams with_result
                       fparams]; try assumption.
      * exists (<["Lp" := Param.set p (Param.value pp)]> ps),
               (Param.set p (Param.value pp)).
        rewrite lookup_insert_eq, lookup_insert_ne by discriminate.
        split_and!; try assumption; try reflexivity.
      * rewrite length_app. cbn. lia.
      * intros r Hr. rewrite last_snoc in Hr. injection Hr as <-.
        cbn. lia.
Qed.

Lemma on_track_continues (l : Locals) (w : World) :
  on_track name bc lo hi l w ->
  continues min_delta max_iters l = (i l <? max_iters)%nat.
Proof using negative.
  intros (_ & _ & _ & Hd & _). unfold continues.
  destruct Hd as [-> | [q ->]]; [reflexivity|].
  rewrite Ext_gtb_Qabs. reflexivity.
Qed.

(** On track, the loop runs until the counter reaches [max_iters]. *)
Lemma fit_loop_on_track (fuel : nat) :
  forall (l : Locals) (w : World),
    on_track name bc lo hi l w ->
    (i l <= max_iters)%nat -> (max_iters - i l <= fuel)%nat ->
    exists (l' : Locals) (w' : World) (rest : list FitCall),
      fit_loop minimize data min_delta max_iters filename method fuel l w
      = Done l' w' /\
      on_track name bc lo hi l' w' /\ i l' = max_iters /\
      calls w' = calls w ++ rest /\
      length rest = (max_iters - i l)%nat.
Proof using negative fitted_inside.
  induction fuel as [|fuel IH]; intros l w Ht Hle Hf.
  - exists l, w, []. rewrite fit_loop_exit.
    + rewrite app_nil_r. split_and!; try assumption; try reflexivity;
        cbn; lia.
    + rewrite (on_track_continues l w Ht). apply Nat.ltb_ge. lia.
  - destruct (i l <? max_iters)%nat eqn:Ei.
    + apply Nat.ltb_lt in Ei.
      rewrite fit_loop_step
        by (rewrite (on_track_continues l w Ht); apply Nat.ltb_lt; lia).
      destruct (fit_body_on_track l w Ht) as (l1 & w1 & c & Hb & Ht1 & Hi1 & Hc1).
      unfold mbind'. rewrite Hb.
      destruct (IH l1 w1 Ht1 ltac:(lia) ltac:(lia))
        as (l' & w' & rest & Hl & Ht' & Hi' & Hc' & Hlen).
      exists l', w', (c :: rest). rewrite Hl.
      split_and!; try assumption; try reflexivity.
      * rewrite Hc', Hc1, <- app_assoc. reflexivity.
      * cbn [length]. lia.
    + apply Nat.ltb_ge in Ei. exists l, w, [].
      rewrite fit_loop_exit
        by (rewrite (on_track_continues l w Ht); apply Nat.ltb_ge; lia).
      rewrite app_nil_r. split_and!; try assumption; try reflexivity;
        cbn; lia.
Qed.

(** With a negative [min_delta] and no dropped row, [fit] performs
    exactly [max_iters] iterations and returns the row of the last. *)
Lemma all_accepted_run (w : World) :
  (1 <= max_iters)%nat ->
  on_track name bc lo hi {| df := []; dLp := PInf; i := 0 |} w ->
  exists (s : Summary) (w' : World) (rest : list FitCall),
    fit minimize data min_delta max_iters filename method w = Done s w' /\
    calls w' = calls w ++ rest /\ length rest = max_iters /\
    nFittings s = max_iters.
Proof using negative fitted_inside.
  intros Hmax Ht.
  destruct (fit_loop_on_track max_iters _ w Ht ltac:(cbn; lia)
                              ltac:(cbn; lia))
    as (l & w1 & rest & Hl & (_ & _ & Hlen & _ & Hlast) & Hi & Hc & Hn).
  cbn [i] in Hn.
  destruct (last (df l)) as [r|] eqn:Hr.
  2:{ apply last_None in Hr. rewrite Hr in Hlen. cbn in Hlen. lia. }
  exists (summary_of r), {| self := with_df_full (self w1) (df l);
                            calls := calls w1 |}, rest.
  unfold fit. unfold mbind' at 1. rewrite Hl.
  unfold mbind', last_row, set_df_full, ret. rewrite Hr.
  split_and!; [reflexivity | exact Hc | lia |].
  cbn [summary_of nFittings]. rewrite (Hlast r eq_refl). exact Hi.
Qed.
End Accepted.

(** The minimizer [steady] stays inside the bounds of the small
    configuration. *)
Lemma steady_well_fitted :
  well_fitted demo.steady "WLC" (hint_bounded 1000 500 2000)
              (Fin 10) (Fin 100).
Proof.
  intros c p HLc HLp Hlo Hhi [Hl Hh].
  rewrite Hlo in Hl. rewrite Hhi in Hh. cbn [Ext_lt] in Hl, Hh.
  unfold demo.steady, demo.answer, demo.seed_Lp. rewrite HLp.
  cbn [params].
  exists (Param.set (hint_bounded 1000 500 2000) 1000),
         (Param.set p (Qred ((Param.value p + 40) / 2))).
  split_and!.
  - rewrite lookup_alter_eq, lookup_alter_ne by discriminate.
    rewrite HLc. reflexivity.
  - rewrite lookup_alter_ne by discriminate. rewrite lookup_alter_eq.
    rewrite HLp. reflexivity.
  - split; reflexivity.
  - unfold inside. rewrite Hlo, Hhi. cbn [Param.value Param.set Ext_lt].
    rewrite Qred_correct. split.
    + apply Qlt_shift_div_l; lra.
    + apply Qlt_shift_div_r; lra.
  - discriminate.
Qed.

(** On the small configuration, ten iterations with [min_delta = -1]. *)
Example steady_run_reaches_max_iters :
  exists (s : Summary) (w' : World) (rest : list FitCall),
    demo.run demo.steady (-1) 10 = Done s w' /\
    calls w' = rest /\ length rest = 10%nat /\ nFittings s = 10%nat.
Proof.
  apply (all_accepted_run demo.steady demo.data (-1) 10 None "leastsq"
           "WLC" (hint_bounded 1000 500 2000) (Fin 10) (Fin 100)
           ltac:(reflexivity) steady_well_fitted demo.world ltac:(lia)).
  unfold on_track. cbn [df dLp i length].
  split_and!; try reflexivity.
  - eexists _, _. split_and!; try (vm_compute; reflexivity).
    split; reflexivity.
  - left. reflexivity.
  - discriminate.
Qed.
End accepted_props.

Module defect_props.
Import fitting fit_spec fitting_props filter_props run_props demo.

(** A completed iteration computes [dLp] from the row labelled [i - 1];
    the first iteration keeps the initial [dLp]. *)
Lemma dLp_reads_row_before
      (minimize : Minimizer) (data : list Q * list Q)
      (filename : option string) (method : string)
      (l l' : Locals) (w w' : World) :
  fit_body minimize data filename method l w = Done l' w' ->
  (i l = 0%nat /\ dLp l' = dLp l) \/
  ((0 < i l)%nat /\
   exists (prev : Row) (Lp : Q),
     df l !! (i l - 1)%nat = Some prev /\ fitted w' "Lp" = Some Lp /\
     dLp l' = Fin (Qabs (Lp - row_Lp prev))).
Proof.
  intros H. apply fit_body_Done in H.
  destruct H as (ps & r & pc & pp & bc & bp & _ & _ & _ & Hp & _ & _
                 & Hd & _ & _ & ->).
  destruct Hd as [Hd | (Hi & prev & Hprev & Hd)]; [left; exact Hd|].
  right. split; [exact Hi|]. exists prev, (Param.value pp).
  split_and!; [exact Hprev | | exact Hd].
  unfold fitted. cbn. rewrite Hp. reflexivity.
Qed.

(** As long as no row has been dropped, the row labelled [i - 1] is the
    last accepted one, and [dLp] is the distance to its [Lp]. *)
Lemma dLp_from_last_accepted
      (minimize : Minimizer) (data : list Q * list Q)
      (filename : option string) (method : string)
      (l l' : Locals) (w w' : World) :
  length (df l) = i l -> (0 < i l)%nat ->
  fit_body minimize data filename method l w = Done l' w' ->
  exists (prev : Row) (Lp : Q),
    last (df l) = Some prev /\ fitted w' "Lp" = Some Lp /\
    dLp l' = Fin (Qabs (Lp - row_Lp prev)).
Proof.
  intros Hlen Hi H.
  destruct (dLp_reads_row_before _ _ _ _ _ _ _ _ H)
    as [[Hz _] | (_ & prev & Lp & Hprev & HLp & Hd)]; [lia|].
  exists prev, Lp. split_and!; try assumption.
  rewrite last_lookup, Hlen. rewrite <- Hprev. f_equal. lia.
Qed.

(** Once a row has been dropped there are fewer rows than iterations, the
    label [i - 1] is missing, and no later iteration completes. *)
Lemma no_iteration_after_rejection
      (minimize : Minimizer) (data : list Q * list Q)
      (filename : option string) (method : string)
      (l l' : Locals) (w w' : World) :
  (length (df l) < i l)%nat ->
  fit_body minimize data filename method l w <> Done l' w'.
Proof.
  intros Hlen H. apply fit_body_Done in H.
  destruct H as (ps & r & pc & pp & bc & bp & _ & _ & _ & _ & _ & _
                 & Hd & _).
  destruct Hd as [[Hi _] | (Hi & prev & Hprev & _)]; [lia|].
  apply lookup_lt_Some in Hprev. lia.
Qed.

(** C1.  The code reads the previous [Lp] from the row labelled [i - 1],
    which is the last accepted row only while no row has been dropped.
    With the minimizer [stray], the first iteration is accepted with
    [Lp = 45] and the second is dropped ([Lc] on its upper bound,
    [Lp = 42]); the loop goes on, and the third iteration, which fits
    [Lp = 41], raises [KeyError: 1] instead of setting
    [dLp = |41 - 45|]: the row labelled [i - 1 = 1] does not exist. *)
Theorem dLp_after_rejection_raises :
  match iterate stray 2 world with
  | Done l w =>
      df l = [first_row] /\ i l = 2%nat /\
      continues 1 10 l = true /\
      match fit_body stray data None "leastsq" l w with
      | Fail e w' => e = KeyError (KInt 1) /\ fitted w' "Lp" = Some 41
      | _ => False
      end
  | _ => False
  end /\
  match run stray 1 10 with
  | Fail e w' => e = KeyError (KInt 1) /\ length (calls w') = 3%nat
  | _ => False
  end.
Proof. vm_compute. repeat split; reflexivity. Qed.

(** At most [max_iters] minimizer calls in every run, none when
    [max_iters = 0]. *)
Lemma fit_budget
      (minimize : Minimizer) (data : list Q * list Q) (min_delta : Q)
      (max_iters : nat) (filename : option string) (method : string)
      (w : World) :
  ends_in (fit minimize data min_delta max_iters filename method w)
          (fun w' => exists rest : list FitCall,
                       calls w' = calls w ++ rest /\
                       (length rest <= max_iters)%nat /\
                       (max_iters = 0%nat -> rest = [])).
Proof.
  pose proof (fit_calls minimize data min_delta max_iters filename method w)
    as H.
  destruct (fit minimize data min_delta max_iters filename method w)
    as [s w' | e w' |]; cbn [ends_in] in H |- *; [| | contradiction];
    destruct H as (rest & Hr & Hlen & _); exists rest;
    (split_and!; [assumption | assumption |]);
    intros ->; apply nil_length_inv; lia.
Qed.

(** C5.  With [min_delta = -1] and [max_iters = 10] the run with [stray]
    does not perform ten iterations: its second row is dropped, and it
    raises [KeyError: 1] in the third iteration, after three minimizer
    calls.  The run with [stuck], whose every row is dropped, raises
    [KeyError: 0] in the second iteration. *)
Theorem negative_min_delta_run_raises :
  match run stray (-1) 10 with
  | Fail e w' => e = KeyError (KInt 1) /\ length (calls w') = 3%nat
  | _ => False
  end /\
  match run stuck (-1) 10 with
  | Fail e w' => e = KeyError (KInt 0) /\ length (calls w') = 2%nat
  | _ => False
  end.
Proof. vm_compute. repeat split; reflexivity. Qed.

(** C2.  In the run with [stray] the result of the third call lies
    strictly inside the bounds, [Lc = 1000] and [Lp = 41], and its row is
    not appended: the iteration raises [KeyError: 1] before it reaches the
    filter, because the row of the second iteration was dropped. *)
Theorem inside_bounds_not_appended :
  match iterate stray 2 world with
  | Done l w =>
      df l = [first_row] /\ i l = 2%nat /\
      match fit_body stray data None "leastsq" l w with
      | Fail e w' =>
          e = KeyError (KInt 1) /\
          fitted w' "Lc" = Some 1000 /\ fitted w' "Lp" = Some 41 /\
          exists (ps : Parameters) (bc bp : Param.t),
            fparams (self w') = Some ps /\
            ps !! "Lc" = Some bc /\ ps !! "Lp" = Some bp /\
            inside 1000 bc /\ inside 41 bp
      | _ => False
      end
  | _ => False
  end.
Proof.
  vm_compute. split; [reflexivity|]. split; [reflexivity|].
  split; [reflexivity|]. split; [reflexivity|]. split; [reflexivity|].
  eexists. eexists. eexists.
  split; [reflexivity|]. split; [reflexivity|]. split; [reflexivity|].
  split; split; reflexivity.
Qed.

(** C3.  The run with [stray] raises in its third iteration, after the
    minimizer has fitted [Lp = 41] and before [self.fparams["Lp"].set]:
    the parameters keep the [Lp = 42] of the iteration before, and the
    first minimizer call of a second [fit] on the instance starts from
    [42]. *)
Theorem seed_behind_last_fit :
  match run stray 1 10 with
  | Fail e w' =>
      e = KeyError (KInt 1) /\ fitted w' "Lp" = Some 41 /\
      (exists (ps : Parameters) (p : Param.t),
          fparams (self w') = Some ps /\ ps !! "Lp" = Some p /\
          Param.value p = 42) /\
      match fit stray data 1 10 None "leastsq" w' with
      | Done _ w2 | Fail _ w2 =>
          exists (c : FitCall) (rest : list FitCall),
            calls w2 = calls w' ++ c :: rest /\ seed_Lp c = 42
      | OutOfFuel => False
      end
  | _ => False
  end.
Proof.
  vm_compute. split; [reflexivity|]. split; [reflexivity|]. split.
  - eexists. eexists. split; [reflexivity|]. split; reflexivity.
  - eexists. eexists. split; reflexivity.
Qed.

End defect_props.

Module config_props.
Import fitting fit_spec demo.

Lemma init_Ok_iff (name : string) :
  (exists s : WormLikeChain, init name = Ok s) <-> In name wired.
Proof.
  unfold init, wired. cbn [In].
  destruct (String.eqb_spec name "WLC") as [-> | N1];
    [split; [auto | eauto]|].
  destruct (String.eqb_spec name "bouchiat") as [-> | N2];
    [split; [auto | eauto]|].
  destruct (String.eqb_spec name "odijk") as [-> | N3];
    [split; [auto | eauto]|].
  destruct (String.eqb_spec name "eWLC") as [-> | N4];
    [split; [auto 6 | eauto]|].
  split.
  - intros [s H]. discriminate.
  - intros [H | [H | [H | [H | []]]]]; congruence.
Qed.

(** C7, as the code has it.  The constructor raises, and what it raises is
    a [ValueError], exactly for the names outside
    [WLC, bouchiat, odijk, eWLC]; for these four it returns an instance of
    that model, and for [ebouchiat] it raises. *)
Theorem init_raises_iff (name : string) :
  (init name = Raise (ValueError unknown_model) <-> ~ In name wired) /\
  (In name wired ->
   exists s : WormLikeChain, init name = Ok s /\ model s = name) /\
  init "ebouchiat" = Raise (ValueError unknown_model).
Proof.
  split_and!.
  - rewrite <- init_Ok_iff. unfold init.
    destruct (String.eqb name "WLC"); [split; [discriminate | intros []; eauto]|].
    destruct (String.eqb name "bouchiat"); [split; [discriminate | intros []; eauto]|].
    destruct (String.eqb name "odijk"); [split; [discriminate | intros []; eauto]|].
    destruct (String.eqb name "eWLC"); [split; [discriminate | intros []; eauto]|].
    split; [intros _ [s H]; discriminate | reflexivity].
  - intros H. apply init_Ok_iff in H. destruct H as [s H]. exists s.
    split; [exact H|]. unfold init in H.
    repeat match type of H with
           | (if ?b then _ else _) = _ => destruct b
           end; try discriminate; injection H as <-; reflexivity.
  - reflexivity.
Qed.

Lemma init_raises_iff_witness :
  exists s : WormLikeChain, init "eWLC" = Ok s /\ model s = "eWLC".
Proof.
  destruct (init_raises_iff "eWLC") as (_ & H & _).
  apply H. unfold wired. cbn [In]. auto 6.
Defined.

(** The claim of C7 fails at [ebouchiat]: the name is in the enumerated
    set of the specification, and the constructor raises. *)
Lemma ebouchiat_not_wired_counterexample :
  In "ebouchiat" enumerated /\
  init "ebouchiat" = Raise (ValueError unknown_model).
Proof. split; [unfold enumerated; cbn [In]; auto 6 | reflexivity]. Qed.

(** ** [compile] *)

Lemma item_Raise {V : Type} (d : gmap string V) (k : string) (e : Exception) :
  item d k = Raise e -> e = KeyError (KStr k) /\ d !! k = None.
Proof.
  unfold item. destruct (d !! k); [discriminate|].
  intros H. injection H as <-. auto.
Qed.

Lemma bounded_hint_Raise (params : gmap string Q) (name : string) (e : Exception) :
  bounded_hint params name = Raise e -> exists k : string, e = KeyError (KStr k).
Proof.
  unfold bounded_hint, item, bind.
  repeat match goal with
         | |- context [match ?d !! ?k with _ => _ end] => destruct (d !! k)
         end; try discriminate; intros H; injection H as <-; eauto.
Qed.

(** The hint for [kBT] is rejected as contradictory exactly when both
    entries are present and differ. *)
Lemma kBT_hint_ValueError (params : gmap string Q) :
  kBT_hint params = Raise (ValueError contradictory) <->
  exists k T : Q,
    params !! "kBT" = Some k /\ params !! "T" = Some T /\
    ~ k == kBT_of_T T.
Proof.
  unfold kBT_hint, has, item, bind.
  destruct (params !! "kBT") as [k|], (params !! "T") as [T|]; cbn [andb negb].
  - destruct (Qeq_bool k (kBT_of_T T)) eqn:E.
    + apply Qeq_bool_iff in E. split; [discriminate|].
      intros (k' & T' & Hk & HT & Hne). injection Hk as <-. injection HT as <-.
      contradiction.
    + split; [|reflexivity]. intros _. exists k, T.
      split_and!; try reflexivity. intros Heq.
      apply Qeq_bool_iff in Heq. congruence.
  - split; [discriminate | intros (k' & T' & _ & HT & _); discriminate].
  - split; [discriminate | intros (k' & T' & Hk & _); discriminate].
  - split; [discriminate | intros (k' & T' & Hk & _); discriminate].
Qed.

Lemma kBT_hint_Raise (params : gmap string Q) (e : Exception) :
  kBT_hint params = Raise e ->
  e = ValueError contradictory \/ exists k : string, e = KeyError (KStr k).
Proof.
  unfold kBT_hint, has, item, bind.
  destruct (params !! "kBT") as [k|], (params !! "T") as [T|]; cbn [andb negb];
    try discriminate.
  - destruct (Qeq_bool k (kBT_of_T T)); [discriminate|].
    intros H. injection H as <-. auto.
  - intros H. injection H as <-. eauto.
Qed.

(** C6, as the code has it.  [compile] raises the [ValueError] exactly when
    both [kBT] and [T] are given and [kBT] is not the binary64 number
    that [0.013806*(273.15+T)] evaluates to; every other exception it
    raises is a [KeyError] for a missing entry.  With [kBT = 4.1] it
    raises for [T = 1000] and for [T = 25] alike; with [kBT = 4.1162589]
    and [T = 25] it succeeds; with [kBT = 4.0472289] and [T = 20] it
    raises, the product being rounded to [4.0472288999999995]. *)
Theorem compile_raises_iff (s : WormLikeChain) (params : gmap string Q) :
  (compile s params = Raise (ValueError contradictory) <->
   exists k T : Q,
     params !! "kBT" = Some k /\ params !! "T" = Some T /\
     ~ k == kBT_of_T T) /\
  (forall e : Exception,
      compile s params = Raise e ->
      e = ValueError contradictory \/ exists k : string, e = KeyError (KStr k)) /\
  compile_WLC (spec_kBT_T (binary64.lit 4.1) 1000)
  = Raise (ValueError contradictory) /\
  compile_WLC (spec_kBT_T (binary64.lit 4.1) 25)
  = Raise (ValueError contradictory) /\
  (exists s' : WormLikeChain,
      compile_WLC (spec_kBT_T (binary64.lit 4.1162589) 25) = Ok s') /\
  compile_WLC (spec_kBT_T (binary64.lit 4.0472289) 20)
  = Raise (ValueError contradictory).
Proof.
  assert (Hall : forall e : Exception,
             compile s params = Raise e ->
             (e = ValueError contradictory /\ kBT_hint params = Raise e) \/
             exists k : string, e = KeyError (KStr k)).
  { intros e. unfold compile. unfold bind at 1.
    destruct (kBT_hint params) as [kBT|e0] eqn:Hk.
    - intros H. right. unfold bind at 1 in H.
      destruct (bounded_hint params "Lc") as [Lc|e1] eqn:HLc;
        [| injection H as <-; exact (bounded_hint_Raise _ _ _ HLc)].
      unfold bind at 1 in H.
      destruct (bounded_hint params "Lp") as [Lp|e2] eqn:HLp;
        [| injection H as <-; exact (bounded_hint_Raise _ _ _ HLp)].
      destruct (String.eqb (model s) "odijk" || String.eqb (model s) "eWLC");
        [| discriminate].
      unfold bind at 2 in H.
      destruct (bounded_hint params "S") as [S|e3] eqn:HS;
        [discriminate | injection H as <-; exact (bounded_hint_Raise _ _ _ HS)].
    - intros H. injection H as <-.
      destruct (kBT_hint_Raise _ _ Hk) as [-> | Hkey]; [left; auto | right; exact Hkey]. }
  split_and!.
  - rewrite <- kBT_hint_ValueError. split.
    + intros H. destruct (Hall _ H) as [[_ Hk] | [k Hk]];
        [exact Hk | discriminate].
    + intros H. unfold compile. rewrite H. reflexivity.
  - intros e H. destruct (Hall e H) as [[-> _] | Hk]; auto.
  - vm_compute. reflexivity.
  - vm_compute. reflexivity.
  - eexists. vm_compute. reflexivity.
  - vm_compute. reflexivity.
Qed.

(** With [kBT = 4.1] and [T = 1000] the instance raises on evaluation, so
    the two entries are present and differ. *)
Lemma compile_raises_iff_witness :
  exists k T : Q,
    spec_kBT_T (binary64.lit 4.1) 1000 !! "kBT" = Some k /\
    spec_kBT_T (binary64.lit 4.1) 1000 !! "T" = Some T /\
    ~ k == kBT_of_T T.
Proof.
  apply (proj1 (proj1 (compile_raises_iff
                         (new f_WLC "WLC")
                         (spec_kBT_T (binary64.lit 4.1) 1000)))).
  vm_compute. reflexivity.
Defined.

(** The claim of C6 fails at [kBT = 4.1], [T = 25]: [compile] raises. *)
Lemma compile_4_1_at_25_counterexample :
  spec_kBT_T (binary64.lit 4.1) 25 !! "kBT" = Some (binary64.lit 4.1) /\
  spec_kBT_T (binary64.lit 4.1) 25 !! "T" = Some 25 /\
  compile_WLC (spec_kBT_T (binary64.lit 4.1) 25)
  = Raise (ValueError contradictory).
Proof. vm_compute. repeat split; reflexivity. Qed.
End config_props.

(* ===================================================================== *)
(** * What [compile] needs and builds *)
(* ===================================================================== *)

Module compile_more.
Import fitting fit_spec compile_spec config_props.

Lemma item_Ok {V : Type} (d : gmap string V) (k : string) (v : V) :
  item d k = Ok v <-> d !! k = Some v.
Proof.
  unfold item. destruct (d !! k); split; intros H; try discriminate;
    injection H as <-; reflexivity.
Qed.

(** A bounded hint succeeds exactly when its three entries are present. *)
Lemma bounded_hint_Ok (params : gmap string Q) (name : string) (p : Param.t) :
  bounded_hint params name = Ok p <->
  exists v lo hi : Q,
    params !! name = Some v /\ params !! (String.append name "_lower") = Some lo /\
    params !! (String.append name "_upper") = Some hi /\
    p = hint_bounded v lo hi.
Proof.
  unfold bounded_hint, item, bind.
  destruct (params !! name) as [v|];
    [| split; [discriminate | intros (? & ? & ? & H & _); discriminate]].
  destruct (params !! (String.append name "_lower")) as [lo|];
    [| split; [discriminate | intros (? & ? & ? & _ & H & _); discriminate]].
  destruct (params !! (String.append name "_upper")) as [hi|];
    [| split; [discriminate | intros (? & ? & ? & _ & _ & H & _); discriminate]].
  split.
  - intros H. injection H as <-. exists v, lo, hi. auto.
  - intros (v' & lo' & hi' & Hv & Hlo & Hhi & ->).
    injection Hv as <-. injection Hlo as <-. injection Hhi as <-. reflexivity.
Qed.

(** It reports the first of its three entries that is missing. *)
Lemma bounded_hint_KeyError (params : gmap string Q) (name : string) (e : Exception) :
  bounded_hint params name = Raise e ->
  exists (pre post : list string) (k : string),
    [name; String.append name "_lower"; String.append name "_upper"] = pre ++ k :: post /\
    e = KeyError (KStr k) /\ params !! k = None /\
    Forall (fun j => is_Some (params !! j)) pre.
Proof.
  unfold bounded_hint, item, bind.
  destruct (params !! name) as [v|] eqn:Hv.
  2:{ intros H. injection H as <-. exists [], [String.append name "_lower"; String.append name "_upper"], name.
      split_and!; auto. }
  destruct (params !! (String.append name "_lower")) as [lo|] eqn:Hlo.
  2:{ intros H. injection H as <-.
      exists [name], [String.append name "_upper"], (String.append name "_lower").
      split_and!; auto. }
  destruct (params !! (String.append name "_upper")) as [hi|] eqn:Hhi; [discriminate|].
  intros H. injection H as <-.
  exists [name; String.append name "_lower"], [], (String.append name "_upper").
  split_and!; auto.
Qed.

(** The temperature statement succeeds exactly on a consistent
    specification, with the thermal energy it stands for. *)
Lemma kBT_hint_Ok (params : gmap string Q) (p : Param.t) :
  kBT_hint params = Ok p <->
  temperature_ok params /\
  exists k : Q, kBT_of params = Some k /\ p = Param.mk k NInf PInf true.
Proof.
  unfold kBT_hint, temperature_ok, kBT_of, has, item, bind, hint.
  destruct (params !! "kBT") as [k|], (params !! "T") as [T|];
    cbn [andb negb].
  - destruct (Qeq_bool k (kBT_of_T T)) eqn:E.
    + apply Qeq_bool_iff in E. split.
      * intros H. injection H as <-. split; [exact E|]. eauto.
      * intros (_ & k' & Hk & ->). injection Hk as <-. reflexivity.
    + split; [discriminate|]. intros (H & _).
      apply Qeq_bool_iff in H. congruence.
  - split.
    + intros H. injection H as <-. split; [exact I|]. eauto.
    + intros (_ & k' & Hk & ->). injection Hk as <-. reflexivity.
  - split.
    + intros H. injection H as <-. split; [exact I|]. eauto.
    + intros (_ & k' & Hk & ->). injection Hk as <-. reflexivity.
  - split; [discriminate | intros ([] & _)].
Qed.

Lemma temperature_ok_kBT_of (params : gmap string Q) :
  temperature_ok params -> exists k : Q, kBT_of params = Some k.
Proof.
  unfold temperature_ok, kBT_of.
  destruct (params !! "kBT"), (params !! "T"); intros H; eauto; contradiction.
Qed.

Lemma bounded_hint_present (params : gmap string Q) (name : string) :
  is_Some (params !! name) ->
  is_Some (params !! String.append name "_lower") ->
  is_Some (params !! String.append name "_upper") ->
  exists p : Param.t, bounded_hint params name = Ok p.
Proof.
  intros [v Hv] [lo Hlo] [hi Hhi]. eexists.
  apply bounded_hint_Ok. exists v, lo, hi. auto.
Qed.

(** The frozen copy of a hint that [compile] makes for [kBT]. *)
Lemma frozen_kBT (k : Q) (hints : Parameters) :
  hints !! "kBT" = Some (hint k) ->
  alter (fun p => Param.mk (Param.value p) (Param.min p) (Param.max p) false)
        "kBT" hints !! "kBT"
  = Some (Param.mk k NInf PInf false).
Proof. intros H. rewrite lookup_alter_eq, H. reflexivity. Qed.

(** What a successful [compile] has gone through. *)
Lemma compile_Ok (s s' : WormLikeChain) (params : gmap string Q) :
  compile s params = Ok s' ->
  exists (pk pLc pLp : Param.t) (hints : Parameters),
    kBT_hint params = Ok pk /\
    bounded_hint params "Lc" = Ok pLc /\
    bounded_hint params "Lp" = Ok pLp /\
    (if needs_S (model s)
     then exists pS : Param.t,
         bounded_hint params "S" = Ok pS /\
         hints = <["S" := pS]> (<["Lp" := pLp]> (<["Lc" := pLc]>
                                                   (<["kBT" := pk]> ∅)))
     else hints = <["Lp" := pLp]> (<["Lc" := pLc]> (<["kBT" := pk]> ∅))) /\
    s' = with_fparams s
           (alter (fun p => Param.mk (Param.value p) (Param.min p)
                                     (Param.max p) false) "kBT" hints).
Proof.
  unfold compile, needs_S. unfold bind at 1.
  destruct (kBT_hint params) as [pk|]; [|discriminate].
  unfold bind at 1.
  destruct (bounded_hint params "Lc") as [pLc|]; [|discriminate].
  unfold bind at 1.
  destruct (bounded_hint params "Lp") as [pLp|]; [|discriminate].
  cbv zeta.
  destruct (String.eqb (model s) "odijk" || String.eqb (model s) "eWLC").
  - unfold bind at 2.
    destruct (bounded_hint params "S") as [pS|]; [|discriminate].
    cbn [bind]. intros H. injection H as <-.
    exists pk, pLc, pLp. eexists. split_and!; try reflexivity. eauto.
  - cbn [bind]. intros H. injection H as <-.
    exists pk, pLc, pLp. eexists. split_and!; reflexivity.
Qed.

(** [compile] succeeds exactly when the temperature is given without
    contradiction and every entry the model needs is present: [Lc] and
    [Lp] with their bounds, and [S] with its bounds for "odijk" and
    "eWLC" only. *)
Theorem compile_succeeds_iff (s : WormLikeChain) (params : gmap string Q) :
  (exists s' : WormLikeChain, compile s params = Ok s') <->
  temperature_ok params /\
  Forall (fun k => is_Some (params !! k)) (required (model s)).
Proof.
  split.
  - intros [s' H]. apply compile_Ok in H.
    destruct H as (pk & pLc & pLp & hints & Hk & HLc & HLp & HS & _).
    apply kBT_hint_Ok in Hk. destruct Hk as [Ht _]. split; [exact Ht|].
    apply bounded_hint_Ok in HLc, HLp.
    destruct HLc as (v1 & l1 & h1 & A1 & A2 & A3 & _).
    destruct HLp as (v2 & l2 & h2 & B1 & B2 & B3 & _).
    unfold required. apply Forall_app. split.
    + repeat constructor; eauto.
    + destruct (needs_S (model s)); [|constructor].
      destruct HS as (pS & HS & _). apply bounded_hint_Ok in HS.
      destruct HS as (v3 & l3 & h3 & C1 & C2 & C3 & _).
      repeat constructor; eauto.
  - intros [Ht Hall]. unfold required in Hall. apply Forall_app in Hall.
    destruct Hall as [H6 HS].
    destruct (temperature_ok_kBT_of params Ht) as [k Hk].
    assert (Hh : kBT_hint params = Ok (Param.mk k NInf PInf true))
      by (apply kBT_hint_Ok; eauto).
    inversion H6 as [|? ? A1 H5]; subst. inversion H5 as [|? ? A2 H4]; subst.
    inversion H4 as [|? ? A3 H3]; subst. inversion H3 as [|? ? B1 H2]; subst.
    inversion H2 as [|? ? B2 H1]; subst. inversion H1 as [|? ? B3 _]; subst.
    destruct (bounded_hint_present params "Lc" A1 A2 A3) as [pLc HLc].
    destruct (bounded_hint_present params "Lp" B1 B2 B3) as [pLp HLp].
    unfold compile. rewrite Hh, HLc, HLp. cbn [bind].
    fold (needs_S (model s)).
    destruct (needs_S (model s)).
    + inversion HS as [|? ? C1 HS2]; subst.
      inversion HS2 as [|? ? C2 HS1]; subst.
      inversion HS1 as [|? ? C3 _]; subst.
      destruct (bounded_hint_present params "S" C1 C2 C3) as [pS HpS].
      rewrite HpS. cbn [bind]. eauto.
    + cbn [bind]. eauto.
Qed.

(** When [compile] raises a [KeyError], the key is missing from the
    specification: it is [kBT], with [T] missing too, or it is the first
    missing one among the entries the model needs, in the order
    [Lc], [Lc_lower], [Lc_upper], [Lp], ..., [S], ... *)
Theorem compile_reports_first_missing
        (s : WormLikeChain) (params : gmap string Q) (k : string) :
  compile s params = Raise (KeyError (KStr k)) ->
  params !! k = None /\
  ((k = "kBT" /\ params !! "T" = None) \/
   (temperature_ok params /\
    exists pre post : list string,
      required (model s) = pre ++ k :: post /\
      Forall (fun j => is_Some (params !! j)) pre)).
Proof.
  unfold compile. unfold bind at 1.
  destruct (kBT_hint params) as [pk|e0] eqn:Hk.
  2:{ intros H. injection H as ->. split.
      - revert Hk. unfold kBT_hint, has, item, bind.
        destruct (params !! "kBT") eqn:E1, (params !! "T") eqn:E2;
          cbn [andb negb]; try discriminate.
        + destruct (Qeq_bool _ _); discriminate.
        + intros H. injection H as <-. exact E1.
      - left. revert Hk. unfold kBT_hint, has, item, bind.
        destruct (params !! "kBT") eqn:E1, (params !! "T") eqn:E2;
          cbn [andb negb]; try discriminate.
        + destruct (Qeq_bool _ _); discriminate.
        + intros H. injection H as <-. auto. }
  apply kBT_hint_Ok in Hk. destruct Hk as [Ht _].
  unfold bind at 1.
  destruct (bounded_hint params "Lc") as [pLc|e1] eqn:HLc.
  2:{ intros H. injection H as ->.
      apply bounded_hint_KeyError in HLc.
      destruct HLc as (pre & post & k' & Hl & Hk' & Hnone & Hpre).
      injection Hk' as <-. split; [exact Hnone|]. right. split; [exact Ht|].
      exists pre. eexists. split; [|exact Hpre].
      unfold required.
      change ["Lc"; String.append "Lc" "_lower"; String.append "Lc" "_upper"]
        with ["Lc"; "Lc_lower"; "Lc_upper"] in Hl.
      change ["Lc"; "Lc_lower"; "Lc_upper"; "Lp"; "Lp_lower"; "Lp_upper"]
        with (["Lc"; "Lc_lower"; "Lc_upper"] ++ ["Lp"; "Lp_lower"; "Lp_upper"]).
      rewrite Hl, <- !app_assoc. reflexivity. }
  apply bounded_hint_Ok in HLc.
  destruct HLc as (v1 & l1 & h1 & A1 & A2 & A3 & _).
  unfold bind at 1.
  destruct (bounded_hint params "Lp") as [pLp|e2] eqn:HLp.
  2:{ intros H. injection H as ->.
      apply bounded_hint_KeyError in HLp.
      destruct HLp as (pre & post & k' & Hl & Hk' & Hnone & Hpre).
      injection Hk' as <-. split; [exact Hnone|]. right. split; [exact Ht|].
      exists (["Lc"; "Lc_lower"; "Lc_upper"] ++ pre). eexists. split.
      - unfold required.
      change ["Lp"; String.append "Lp" "_lower"; String.append "Lp" "_upper"]
        with ["Lp"; "Lp_lower"; "Lp_upper"] in Hl.
        change ["Lc"; "Lc_lower"; "Lc_upper"; "Lp"; "Lp_lower"; "Lp_upper"]
          with (["Lc"; "Lc_lower"; "Lc_upper"]
                  ++ ["Lp"; "Lp_lower"; "Lp_upper"]).
        rewrite Hl, <- !app_assoc. reflexivity.
      - apply Forall_app. split; [|exact Hpre].
        repeat constructor; eauto. }
  apply bounded_hint_Ok in HLp.
  destruct HLp as (v2 & l2 & h2 & B1 & B2 & B3 & _).
  cbv zeta. fold (needs_S (model s)).
  destruct (needs_S (model s)) eqn:HnS; [|discriminate].
  unfold bind at 2.
  destruct (bounded_hint params "S") as [pS|e3] eqn:HS; [discriminate|].
  cbn [bind]. intros H. injection H as ->.
  apply bounded_hint_KeyError in HS.
  destruct HS as (pre & post & k' & Hl & Hk' & Hnone & Hpre).
  injection Hk' as <-. split; [exact Hnone|]. right. split; [exact Ht|].
  exists (["Lc"; "Lc_lower"; "Lc_upper"; "Lp"; "Lp_lower"; "Lp_upper"] ++ pre).
  eexists. split.
  - unfold required. rewrite HnS. change (["S"; String.append "S" "_lower"; String.append "S" "_upper"])
      with ["S"; "S_lower"; "S_upper"] in Hl.
    rewrite Hl, <- !app_assoc. reflexivity.
  - apply Forall_app. split; [|exact Hpre]. repeat constructor; eauto.
Qed.

(** A specification with [Lp_lower] missing: [compile] reports that key,
    after having read [Lc], its bounds and [Lp]. *)
Lemma compile_reports_first_missing_witness :
  delete "Lp_lower" demo.spec !! "Lp_lower" = None /\
  (("Lp_lower" = "kBT" /\ delete "Lp_lower" demo.spec !! "T" = None) \/
   (temperature_ok (delete "Lp_lower" demo.spec) /\
    exists pre post : list string,
      required "WLC" = pre ++ "Lp_lower" :: post /\
      Forall (fun j => is_Some (delete "Lp_lower" demo.spec !! j)) pre)).
Proof.
  apply (compile_reports_first_missing (new f_WLC "WLC")
                                       (delete "Lp_lower" demo.spec)).
  vm_compute. reflexivity.
Defined.

Lemma built_hint (v lo hi : Q) : built (hint_bounded v lo hi) v lo hi.
Proof.
  unfold built, hint_bounded, clip. cbn [Param.min Param.max Param.vary
                                         Param.value].
  split_and!; try reflexivity. intros Hlo Hhi.
  apply Qle_bool_iff in Hlo, Hhi. rewrite Hlo, Hhi. reflexivity.
Qed.

(** What a successful [compile] leaves on the instance.  Only the
    attribute [fparams] changes.  It holds [kBT], with the value given or
    computed from [T], no bounds and held constant; each of [Lc], [Lp]
    (and [S] for "odijk" and "eWLC") free to vary, with its bounds from
    the specification and, when that lies within them, its value; and
    nothing else. *)
Theorem compile_builds_parameters
        (s s' : WormLikeChain) (params : gmap string Q) :
  compile s params = Ok s' ->
  (model s' = model s /\ func s' = func s /\ result s' = result s /\
   df_full s' = df_full s) /\
  exists fp : Parameters,
    fparams s' = Some fp /\
    (exists k : Q, kBT_of params = Some k /\
                   fp !! "kBT" = Some (Param.mk k NInf PInf false)) /\
    (forall name : string,
        In name (bounded_names (model s)) ->
        exists v lo hi : Q,
          params !! name = Some v /\
          params !! String.append name "_lower" = Some lo /\
          params !! String.append name "_upper" = Some hi /\
          exists p : Param.t, fp !! name = Some p /\ built p v lo hi) /\
    (forall name : string,
        is_Some (fp !! name) ->
        In name ("kBT" :: bounded_names (model s))).
Proof.
  intros H. apply compile_Ok in H.
  destruct H as (pk & pLc & pLp & hints & Hk & HLc & HLp & HS & ->).
  split; [split_and!; reflexivity|].
  eexists. split; [reflexivity|].
  apply kBT_hint_Ok in Hk. destruct Hk as (_ & k & Hk & ->).
  apply bounded_hint_Ok in HLc, HLp.
  destruct HLc as (v1 & l1 & h1 & A1 & A2 & A3 & ->).
  destruct HLp as (v2 & l2 & h2 & B1 & B2 & B3 & ->).
  unfold bounded_names.
  destruct (needs_S (model s)).
  - destruct HS as (pS & HS & ->). apply bounded_hint_Ok in HS.
    destruct HS as (v3 & l3 & h3 & C1 & C2 & C3 & ->).
    split_and!.
    + exists k. split; [exact Hk|].
      rewrite lookup_alter_eq.
      rewrite lookup_insert_ne, lookup_insert_ne, lookup_insert_ne,
        lookup_insert_eq by discriminate.
      reflexivity.
    + intros name [<-|[<-|[<-|[]]]].
      * exists v1, l1, h1. split_and!; try assumption.
        eexists. split; [reflexivity | apply built_hint].
      * exists v2, l2, h2. split_and!; try assumption.
        eexists. split; [reflexivity | apply built_hint].
      * exists v3, l3, h3. split_and!; try assumption.
        eexists. split; [reflexivity | apply built_hint].
    + intros name [p Hp].
      destruct (decide (name = "kBT")) as [->|N0]; [left; reflexivity|].
      destruct (decide (name = "Lc")) as [->|N1];
        [right; left; reflexivity|].
      destruct (decide (name = "Lp")) as [->|N2];
        [right; right; left; reflexivity|].
      destruct (decide (name = "S")) as [->|N3];
        [right; right; right; left; reflexivity|].
      exfalso. rewrite lookup_alter_ne in Hp by congruence.
      rewrite !lookup_insert_ne in Hp by congruence.
      rewrite lookup_empty in Hp. discriminate.
  - subst hints. split_and!.
    + exists k. split; [exact Hk|].
      rewrite lookup_alter_eq.
      rewrite lookup_insert_ne, lookup_insert_ne, lookup_insert_eq
        by discriminate.
      reflexivity.
    + intros name [<-|[<-|[]]].
      * exists v1, l1, h1. split_and!; try assumption.
        eexists. split; [reflexivity | apply built_hint].
      * exists v2, l2, h2. split_and!; try assumption.
        eexists. split; [reflexivity | apply built_hint].
    + intros name [p Hp].
      destruct (decide (name = "kBT")) as [->|N0]; [left; reflexivity|].
      destruct (decide (name = "Lc")) as [->|N1];
        [right; left; reflexivity|].
      destruct (decide (name = "Lp")) as [->|N2];
        [right; right; left; reflexivity|].
      exfalso. rewrite lookup_alter_ne in Hp by congruence.
      rewrite !lookup_insert_ne in Hp by congruence.
      rewrite lookup_empty in Hp. discriminate.
Qed.

(** The compiled "WLC" instance of the examples. *)
Lemma compile_builds_parameters_witness :
  (model demo.instance = model (new f_WLC "WLC") /\
   func demo.instance = func (new f_WLC "WLC") /\
   result demo.instance = result (new f_WLC "WLC") /\
   df_full demo.instance = df_full (new f_WLC "WLC")) /\
  exists fp : Parameters,
    fparams demo.instance = Some fp /\
    (exists k : Q, kBT_of demo.spec = Some k /\
                   fp !! "kBT" = Some (Param.mk k NInf PInf false)) /\
    (forall name : string,
        In name (bounded_names (model (new f_WLC "WLC"))) ->
        exists v lo hi : Q,
          demo.spec !! name = Some v /\
          demo.spec !! String.append name "_lower" = Some lo /\
          demo.spec !! String.append name "_upper" = Some hi /\
          exists p : Param.t, fp !! name = Some p /\ built p v lo hi) /\
    (forall name : string,
        is_Some (fp !! name) ->
        In name ("kBT" :: bounded_names (model (new f_WLC "WLC")))).
Proof.
  apply (compile_builds_parameters (new f_WLC "WLC") demo.instance demo.spec).
  vm_compute. reflexivity.
Defined.

End compile_more.

(* ===================================================================== *)
(** * The course of a run of [fit] *)
(* ===================================================================== *)

Module run_more.
Import fitting fit_spec compile_spec run_spec.
Import fitting_props filter_props run_props accepted_props compile_more.

(** ** Reading an exception out of the monad *)

Lemma bind_Fail {A B : Type} (m : M A) (k : A -> M B) (w w' : World)
      (e : Exception) :
  mbind' m k w = Fail e w' ->
  m w = Fail e w' \/
  exists (a : A) (w1 : World), m w = Done a w1 /\ k a w1 = Fail e w'.
Proof.
  unfold mbind'. destruct (m w) as [a w1 | e1 w1 |]; intros H.
  - right. eauto.
  - left. injection H as <- <-. reflexivity.
  - discriminate H.
Qed.

Lemma ret_Fail {A : Type} (a : A) (w w' : World) (e : Exception) :
  ret a w <> Fail e w'.
Proof. unfold ret. discriminate. Qed.

Lemma param_Fail (ps : Parameters) (name : string) (w w' : World)
      (e : Exception) :
  param ps name w = Fail e w' ->
  ps !! name = None /\ e = KeyError (KStr name) /\ w' = w.
Proof.
  unfold param. destruct (ps !! name); unfold ret, raise; intros H.
  - discriminate.
  - injection H as <- <-. auto.
Qed.

Lemma loc_Lp_Fail (d : DataFrame) (k : nat) (w w' : World) (e : Exception) :
  loc_Lp d k w = Fail e w' ->
  d !! k = None /\ e = KeyError (KInt k) /\ w' = w.
Proof.
  unfold loc_Lp. destruct (d !! k); unfold ret, raise; intros H.
  - discriminate.
  - injection H as <- <-. auto.
Qed.

(** ** What depends on the instance only through its model and function *)

Lemma the_call_frame data method (s s' : WormLikeChain) (ps : Parameters) :
  model s = model s' -> func s = func s' ->
  the_call data method s ps = the_call data method s' ps.
Proof. unfold the_call. intros -> ->. reflexivity. Qed.

Lemma row_of_frame filename (s s' : WormLikeChain) r pc pp n delta :
  model s = model s' ->
  row_of filename s r pc pp n delta = row_of filename s' r pc pp n delta.
Proof. unfold row_of, fitted_S. intros ->. reflexivity. Qed.

Lemma bounded_names_Lc (name : string) : In "Lc" (bounded_names name).
Proof. unfold bounded_names. apply in_or_app. left. cbn. auto. Qed.

Lemma bounded_names_Lp (name : string) : In "Lp" (bounded_names name).
Proof. unfold bounded_names. apply in_or_app. left. cbn. auto. Qed.

Lemma bounded_names_S (name : string) :
  needs_S name = true -> In "S" (bounded_names name).
Proof.
  unfold bounded_names. intros ->. apply in_or_app. right. cbn. auto.
Qed.

(** ** The parameters between iterations *)

Lemma restart_insert (ps0 : Parameters) (bp : Param.t) (v : Q) :
  ps0 !! "Lp" = Some bp ->
  <["Lp" := Param.set bp v]> ps0 = restart ps0 v.
Proof.
  intros H. unfold restart. apply map_eq. intros k.
  destruct (decide (k = "Lp")) as [-> | N].
  - rewrite lookup_insert_eq, lookup_alter_eq, H. reflexivity.
  - rewrite lookup_insert_ne, lookup_alter_ne by congruence. reflexivity.
Qed.

Lemma restart_restart (ps0 : Parameters) (bp : Param.t) (u v : Q) :
  restart ps0 u !! "Lp" = Some bp ->
  <["Lp" := Param.set bp v]> (restart ps0 u) = restart ps0 v.
Proof.
  unfold restart. rewrite lookup_alter_eq.
  destruct (ps0 !! "Lp") as [bp0|] eqn:H0; [|discriminate].
  cbn. intros H. injection H as <-.
  apply map_eq. intros k.
  destruct (decide (k = "Lp")) as [-> | N].
  - rewrite lookup_insert_eq, lookup_alter_eq, H0. reflexivity.
  - rewrite lookup_insert_ne, !lookup_alter_ne by congruence. reflexivity.
Qed.

Lemma since_next (ps0 ps : Parameters) (bp : Param.t) (v : Q) :
  since ps0 ps -> ps !! "Lp" = Some bp ->
  <["Lp" := Param.set bp v]> ps = restart ps0 v.
Proof.
  intros [-> | [u ->]] H.
  - apply restart_insert. exact H.
  - apply (restart_restart _ _ u). exact H.
Qed.

Lemma since_Lc (ps0 ps : Parameters) : since ps0 ps -> ps !! "Lc" = ps0 !! "Lc".
Proof.
  intros [-> | [u ->]]; [reflexivity|].
  unfold restart. rewrite lookup_alter_ne by discriminate. reflexivity.
Qed.

Lemma since_Lp (ps0 ps : Parameters) (bp : Param.t) :
  since ps0 ps -> ps !! "Lp" = Some bp ->
  exists bp0 : Param.t,
    ps0 !! "Lp" = Some bp0 /\
    Param.min bp = Param.min bp0 /\ Param.max bp = Param.max bp0.
Proof.
  intros [-> | [u ->]] H.
  - exists bp. auto.
  - unfold restart in H. rewrite lookup_alter_eq in H.
    destruct (ps0 !! "Lp") as [bp0|]; [|discriminate].
    cbn in H. injection H as <-. exists bp0. auto.
Qed.

Lemma since_None (ps0 ps : Parameters) (k : string) :
  since ps0 ps -> ps !! k = None -> ps0 !! k = None.
Proof.
  intros [-> | [u ->]] H; [exact H|].
  unfold restart in H.
  destruct (decide (k = "Lp")) as [-> | N].
  - rewrite lookup_alter_eq in H. destruct (ps0 !! "Lp"); [discriminate|].
    reflexivity.
  - rewrite lookup_alter_ne in H by congruence. exact H.
Qed.

Lemma inside_bounds (v : Q) (p q : Param.t) :
  Param.min p = Param.min q -> Param.max p = Param.max q ->
  inside v p <-> inside v q.
Proof. unfold inside. intros -> ->. reflexivity. Qed.

(** ** One iteration that raises *)

Section Raise.
Variable minimize : Minimizer.
Variable data : list Q * list Q.
Variable filename : option string.
Variable method : string.

(** The minimizer call raises only for a name missing from the result. *)
Lemma fit_model_Fail (w w' : World) (ps : Parameters) (e : Exception) :
  fparams (self w) = Some ps ->
  fit_model minimize data method w = Fail e w' ->
  exists k : string,
    e = KeyError (KStr k) /\ In k (bounded_names (model (self w))) /\
    params (minimize (the_call data method (self w) ps)) !! k = None.
Proof.
  intros Hps. unfold fit_model, the_call, bounded_names, needs_S.
  destruct data as [d F]. cbn [fst snd].
  cbv beta iota delta [mbind' get_model get_func].
  destruct (String.eqb (model (self w)) "odijk");
    [| destruct (String.eqb (model (self w)) "eWLC")];
    cbv beta iota delta [mbind' get_fparams call_fit param ret raise];
    rewrite Hps; cbn [orb app];
    match goal with
    | |- context [params ?r !! "Lc"] =>
        destruct (params r !! "Lc") eqn:ELc;
        [destruct (params r !! "Lp") eqn:ELp;
         [try destruct (params r !! "S") eqn:ES|]|]
    end;
    intros H; try discriminate H; injection H as <- <-;
    eexists; (split; [reflexivity|]); (split; [|eassumption]);
    cbn [In]; auto.
Qed.

(** An iteration on a compiled instance raises only a [KeyError]: for a
    name missing from the result or from the parameters, or for the label
    of the row before, missing from the table. *)
Lemma fit_body_Fail (l : Locals) (w w' : World) (ps : Parameters)
      (e : Exception) :
  fparams (self w) = Some ps ->
  fit_body minimize data filename method l w = Fail e w' ->
  (exists k : string,
      e = KeyError (KStr k) /\ In k (bounded_names (model (self w))) /\
      (params (minimize (the_call data method (self w) ps)) !! k = None \/
       ps !! k = None)) \/
  (e = KeyError (KInt (i l - 1)) /\ (0 < i l)%nat /\
   df l !! (i l - 1)%nat = None).
Proof.
  intros Hps. unfold fit_body. intros H.
  apply bind_Fail in H. destruct H as [H | ([[[Lc Lp] Sv] chi] & w1 & H1 & H)].
  { apply (fit_model_Fail _ _ ps) in H; [|exact Hps].
    destruct H as (k & -> & Hin & Hk). left. exists k. auto. }
  apply fit_model_Done in H1.
  destruct H1 as (ps1 & r & pc & pp & Hps1 & Hr & Hc & -> & Hp & -> & -> & -> & ->).
  rewrite Hps in Hps1. injection Hps1 as <-.
  apply bind_Fail in H. destruct H as [H | (dLp' & w2 & H2 & H)].
  { destruct (0 <? i l)%nat eqn:Ei; [|exfalso; exact (ret_Fail _ _ _ _ H)].
    apply Nat.ltb_lt in Ei.
    apply bind_Fail in H. destruct H as [H | (pv & w3 & _ & H)];
      [|exfalso; exact (ret_Fail _ _ _ _ H)].
    apply loc_Lp_Fail in H. destruct H as (Hnone & -> & _).
    right. auto. }
  assert (E2 : w2 = {| self := with_result (self w) r;
                       calls := calls w ++ [the_call data method (self w) ps] |}).
  { destruct (0 <? i l)%nat.
    - apply bind_Done in H2. destruct H2 as (pv & w3 & H3 & H2).
      apply loc_Lp_Done in H3. destruct H3 as (prev & _ & _ & ->).
      apply ret_Done in H2. destruct H2 as [_ ->]. reflexivity.
    - apply ret_Done in H2. destruct H2 as [_ ->]. reflexivity. }
  subst w2. clear H2.
  apply bind_Fail in H. destruct H as [H | (ps' & w3 & H3 & H)].
  { unfold get_fparams in H. cbn [self with_result fparams] in H.
    rewrite Hps in H. discriminate H. }
  apply get_fparams_Done in H3. cbn [self with_result fparams] in H3.
  destruct H3 as [Hps' ->]. rewrite Hps in Hps'. injection Hps' as <-.
  apply bind_Fail in H. destruct H as [H | (bc & w4 & H4 & H)].
  { apply param_Fail in H. destruct H as (Hnone & -> & _).
    left. exists "Lc". split; [reflexivity|].
    split; [apply bounded_names_Lc | right; exact Hnone]. }
  apply param_Done in H4. destruct H4 as [Hbc ->].
  apply bind_Fail in H. destruct H as [H | (df' & w5 & H5 & H)].
  { destruct (out_of_bounds (Param.value pc) bc);
      [exfalso; exact (ret_Fail _ _ _ _ H)|].
    apply bind_Fail in H. destruct H as [H | (pLp & w6 & _ & H)].
    - apply param_Fail in H. destruct H as (Hnone & -> & _).
      left. exists "Lp". split; [reflexivity|].
      split; [apply bounded_names_Lp | right; exact Hnone].
    - destruct (out_of_bounds (Param.value pp) pLp);
        exfalso; exact (ret_Fail _ _ _ _ H). }
  assert (E5 : w5 = {| self := with_result (self w) r;
                       calls := calls w ++ [the_call data method (self w) ps] |}).
  { destruct (out_of_bounds (Param.value pc) bc).
    - apply ret_Done in H5. destruct H5 as [_ ->]. reflexivity.
    - apply bind_Done in H5. destruct H5 as (pLp & w6 & H6 & H5).
      apply param_Done in H6. destruct H6 as [_ ->].
      destruct (out_of_bounds (Param.value pp) pLp);
        apply ret_Done in H5; destruct H5 as [_ ->]; reflexivity. }
  subst w5. clear H5.
  apply bind_Fail in H. destruct H as [H | (u & w6 & _ & H)];
    [|exfalso; exact (ret_Fail _ _ _ _ H)].
  unfold set_param in H.
  apply bind_Fail in H. destruct H as [H | (ps6 & w6 & H6 & H)].
  { unfold get_fparams in H. cbn [self with_result fparams] in H.
    rewrite Hps in H. discriminate H. }
  apply get_fparams_Done in H6. cbn [self with_result fparams] in H6.
  destruct H6 as [Hps6 ->]. rewrite Hps in Hps6. injection Hps6 as <-.
  apply bind_Fail in H. destruct H as [H | (p & w7 & _ & H)];
    [|discriminate H].
  apply param_Fail in H. destruct H as (Hnone & -> & _).
  left. exists "Lp". split; [reflexivity|].
  split; [apply bounded_names_Lp | right; exact Hnone].
Qed.

End Raise.

(** ** The loop, one iteration after the other *)

Section Trace.
Variable minimize : Minimizer.
Variable data : list Q * list Q.
Variable min_delta : Q.
Variable max_iters : nat.
Variable filename : option string.
Variable method : string.
Variable w0 : World.
Variable ps0 : Parameters.

Lemma continues_lt (l : Locals) :
  continues min_delta max_iters l = true -> (i l < max_iters)%nat.
Proof.
  unfold continues. intros H. apply andb_true_iff in H.
  destruct H as [_ H]. apply Nat.ltb_lt in H. exact H.
Qed.

(** A property that every iteration keeps holds when the loop exits; a
    property of every iteration that raises holds when the loop raises;
    and with fuel for the iterations left the loop does one or the
    other. *)
Lemma fit_loop_rule (Inv : Locals -> World -> Prop)
      (Bad : Exception -> World -> Prop) :
  (forall (l : Locals) (w : World),
      Inv l w -> continues min_delta max_iters l = true ->
      match fit_body minimize data filename method l w with
      | Done l' w' => Inv l' w' /\ i l' = S (i l)
      | Fail e w' => Bad e w'
      | OutOfFuel => False
      end) ->
  forall (fuel : nat) (l : Locals) (w : World),
    Inv l w -> (max_iters - i l <= fuel)%nat ->
    match fit_loop minimize data min_delta max_iters filename method fuel l w
    with
    | Done l' w' => Inv l' w' /\ continues min_delta max_iters l' = false
    | Fail e w' => Bad e w'
    | OutOfFuel => False
    end.
Proof.
  intros Hstep fuel. induction fuel as [|fuel IH]; intros l w HI Hfuel;
    destruct (continues min_delta max_iters l) eqn:Hc.
  - apply continues_lt in Hc. lia.
  - rewrite fit_loop_exit by exact Hc. auto.
  - rewrite fit_loop_step by exact Hc. unfold mbind'.
    specialize (Hstep l w HI Hc).
    destruct (fit_body minimize data filename method l w)
      as [l' w' | e w' |]; [|exact Hstep|exact Hstep].
    destruct Hstep as [HI' Hi']. apply IH; [exact HI'|].
    apply continues_lt in Hc. lia.
  - rewrite fit_loop_exit by exact Hc. auto.
Qed.

Lemma latest_since (l : Locals) (w : World) (cs : list FitCall) :
  latest minimize w0 ps0 l w cs ->
  exists ps : Parameters,
    fparams (self w) = Some ps /\ since ps0 ps /\
    match last cs with
    | None => ps = ps0
    | Some c =>
        exists pp : Param.t,
          params (minimize c) !! "Lp" = Some pp /\
          ps = restart ps0 (Param.value pp)
    end.
Proof.
  unfold latest. destruct (last cs) as [c|].
  - intros (pp & Hpp & Hps & _). eexists. split; [exact Hps|].
    split; [right; eauto | eauto].
  - intros (Hps & _). exists ps0. split; [exact Hps|].
    split; [left; reflexivity | reflexivity].
Qed.

Lemma singleton_lookup {A : Type} (x y : A) (n : nat) :
  [x] !! n = Some y -> n = 0%nat /\ y = x.
Proof.
  destruct n as [|n]; cbn; intros H; [injection H as <-; auto|].
  destruct n; discriminate H.
Qed.

Lemma chained_snoc (cs : list FitCall) (ps : Parameters) :
  chained minimize data method (self w0) ps0 cs ->
  match last cs with
  | None => ps = ps0
  | Some c =>
      exists pp : Param.t,
        params (minimize c) !! "Lp" = Some pp /\
        ps = restart ps0 (Param.value pp)
  end ->
  chained minimize data method (self w0) ps0
          (cs ++ [the_call data method (self w0) ps]).
Proof.
  intros [H0 HS] Hlast. split.
  - intros c Hc. destruct cs as [|c1 cs'].
    + cbn in Hc. injection Hc as <-. cbn in Hlast. rewrite Hlast.
      reflexivity.
    + apply H0. exact Hc.
  - intros k c c' Hk HSk.
    apply lookup_app_Some in HSk. destruct HSk as [HSk | [Hge HSk]].
    + apply lookup_app_Some in Hk. destruct Hk as [Hk | [Hge _]].
      * exact (HS k c c' Hk HSk).
      * apply lookup_lt_Some in HSk. lia.
    + apply singleton_lookup in HSk. destruct HSk as [Hz ->].
      apply lookup_app_Some in Hk. destruct Hk as [Hk | [Hge' _]]; [|lia].
      rewrite last_lookup in Hlast.
      replace (pred (length cs)) with k in Hlast by lia.
      rewrite Hk in Hlast. destruct Hlast as (pp & Hpp & ->).
      exists pp. auto.
Qed.

Lemma row_from_mono (s : WormLikeChain) (cs cs' : list FitCall)
      (rows rows' : DataFrame) (k : nat) (r : Row) :
  (forall (n : nat) (c : FitCall), cs !! n = Some c -> cs' !! n = Some c) ->
  (forall (n : nat) (x : Row), rows !! n = Some x -> rows' !! n = Some x) ->
  row_from minimize filename s ps0 cs rows k r ->
  row_from minimize filename s ps0 cs' rows' k r.
Proof.
  intros Hcs Hrows (c & pc & pp & bc & bp & Hc & H1 & H2 & H3 & H4 & H5 & H6
                    & H7 & H8).
  exists c, pc, pp, bc, bp. split_and!; auto.
  destruct k as [|j]; [exact H8|].
  destruct H8 as (prev & Hprev & Hd). exists prev. auto.
Qed.

(** One iteration keeps the state of the loop consistent, or raises as
    [failed] says. *)
Lemma trace_step (l : Locals) (w : World) :
  trace minimize data max_iters filename method w0 ps0 l w ->
  continues min_delta max_iters l = true ->
  match fit_body minimize data filename method l w with
  | Done l' w' =>
      trace minimize data max_iters filename method w0 ps0 l' w' /\
      i l' = S (i l)
  | Fail e w' => failed minimize data max_iters method w0 ps0 e w'
  | OutOfFuel => False
  end.
Proof.
  intros (Hfr & Hi & cs & Hcalls & Hlen & Hch & Hlat & Hdf & Hrows) Hcont.
  destruct (latest_since l w cs Hlat) as (ps & Hps & Hsince & Hlast).
  apply continues_lt in Hcont.
  destruct Hfr as (Hm & Hf & Hd).
  pose proof (fit_body_calls minimize data filename method l w ps Hps)
    as Hshape.
  pose proof (fun w' e => fit_body_Fail minimize data filename method
                                       l w w' ps e Hps) as Hfail.
  pose proof (fun l' w' => fit_body_Done minimize data filename method
                                         l l' w w') as Hdone.
  rewrite (the_call_frame data method (self w) (self w0) ps Hm Hf)
    in Hshape, Hfail.
  destruct (fit_body minimize data filename method l w)
    as [l' w' | e w' |]; [| |exact Hshape].
  - specialize (Hdone l' w' eq_refl).
    destruct Hdone as (ps1 & r & pc & pp & bc & bp & Hps1 & Hr & Hc & Hp
                       & Hbc & Hbp & HdLp & Hi' & Hdf' & Hw').
    rewrite Hps in Hps1. injection Hps1 as <-.
    rewrite (the_call_frame data method (self w) (self w0) ps Hm Hf)
      in Hr, Hw'.
    rewrite (row_of_frame filename (self w) (self w0)) in Hdf' by exact Hm.
    subst r.
    set (c := the_call data method (self w0) ps) in *.
    assert (Hfull : length (df l) = i l).
    { destruct Hdf as [H | [H _]]; [exact H|].
      destruct HdLp as [[Hi0 _] | (Hpos & prev & Hprev & _)]; [lia|].
      apply lookup_lt_Some in Hprev. lia. }
    assert (HLc0 : ps0 !! "Lc" = Some bc)
      by (rewrite <- (since_Lc ps0 ps Hsince); exact Hbc).
    destruct (since_Lp ps0 ps bp Hsince Hbp) as (bp0 & HLp0 & Hmin & Hmax).
    assert (Hstart : i l = 0%nat -> dLp l = PInf).
    { intros Hi0. rewrite Hi0 in Hlen. apply nil_length_inv in Hlen.
      subst cs. cbn in Hlat. tauto. }
    split; [|lia].
    split; [subst w'; repeat split; cbn; assumption|].
    split; [lia|].
    exists (cs ++ [c]). split_and!.
    + subst w'. cbn [calls]. rewrite Hcalls, <- app_assoc. reflexivity.
    + rewrite length_app. cbn. lia.
    + apply chained_snoc; assumption.
    + unfold latest. rewrite last_snoc. exists pp. split_and!.
      * exact Hp.
      * subst w'. cbn. f_equal. apply since_next; assumption.
      * subst w'. reflexivity.
      * rewrite Hi'.
        destruct HdLp as [[Hi0 HdLp] | (Hpos & prev & Hprev & HdLp)].
        -- rewrite Hi0. cbn. rewrite HdLp. auto.
        -- destruct (i l) as [|j] eqn:Ej; [lia|].
           replace (S j + 1)%nat with (S (S j)) by lia.
           replace (S j - 1)%nat with j in Hprev by lia.
           exists prev. split; [|exact HdLp]. rewrite Hdf'.
           destruct (out_of_bounds _ _ || out_of_bounds _ _);
             [exact Hprev | apply lookup_app_l_Some; exact Hprev].
    + rewrite Hdf', Hi'.
      destruct (out_of_bounds (Param.value pc) bc
                || out_of_bounds (Param.value pp) bp) eqn:Eo.
      * right. split; [lia|]. exists c. split; [apply last_snoc|].
        exists pc, pp, bc, bp0. split_and!; try assumption.
        intros [A B]. apply out_of_bounds_false in A.
        apply (inside_bounds _ bp bp0 Hmin Hmax) in B.
        apply out_of_bounds_false in B. rewrite A, B in Eo. discriminate Eo.
      * left. rewrite length_app. cbn. lia.
    + intros k r0 Hk. rewrite Hdf' in Hk |- *.
      destruct (out_of_bounds (Param.value pc) bc
                || out_of_bounds (Param.value pp) bp) eqn:Eo.
      * apply (row_from_mono _ cs _ (df l));
          [intros; apply lookup_app_l_Some; assumption | auto
           | apply Hrows; exact Hk].
      * apply lookup_app_Some in Hk. destruct Hk as [Hk | [Hge Hk]].
        -- apply (row_from_mono _ cs _ (df l));
             [intros; apply lookup_app_l_Some; assumption
             |intros; apply lookup_app_l_Some; assumption
             | apply Hrows; exact Hk].
        -- apply singleton_lookup in Hk. destruct Hk as [Hz ->].
           assert (Ek : k = i l) by lia. subst k.
           apply orb_false_iff in Eo. destruct Eo as [Ec Ep].
           apply out_of_bounds_false in Ec, Ep.
           apply (inside_bounds _ bp bp0 Hmin Hmax) in Ep.
           exists c, pc, pp, bc, bp0. split_and!; try assumption.
           ++ rewrite lookup_app_r by lia.
              replace (i l - length cs)%nat with 0%nat by lia. reflexivity.
           ++ reflexivity.
           ++ cbn [row_dLp row_of].
              destruct HdLp as [[Hi0 HdLp] | (Hpos & prev & Hprev & HdLp)].
              ** rewrite Hi0. rewrite HdLp. auto.
              ** destruct (i l) as [|j] eqn:Ej; [lia|].
                 replace (S j - 1)%nat with j in Hprev by lia.
                 exists prev. split; [|exact HdLp].
                 apply lookup_app_l_Some. exact Hprev.
  - specialize (Hfail w' e eq_refl).
    set (c := the_call data method (self w0) ps) in *.
    split; [subst w'; repeat split; cbn; assumption|].
    exists (cs ++ [c]), c. split_and!.
    + subst w'. cbn [calls]. rewrite Hcalls, <- app_assoc. reflexivity.
    + rewrite length_app. cbn. lia.
    + apply chained_snoc; assumption.
    + apply last_snoc.
    + subst w'. reflexivity.
    + destruct Hfail as [(k & -> & Hin & Hk) | (-> & Hpos & Hnone)].
      * left. exists k. split; [reflexivity|]. rewrite <- Hm.
        split; [exact Hin|].
        destruct Hk as [Hk | Hk]; [left; exact Hk|].
        right. exact (since_None ps0 ps k Hsince Hk).
      * right. apply lookup_ge_None in Hnone.
        destruct Hdf as [H | (HS & c0 & Hlast0 & Hrej)]; [lia|].
        exists (i l - 1)%nat, c0. split_and!.
        -- reflexivity.
        -- rewrite length_app. cbn. lia.
        -- apply lookup_app_l_Some. rewrite last_lookup in Hlast0.
           replace (pred (length cs)) with (i l - 1)%nat in Hlast0 by lia.
           exact Hlast0.
        -- exact Hrej.
Qed.

End Trace.

(** ** The whole run *)

Section Course.
Variable minimize : Minimizer.
Variable data : list Q * list Q.
Variable min_delta : Q.
Variable max_iters : nat.
Variable filename : option string.
Variable method : string.

Lemma trace_start (w : World) (ps0 : Parameters) :
  fparams (self w) = Some ps0 ->
  trace minimize data max_iters filename method w ps0
        {| df := []; dLp := PInf; i := 0 |} w.
Proof.
  intros Hps. split; [repeat split|]. split; [cbn; lia|].
  exists []. split_and!.
  - rewrite app_nil_r. reflexivity.
  - reflexivity.
  - split; intros; discriminate.
  - cbn. auto.
  - left. reflexivity.
  - intros k r H. destruct k; discriminate H.
Qed.

(** The outcomes of [fit] on a compiled instance: it returns the summary
    of the last row after a loop that stayed consistent, or raises
    [IndexError] after such a loop with an empty table, or one of its
    iterations raised. *)
Lemma fit_course (w : World) (ps0 : Parameters) :
  fparams (self w) = Some ps0 ->
  match fit minimize data min_delta max_iters filename method w with
  | Done s w' =>
      exists (l : Locals) (w1 : World) (r : Row),
        trace minimize data max_iters filename method w ps0 l w1 /\
        continues min_delta max_iters l = false /\
        last (df l) = Some r /\ s = summary_of r /\
        w' = {| self := with_df_full (self w1) (df l); calls := calls w1 |}
  | Fail e w' =>
      failed minimize data max_iters method w ps0 e w' \/
      (e = IndexError /\
       exists l : Locals,
         trace minimize data max_iters filename method w ps0 l w' /\
         continues min_delta max_iters l = false /\ df l = [])
  | OutOfFuel => False
  end.
Proof.
  intros Hps. unfold fit. unfold mbind' at 1.
  pose proof (fit_loop_rule minimize data min_delta max_iters filename method
                (trace minimize data max_iters filename method w ps0)
                (failed minimize data max_iters method w ps0)
                (trace_step minimize data min_delta max_iters filename
                            method w ps0)
                max_iters {| df := []; dLp := PInf; i := 0 |} w
                (trace_start w ps0 Hps)) as H.
  cbn [i] in H. specialize (H ltac:(lia)).
  destruct (fit_loop minimize data min_delta max_iters filename method
                     max_iters {| df := []; dLp := PInf; i := 0 |} w)
    as [l w1 | e w1 |]; [| left; exact H | exact H].
  destruct H as [HT Hc]. unfold mbind', last_row.
  destruct (last (df l)) as [r|] eqn:Hlast.
  - cbn. exists l, w1, r. auto.
  - cbn. right. split; [reflexivity|]. exists l.
    apply last_None in Hlast. auto.
Qed.

(** Before [compile] no iteration starts. *)
Lemma fit_uncompiled (w : World) :
  fparams (self w) = None ->
  fit minimize data min_delta max_iters filename method w
  = Fail (if (max_iters =? 0)%nat then IndexError
          else AttributeError "fparams") w.
Proof.
  intros Hps. unfold fit. unfold mbind' at 1.
  destruct max_iters as [|n] eqn:En.
  - rewrite fit_loop_exit; [reflexivity|].
    unfold continues. cbn. reflexivity.
  - rewrite fit_loop_step by reflexivity. unfold mbind' at 1.
    rewrite fit_body_uncompiled by exact Hps. reflexivity.
Qed.

Lemma latest_result (w0 : World) (ps0 : Parameters) (l : Locals) (w : World)
      (cs : list FitCall) :
  latest minimize w0 ps0 l w cs ->
  match last cs with
  | Some c => result (self w) = Some (minimize c)
  | None => result (self w) = result (self w0)
  end.
Proof.
  unfold latest. destruct (last cs).
  - intros (pp & _ & _ & H & _). exact H.
  - intros (_ & H & _). exact H.
Qed.

(** Why a consistent loop has stopped: the budget is used up, or the
    latest fitted [Lp] is within [min_delta] of the [Lp] in the row of the
    call before. *)
Lemma trace_stopped (w0 : World) (ps0 : Parameters) (l : Locals) (w : World) :
  trace minimize data max_iters filename method w0 ps0 l w ->
  continues min_delta max_iters l = false ->
  exists cs : list FitCall,
    calls w = calls w0 ++ cs /\ length cs = i l /\
    (i l = max_iters \/
     exists (j : nat) (c : FitCall) (pp : Param.t) (prev : Row),
       i l = S (S j) /\ last cs = Some c /\
       params (minimize c) !! "Lp" = Some pp /\
       df l !! j = Some prev /\
       Qabs (Param.value pp - row_Lp prev) <= min_delta).
Proof.
  intros (_ & Hi & cs & Hcalls & Hlen & _ & Hlat & _) Hc.
  exists cs. split; [exact Hcalls|]. split; [exact Hlen|].
  unfold continues in Hc. apply andb_false_iff in Hc.
  destruct Hc as [Hc | Hc]; [|apply Nat.ltb_ge in Hc; left; lia].
  unfold latest in Hlat. destruct (last cs) as [c|].
  - destruct Hlat as (pp & Hpp & _ & _ & Hd).
    destruct (i l) as [|[|j]].
    + rewrite Hd in Hc. discriminate Hc.
    + rewrite Hd in Hc. discriminate Hc.
    + destruct Hd as (prev & Hprev & Hd). right.
      exists j, c, pp, prev. split_and!; auto.
      rewrite Hd in Hc. unfold Ext_gtb, Ext_leb in Hc.
      apply negb_false_iff in Hc. apply Qle_bool_iff in Hc. exact Hc.
  - destruct Hlat as (_ & _ & Hd). rewrite Hd in Hc. discriminate Hc.
Qed.

End Course.

(** ** What a run does, seen from outside *)

(** [fit] on an instance that has not been compiled raises
    [AttributeError] for [fparams] in its first iteration: no minimizer
    call is made and the instance is as the constructor left it. *)
Theorem fit_before_compile
        (minimize : Minimizer) (data : list Q * list Q) (min_delta : Q)
        (max_iters : nat) (filename : option string) (method : string)
        (name : string) (s : WormLikeChain) (cs : list FitCall) :
  init name = Ok s -> (1 <= max_iters)%nat ->
  fit minimize data min_delta max_iters filename method
      {| self := s; calls := cs |}
  = Fail (AttributeError "fparams") {| self := s; calls := cs |}.
Proof.
  intros Hinit Hmax.
  assert (Hps : fparams s = None).
  { unfold init in Hinit.
    repeat match type of Hinit with
           | (if ?b then _ else _) = _ => destruct b
           end;
      try discriminate Hinit; injection Hinit as <-; reflexivity. }
  rewrite fit_uncompiled by exact Hps.
  destruct max_iters; [lia | reflexivity].
Qed.

Lemma fit_before_compile_witness :
  fit demo.steady demo.data 1 10 None "leastsq" demo_run.uncompiled
  = Fail (AttributeError "fparams") demo_run.uncompiled.
Proof.
  apply (fit_before_compile demo.steady demo.data 1 10%nat None "leastsq"
                            "WLC" (new f_WLC "WLC") []).
  - reflexivity.
  - lia.
Defined.

(** Whatever its outcome, [fit] leaves the model name and the function of
    the instance alone, and [self.result] is the answer to the last
    minimizer call of the run, or untouched if the run made none.  The
    table [df_full] is assigned when [fit] returns and untouched when it
    raises. *)
Theorem fit_leaves
        (minimize : Minimizer) (data : list Q * list Q) (min_delta : Q)
        (max_iters : nat) (filename : option string) (method : string)
        (w : World) :
  let left_alone (w' : World) : Prop :=
    model (self w') = model (self w) /\ func (self w') = func (self w) /\
    exists cs : list FitCall,
      calls w' = calls w ++ cs /\
      match last cs with
      | Some c => result (self w') = Some (minimize c)
      | None => result (self w') = result (self w)
      end in
  match fit minimize data min_delta max_iters filename method w with
  | Done _ w' => left_alone w' /\ is_Some (df_full (self w'))
  | Fail _ w' => left_alone w' /\ df_full (self w') = df_full (self w)
  | OutOfFuel => False
  end.
Proof.
  intros left_alone. destruct (fparams (self w)) as [ps0|] eqn:Hps.
  - pose proof (fit_course minimize data min_delta max_iters filename method
                           w ps0 Hps) as H.
    destruct (fit minimize data min_delta max_iters filename method w)
      as [s w' | e w' |]; [| |exact H].
    + destruct H as (l & w1 & r & HT & _ & _ & _ & ->).
      destruct HT as ((Hm & Hf & _) & _ & cs & Hcalls & _ & _ & Hlat & _).
      apply latest_result in Hlat.
      split; [|cbn; eauto].
      split; [exact Hm|]. split; [exact Hf|]. exists cs. auto.
    + destruct H as [H | (_ & l & HT & _ & _)].
      * destruct H as ((Hm & Hf & Hd) & cs & c & Hcalls & _ & _ & Hlast
                       & Hres & _).
        split; [|exact Hd]. split; [exact Hm|]. split; [exact Hf|].
        exists cs. rewrite Hlast. auto.
      * destruct HT as ((Hm & Hf & Hd) & _ & cs & Hcalls & _ & _ & Hlat & _).
        apply latest_result in Hlat.
        split; [|exact Hd]. split; [exact Hm|]. split; [exact Hf|].
        exists cs. auto.
  - rewrite fit_uncompiled by exact Hps.
    split; [|reflexivity]. split; [reflexivity|]. split; [reflexivity|].
    exists []. rewrite app_nil_r. cbn. auto.
Qed.

(** On a compiled instance every minimizer call of a run has the
    function, data, binding and method of the run; the first has the
    parameters of the instance and every later one these parameters with
    [Lp] set to the value fitted by the call before it.  This holds for
    the calls made before an exception as well. *)
Theorem fit_call_sequence
        (minimize : Minimizer) (data : list Q * list Q) (min_delta : Q)
        (max_iters : nat) (filename : option string) (method : string)
        (w : World) (ps0 : Parameters) :
  fparams (self w) = Some ps0 ->
  ends_in (fit minimize data min_delta max_iters filename method w)
          (fun w' => exists cs : list FitCall,
                       calls w' = calls w ++ cs /\
                       chained minimize data method (self w) ps0 cs).
Proof.
  intros Hps.
  pose proof (fit_course minimize data min_delta max_iters filename method
                         w ps0 Hps) as H.
  destruct (fit minimize data min_delta max_iters filename method w)
    as [s w' | e w' |]; cbn [ends_in]; [| |exact H].
  - destruct H as (l & w1 & r & HT & _ & _ & _ & ->).
    destruct HT as (_ & _ & cs & Hcalls & _ & Hch & _).
    exists cs. auto.
  - destruct H as [H | (_ & l & HT & _ & _)].
    + destruct H as (_ & cs & c & Hcalls & _ & Hch & _). exists cs. auto.
    + destruct HT as (_ & _ & cs & Hcalls & _ & Hch & _). exists cs. auto.
Qed.

Lemma fit_call_sequence_witness :
  ends_in (fit demo.stray demo.data 1 10 None "leastsq" demo.world)
          (fun w' => exists cs : list FitCall,
                       calls w' = calls demo.world ++ cs /\
                       chained demo.stray demo.data "leastsq"
                               (self demo.world) demo_run.params0 cs).
Proof.
  apply (fit_call_sequence demo.stray demo.data 1 10%nat None "leastsq"
                           demo.world demo_run.params0).
  vm_compute. reflexivity.
Defined.

(** When [fit] returns, row [k] of the table it leaves in [df_full] comes
    from the result of the [k]-th minimizer call: it carries the fitted
    values and the label of the run, counts [k + 1] iterations, lies
    strictly inside the bounds the run began with, and its [dLp] is the
    distance to the [Lp] of the row before, infinite in the first row. *)
Theorem fit_rows
        (minimize : Minimizer) (data : list Q * list Q) (min_delta : Q)
        (max_iters : nat) (filename : option string) (method : string)
        (w w' : World) (ps0 : Parameters) (s : Summary) :
  fparams (self w) = Some ps0 ->
  fit minimize data min_delta max_iters filename method w = Done s w' ->
  exists (cs : list FitCall) (rows : DataFrame),
    calls w' = calls w ++ cs /\ df_full (self w') = Some rows /\
    forall (k : nat) (r : Row),
      rows !! k = Some r ->
      row_from minimize filename (self w) ps0 cs rows k r.
Proof.
  intros Hps Hfit.
  pose proof (fit_course minimize data min_delta max_iters filename method
                         w ps0 Hps) as H.
  rewrite Hfit in H. destruct H as (l & w1 & r & HT & _ & _ & _ & ->).
  destruct HT as (_ & _ & cs & Hcalls & _ & _ & _ & _ & Hrows).
  exists cs, (df l). auto.
Qed.

Lemma fit_rows_witness :
  exists (cs : list FitCall) (rows : DataFrame),
    calls (demo.world_of (demo.run demo.steady 1 10))
    = calls demo.world ++ cs /\
    df_full (self (demo.world_of (demo.run demo.steady 1 10))) = Some rows /\
    forall (k : nat) (r : Row),
      rows !! k = Some r ->
      row_from demo.steady None (self demo.world) demo_run.params0
               cs rows k r.
Proof.
  apply (fit_rows demo.steady demo.data 1 10%nat None "leastsq" demo.world
                  (demo.world_of (demo.run demo.steady 1 10))
                  demo_run.params0
                  (demo_run.summary (demo.run demo.steady 1 10)));
    vm_compute; reflexivity.
Defined.

(** When [fit] returns, [nFittings] is the number of rows of the table,
    at least one; the run has made as many minimizer calls as there are
    rows, or one more, whose result was rejected; and never more than
    [max_iters]. *)
Theorem fit_accounting
        (minimize : Minimizer) (data : list Q * list Q) (min_delta : Q)
        (max_iters : nat) (filename : option string) (method : string)
        (w w' : World) (ps0 : Parameters) (s : Summary) :
  fparams (self w) = Some ps0 ->
  fit minimize data min_delta max_iters filename method w = Done s w' ->
  exists (cs : list FitCall) (rows : DataFrame),
    calls w' = calls w ++ cs /\ df_full (self w') = Some rows /\
    nFittings s = length rows /\ (1 <= length rows)%nat /\
    (length cs <= max_iters)%nat /\
    (length cs = length rows \/
     (length cs = S (length rows) /\
      exists c : FitCall, last cs = Some c /\ rejected minimize ps0 c)).
Proof.
  intros Hps Hfit.
  pose proof (fit_course minimize data min_delta max_iters filename method
                         w ps0 Hps) as H.
  rewrite Hfit in H. destruct H as (l & w1 & r & HT & _ & Hlast & -> & ->).
  destruct HT as (_ & Hi & cs & Hcalls & Hlen & _ & _ & Hdf & Hrows).
  exists cs, (df l). split; [exact Hcalls|]. split; [reflexivity|].
  pose proof Hlast as Hk. rewrite last_lookup in Hk.
  assert (Hpos : (1 <= length (df l))%nat).
  { apply lookup_lt_Some in Hk. lia. }
  apply Hrows in Hk.
  destruct Hk as (c & pc & pp & bc & bp & _ & _ & _ & _ & _ & _ & _ & Hr & _).
  split_and!.
  - cbn [nFittings summary_of]. rewrite Hr. cbn [row_iter row_of]. lia.
  - exact Hpos.
  - lia.
  - destruct Hdf as [H | [H Hrej]]; [left; lia | right].
    split; [lia | exact Hrej].
Qed.

Lemma fit_accounting_witness :
  exists (cs : list FitCall) (rows : DataFrame),
    calls (demo.world_of (demo.run demo.steady 1 10))
    = calls demo.world ++ cs /\
    df_full (self (demo.world_of (demo.run demo.steady 1 10))) = Some rows /\
    nFittings (demo_run.summary (demo.run demo.steady 1 10)) = length rows /\
    (1 <= length rows)%nat /\ (length cs <= 10)%nat /\
    (length cs = length rows \/
     (length cs = S (length rows) /\
      exists c : FitCall,
        last cs = Some c /\ rejected demo.steady demo_run.params0 c)).
Proof.
  apply (fit_accounting demo.steady demo.data 1 10%nat None "leastsq"
                        demo.world
                        (demo.world_of (demo.run demo.steady 1 10))
                        demo_run.params0
                        (demo_run.summary (demo.run demo.steady 1 10)));
    vm_compute; reflexivity.
Defined.

(** When [fit] returns before [max_iters] minimizer calls, it has made
    at least two, and the [Lp] fitted by the last one is within
    [min_delta] of the [Lp] in the row of the call before it.  So with a
    negative [min_delta] a run that returns has used all of
    [max_iters]. *)
Theorem fit_stops
        (minimize : Minimizer) (data : list Q * list Q) (min_delta : Q)
        (max_iters : nat) (filename : option string) (method : string)
        (w w' : World) (ps0 : Parameters) (s : Summary) :
  fparams (self w) = Some ps0 ->
  fit minimize data min_delta max_iters filename method w = Done s w' ->
  exists (cs : list FitCall) (rows : DataFrame),
    calls w' = calls w ++ cs /\ df_full (self w') = Some rows /\
    (length cs = max_iters \/
     exists (j : nat) (c : FitCall) (pp : Param.t) (prev : Row),
       length cs = S (S j) /\ last cs = Some c /\
       params (minimize c) !! "Lp" = Some pp /\
       rows !! j = Some prev /\
       Qabs (Param.value pp - row_Lp prev) <= min_delta) /\
    (min_delta < 0 -> length cs = max_iters).
Proof.
  intros Hps Hfit.
  pose proof (fit_course minimize data min_delta max_iters filename method
                         w ps0 Hps) as H.
  rewrite Hfit in H. destruct H as (l & w1 & r & HT & Hc & _ & _ & ->).
  destruct (trace_stopped minimize data min_delta max_iters filename method
                          w ps0 l w1 HT Hc)
    as (cs & Hcalls & Hlen & Hstop).
  exists cs, (df l). split; [exact Hcalls|]. split; [reflexivity|].
  rewrite Hlen. split; [exact Hstop|].
  intros Hneg. destruct Hstop as [H | (j & c & pp & prev & _ & _ & _ & _ & H)];
    [exact H|].
  pose proof (Qabs_nonneg (Param.value pp - row_Lp prev)) as Habs.
  exfalso. apply (Qlt_irrefl 0).
  apply Qle_lt_trans with min_delta; [|exact Hneg].
  apply Qle_trans with (Qabs (Param.value pp - row_Lp prev)); assumption.
Qed.

Lemma fit_stops_witness :
  exists (cs : list FitCall) (rows : DataFrame),
    calls (demo.world_of (demo.run demo.steady 1 10))
    = calls demo.world ++ cs /\
    df_full (self (demo.world_of (demo.run demo.steady 1 10))) = Some rows /\
    (length cs = 10%nat \/
     exists (j : nat) (c : FitCall) (pp : Param.t) (prev : Row),
       length cs = S (S j) /\ last cs = Some c /\
       params (demo.steady c) !! "Lp" = Some pp /\
       rows !! j = Some prev /\
       Qabs (Param.value pp - row_Lp prev) <= 1) /\
    (1 < 0 -> length cs = 10%nat).
Proof.
  apply (fit_stops demo.steady demo.data 1 10%nat None "leastsq"
                   demo.world
                   (demo.world_of (demo.run demo.steady 1 10))
                   demo_run.params0
                   (demo_run.summary (demo.run demo.steady 1 10)));
    vm_compute; reflexivity.
Defined.

(** The exceptions that the statements of [fit] raise on a compiled
    instance, every minimizer call having returned.  It is
    [IndexError] only with [max_iters] at most
    one, used up, and the single result rejected; the [KeyError] of a
    parameter name missing from the last result or from the parameters;
    or the [KeyError] of the row label [n], raised by call [n + 2] after
    the result of call [n + 1] was rejected. *)
Theorem fit_raises
        (minimize : Minimizer) (data : list Q * list Q) (min_delta : Q)
        (max_iters : nat) (filename : option string) (method : string)
        (w w' : World) (ps0 : Parameters) (e : Exception) :
  fparams (self w) = Some ps0 ->
  fit minimize data min_delta max_iters filename method w = Fail e w' ->
  exists cs : list FitCall,
    calls w' = calls w ++ cs /\ (length cs <= max_iters)%nat /\
    ((e = IndexError /\ length cs = max_iters /\ (max_iters <= 1)%nat /\
      forall c : FitCall, last cs = Some c -> rejected minimize ps0 c) \/
     (exists c : FitCall,
         last cs = Some c /\ missing_name minimize (self w) ps0 c e) \/
     missing_row minimize ps0 cs e).
Proof.
  intros Hps Hfit.
  pose proof (fit_course minimize data min_delta max_iters filename method
                         w ps0 Hps) as H.
  rewrite Hfit in H. destruct H as [H | (-> & l & HT & Hc & Hnil)].
  - destruct H as (_ & cs & c & Hcalls & Hlen & _ & Hlast & _ & Hwhy).
    exists cs. split; [exact Hcalls|]. split; [exact Hlen|]. right.
    destruct Hwhy as [Hn | Hr]; [left; exists c; auto | right; exact Hr].
  - destruct (trace_stopped minimize data min_delta max_iters filename method
                            w ps0 l w' HT Hc)
      as (cs' & Hcalls' & Hlen' & Hstop).
    destruct HT as (_ & Hi & cs & Hcalls & Hlen & _ & _ & Hdf & _).
    rewrite Hcalls in Hcalls'. apply app_inv_head in Hcalls'. subst cs'.
    rewrite Hnil in Hdf. cbn [length] in Hdf.
    exists cs. split; [exact Hcalls|]. split; [lia|]. left.
    split; [reflexivity|].
    destruct Hstop as [Hstop | (j & _ & _ & prev & Hj & _ & _ & Hprev & _)].
    + split; [lia|]. destruct Hdf as [H0 | [H1 (c & Hlast & Hrej)]].
      * split; [lia|]. intros c Hlast. rewrite <- H0 in Hlen.
        apply nil_length_inv in Hlen. subst cs. discriminate Hlast.
      * split; [lia|]. intros c' Hlast'. rewrite Hlast in Hlast'.
        injection Hlast' as <-. exact Hrej.
    + rewrite Hnil in Hprev. discriminate Hprev.
Qed.

Lemma fit_raises_witness :
  exists cs : list FitCall,
    calls (demo.world_of (demo.run demo.stray 1 10))
    = calls demo.world ++ cs /\ (length cs <= 10)%nat /\
    ((KeyError (KInt 1) = IndexError /\ length cs = 10%nat /\
      (10 <= 1)%nat /\
      forall c : FitCall,
        last cs = Some c -> rejected demo.stray demo_run.params0 c) \/
     (exists c : FitCall,
         last cs = Some c /\
         missing_name demo.stray (self demo.world) demo_run.params0 c
                      (KeyError (KInt 1))) \/
     missing_row demo.stray demo_run.params0 cs (KeyError (KInt 1))).
Proof.
  apply (fit_raises demo.stray demo.data 1 10%nat None "leastsq"
                    demo.world
                    (demo.world_of (demo.run demo.stray 1 10))
                    demo_run.params0 (KeyError (KInt 1)));
    vm_compute; reflexivity.
Defined.

(** With a minimizer whose results stay strictly inside the bounds, and
    carry [S] where the model reads it, [fit] on a compiled instance that
    starts inside its bounds returns, for every [min_delta] and every
    [max_iters] of at least one: no row is rejected, and [nFittings] is
    the number of minimizer calls made. *)
Theorem fit_returns_when_accepted
        (minimize : Minimizer) (data : list Q * list Q) (min_delta : Q)
        (max_iters : nat) (filename : option string) (method : string)
        (w : World) (ps : Parameters) (bc bp : Param.t) :
  fparams (self w) = Some ps ->
  ps !! "Lc" = Some bc -> ps !! "Lp" = Some bp ->
  inside (Param.value bp) bp ->
  well_fitted minimize (model (self w)) bc (Param.min bp) (Param.max bp) ->
  (1 <= max_iters)%nat ->
  exists (s : Summary) (w' : World) (cs : list FitCall) (rows : DataFrame),
    fit minimize data min_delta max_iters filename method w = Done s w' /\
    calls w' = calls w ++ cs /\ df_full (self w') = Some rows /\
    length rows = length cs /\ nFittings s = length cs /\
    (1 <= length cs <= max_iters)%nat.
Proof.
  intros Hps HLc HLp Hin Hwell Hmax.
  set (Inv := fun (l : Locals) (w1 : World) =>
                on_track (model (self w)) bc (Param.min bp) (Param.max bp)
                         l w1 /\
                (i l <= max_iters)%nat /\
                (i l = 0%nat -> dLp l = PInf) /\
                exists cs : list FitCall,
                  calls w1 = calls w ++ cs /\ length cs = i l).
  assert (Hstep : forall (l : Locals) (w1 : World),
             Inv l w1 -> continues min_delta max_iters l = true ->
             match fit_body minimize data filename method l w1 with
             | Done l' w' => Inv l' w' /\ i l' = S (i l)
             | Fail e w' => False
             | OutOfFuel => False
             end).
  { intros l w1 (Htrack & Hi & _ & cs & Hcalls & Hlen) Hc.
    apply continues_lt in Hc.
    destruct (fit_body_on_track minimize data filename method
                (model (self w)) bc (Param.min bp) (Param.max bp)
                Hwell l w1 Htrack)
      as (l' & w' & c & -> & Htrack' & Hi' & Hcalls').
    split; [|exact Hi']. split; [exact Htrack'|]. split; [lia|].
    split; [lia|]. exists (cs ++ [c]).
    rewrite Hcalls', Hcalls, <- app_assoc, length_app. cbn.
    split; [reflexivity | lia]. }
  assert (Hstart : Inv {| df := []; dLp := PInf; i := 0 |} w).
  { split; [|split; [cbn; lia|split; [reflexivity|]]].
    - split; [reflexivity|]. split; [exists ps, bp; auto 10|].
      split; [reflexivity|]. split; [left; reflexivity|].
      intros r H. discriminate H.
    - exists []. rewrite app_nil_r. auto. }
  pose proof (fit_loop_rule minimize data min_delta max_iters filename method
                Inv (fun _ _ => False) Hstep max_iters
                {| df := []; dLp := PInf; i := 0 |} w Hstart) as H.
  cbn [i] in H. specialize (H ltac:(lia)).
  unfold fit. unfold mbind' at 1.
  destruct (fit_loop minimize data min_delta max_iters filename method
                     max_iters {| df := []; dLp := PInf; i := 0 |} w)
    as [l w1 | e w1 |]; [| contradiction | contradiction].
  destruct H as [(Htrack & Hi & Hzero & cs & Hcalls & Hlen) Hc].
  destruct Htrack as (_ & _ & Hrows & _ & Hiter).
  assert (Hpos : (1 <= i l)%nat).
  { destruct (i l) as [|n] eqn:Ei; [|lia].
    unfold continues in Hc. rewrite Ei, Hzero in Hc by reflexivity.
    cbn in Hc. destruct max_iters; [lia | discriminate Hc]. }
  unfold mbind', last_row.
  destruct (last (df l)) as [r|] eqn:Hlast.
  - cbn. exists (summary_of r), {| self := with_df_full (self w1) (df l);
                                 calls := calls w1 |}, cs, (df l).
    split_and!; try reflexivity; try lia; try assumption.
    cbn [nFittings summary_of]. rewrite (Hiter r eq_refl). lia.
  - apply last_None in Hlast. rewrite Hlast in Hrows. cbn in Hrows. lia.
Qed.

Lemma fit_returns_when_accepted_witness :
  exists (s : Summary) (w' : World) (cs : list FitCall) (rows : DataFrame),
    fit demo.steady demo.data 1 10 None "leastsq" demo.world = Done s w' /\
    calls w' = calls demo.world ++ cs /\ df_full (self w') = Some rows /\
    length rows = length cs /\ nFittings s = length cs /\
    (1 <= length cs <= 10)%nat.
Proof.
  apply (fit_returns_when_accepted
           demo.steady demo.data 1 10%nat None "leastsq" demo.world
           demo_run.params0 (hint_bounded 1000 500 2000)
           (hint_bounded 50 10 100)).
  - vm_compute. reflexivity.
  - vm_compute. reflexivity.
  - vm_compute. reflexivity.
  - split; reflexivity.
  - exact steady_well_fitted.
  - lia.
Defined.

(** From the constructor to the first minimizer call.  On an instance
    built for a model name and compiled, a run with [max_iters] of at
    least one calls the minimizer, first with the compiled parameters, the
    method of the run and the function of that name: "odijk" fits the
    distances with the forces as independent variable [F], "eWLC" fits
    the forces with both arrays as [fdata], "WLC" and "bouchiat" fit the
    forces with the distances as [d]. *)
Theorem first_call_after_compile
        (minimize : Minimizer) (data : list Q * list Q) (min_delta : Q)
        (max_iters : nat) (filename : option string) (method : string)
        (name : string) (spec : gmap string Q) (s s' : WormLikeChain) :
  init name = Ok s -> compile s spec = Ok s' -> (1 <= max_iters)%nat ->
  ends_in
    (fit minimize data min_delta max_iters filename method
         {| self := s'; calls := [] |})
    (fun w' =>
       exists (c : FitCall) (rest : list FitCall),
         calls w' = c :: rest /\
         fparams s' = Some (call_params c) /\ call_method c = method /\
         ((name = "odijk" /\ call_func c = f_odijk /\
           call_data c = fst data /\ call_indep c = bind_F (snd data)) \/
          (name = "eWLC" /\ call_func c = f_eWLC /\
           call_data c = snd data /\ call_indep c = bind_fdata data) \/
          (name = "WLC" /\ call_func c = f_WLC /\
           call_data c = snd data /\ call_indep c = bind_d (fst data)) \/
          (name = "bouchiat" /\ call_func c = f_bouchiat /\
           call_data c = snd data /\ call_indep c = bind_d (fst data)))).
Proof.
  intros Hinit Hcompile Hmax.
  apply compile_Ok in Hcompile.
  destruct Hcompile as (pk & pLc & pLp & hints & _ & _ & _ & _ & Hs').
  set (fp := alter (fun p => Param.mk (Param.value p) (Param.min p)
                                      (Param.max p) false) "kBT" hints) in *.
  assert (Hfp : fparams s' = Some fp) by (subst s'; reflexivity).
  assert (Hshape :
            (name = "odijk" /\ model s' = "odijk" /\ func s' = f_odijk) \/
            (name = "eWLC" /\ model s' = "eWLC" /\ func s' = f_eWLC) \/
            (name = "WLC" /\ model s' = "WLC" /\ func s' = f_WLC) \/
            (name = "bouchiat" /\ model s' = "bouchiat" /\
             func s' = f_bouchiat)).
  { subst s'. cbn [model func with_fparams]. unfold init in Hinit.
    destruct (String.eqb_spec name "WLC") as [-> | _];
      [injection Hinit as <-; cbn; auto 10|].
    destruct (String.eqb_spec name "bouchiat") as [-> | _];
      [injection Hinit as <-; cbn; auto 10|].
    destruct (String.eqb_spec name "odijk") as [-> | _];
      [injection Hinit as <-; cbn; auto 10|].
    destruct (String.eqb_spec name "eWLC") as [-> | _];
      [injection Hinit as <-; cbn; auto 10|].
    discriminate Hinit. }
  clearbody fp. clear Hs'.
  pose proof (fit_calls minimize data min_delta max_iters filename method
                        {| self := s'; calls := [] |}) as H.
  eapply warm_props.ends_in_mono; [|exact H].
  intros w' (rest & Hcalls & _ & Hfirst).
  destruct (Hfirst Hmax fp Hfp) as (rest' & ->).
  cbn [calls self app] in Hcalls.
  eexists. exists rest'. split; [exact Hcalls|].
  rewrite the_call_params. split; [exact Hfp|].
  unfold the_call.
  destruct Hshape as [(-> & -> & ->) | [(-> & -> & ->) | [(-> & -> & ->)
                                                         | (-> & -> & ->)]]];
    cbn; auto 10.
Qed.

Lemma first_call_after_compile_witness :
  ends_in
    (fit demo.steady demo.data 1 10 None "leastsq"
         {| self := demo.instance; calls := [] |})
    (fun w' =>
       exists (c : FitCall) (rest : list FitCall),
         calls w' = c :: rest /\
         fparams demo.instance = Some (call_params c) /\
         call_method c = "leastsq" /\
         (("WLC" = "odijk" /\ call_func c = f_odijk /\
           call_data c = fst demo.data /\
           call_indep c = bind_F (snd demo.data)) \/
          ("WLC" = "eWLC" /\ call_func c = f_eWLC /\
           call_data c = snd demo.data /\
           call_indep c = bind_fdata demo.data) \/
          ("WLC" = "WLC" /\ call_func c = f_WLC /\
           call_data c = snd demo.data /\
           call_indep c = bind_d (fst demo.data)) \/
          ("WLC" = "bouchiat" /\ call_func c = f_bouchiat /\
           call_data c = snd demo.data /\
           call_indep c = bind_d (fst demo.data)))).
Proof.
  apply (first_call_after_compile
           demo.steady demo.data 1 10%nat None "leastsq" "WLC" demo.spec
           (new f_WLC "WLC") demo.instance).
  - reflexivity.
  - vm_compute. reflexivity.
  - lia.
Defined.

End run_more.

(* ===================================================================== *)
(** * The bin edges of [plot_residuals] *)
(* ===================================================================== *)

Module plotting_props.
Import fitting plotting.

Lemma maximum_ge (a b : Q) : a <= maximum a b /\ b <= maximum a b.
Proof.
  unfold maximum. destruct (Qle_bool b a) eqn:E.
  - apply Qle_bool_iff in E. split; [apply Qle_refl | exact E].
  - split; [|apply Qle_refl].
    destruct (Qlt_le_dec a b) as [H | H]; [apply Qlt_le_weak; exact H|].
    apply Qle_bool_iff in H. rewrite H in E. discriminate E.
Qed.

Lemma maximum_is (a b : Q) : maximum a b = a \/ maximum a b = b.
Proof. unfold maximum. destruct (Qle_bool b a); auto. Qed.

Lemma fold_maximum (t : list Q) :
  forall a : Q,
    In (fold_left maximum t a) (a :: t) /\
    forall v : Q, In v (a :: t) -> v <= fold_left maximum t a.
Proof.
  induction t as [|b t IH]; intros a; cbn [fold_left].
  - split; [left; reflexivity|].
    intros v [<- | []]. apply Qle_refl.
  - destruct (IH (maximum a b)) as [Hin Hle]. split.
    + destruct Hin as [H | H]; [|right; right; exact H].
      rewrite <- H. destruct (maximum_is a b) as [-> | ->];
        [left | right; left]; reflexivity.
    + intros v Hv.
      destruct (maximum_ge a b) as [Ha Hb].
      pose proof (Hle (maximum a b) (or_introl eq_refl)) as Hm.
      destruct Hv as [<- | [<- | Hv]].
      * apply Qle_trans with (maximum a b); assumption.
      * apply Qle_trans with (maximum a b); assumption.
      * apply Hle. right. exact Hv.
Qed.

Lemma np_max_Ok (l : list Q) (m : Q) :
  np_max l = Ok m -> In m l /\ forall v : Q, In v l -> v <= m.
Proof.
  destruct l as [|a t]; cbn; intros H; [discriminate H|].
  injection H as <-. apply fold_maximum.
Qed.

Lemma np_max_Raise (l : list Q) (e : Exception) :
  np_max l = Raise e <-> l = [] /\ e = ValueError zero_size.
Proof.
  destruct l as [|a t]; cbn; split.
  - intros H. injection H as <-. auto.
  - intros [_ ->]. reflexivity.
  - discriminate.
  - intros [H _]. discriminate H.
Qed.

(** Truncation of a number that is not negative. *)
Lemma int_bounds (q : Q) :
  0 <= q ->
  (0 <= int q)%Z /\ inject_Z (int q) <= q /\ q < inject_Z (int q) + 1.
Proof.
  destruct q as [a d]. unfold Qle, Qlt, int, inject_Z, Qplus.
  cbn [Qnum Qden]. intros H.
  assert (Ha : (0 <= a)%Z) by lia.
  rewrite Z.quot_div_nonneg by lia.
  pose proof (Z.div_mod a (Z.pos d) ltac:(lia)) as Hdm.
  pose proof (Z.mod_pos_bound a (Z.pos d) ltac:(lia)) as Hmod.
  pose proof (Z.div_pos a (Z.pos d) Ha ltac:(lia)) as Hdiv.
  split; [exact Hdiv|]. split; nia.
Qed.

Lemma ceil_inject (q : Q) (z : Z) : q == inject_Z z -> ceil q = z.
Proof.
  destruct q as [a d]. unfold Qeq, ceil, inject_Z. cbn [Qnum Qden].
  intros H. assert (Ha : a = (z * Z.pos d)%Z) by lia. subst a.
  rewrite <- Z.mul_opp_l, Z.div_mul by lia. lia.
Qed.

Lemma np_arange_lookup (start stop step : Q) (k : nat) :
  (k < Z.to_nat (ceil ((stop - start) / step)))%nat ->
  np_arange start stop step !! k
  = Some (start + inject_Z (Z.of_nat k) * step).
Proof.
  intros H. unfold np_arange. rewrite list_lookup_fmap.
  rewrite lookup_seq_lt by exact H. reflexivity.
Qed.

Lemma np_arange_length (start stop step : Q) :
  length (np_arange start stop step)
  = Z.to_nat (ceil ((stop - start) / step)).
Proof. unfold np_arange. rewrite length_map, length_seq. reflexivity. Qed.


(** On two arrays that are not empty [bins] returns [2 n + 3] edges a
    quarter apart, from [-lim] to [lim] with [lim = (n + 1) / 4]; every
    value of both arrays lies strictly between the first and the last
    edge, and some value reaches the last edge but one in absolute
    value. *)
Theorem bins_edges (x y : list Q) :
  x <> [] -> y <> [] ->
  exists (n : nat) (lim : Q) (edges : list Q),
    bins x y = Ok edges /\
    lim == inject_Z (Z.of_nat n + 1) * 0.25 /\
    length edges = (2 * n + 3)%nat /\
    (forall k : nat,
        (k < 2 * n + 3)%nat ->
        exists v : Q,
          edges !! k = Some v /\ v == - lim + inject_Z (Z.of_nat k) * 0.25) /\
    (forall v : Q, In v x \/ In v y -> - lim < v /\ v < lim) /\
    (exists v : Q, (In v x \/ In v y) /\ lim - 0.25 <= Qabs v).
Proof.
  intros Hx Hy. unfold bins.
  destruct (np_max (np_abs x)) as [mx|e] eqn:Ex.
  2:{ apply np_max_Raise in Ex. destruct Ex as [Ex _].
      unfold np_abs in Ex. apply map_eq_nil in Ex. contradiction. }
  destruct (np_max (np_abs y)) as [my|e] eqn:Ey.
  2:{ apply np_max_Raise in Ey. destruct Ey as [Ey _].
      unfold np_abs in Ey. apply map_eq_nil in Ey. contradiction. }
  cbn [bind].
  apply np_max_Ok in Ex, Ey.
  destruct Ex as [Hinx Hlex], Ey as [Hiny Hley].
  set (m := maximum mx my).
  destruct (maximum_ge mx my) as [Hmx Hmy]. fold m in Hmx, Hmy.
  assert (Hm0 : 0 <= m).
  { unfold np_abs in Hinx. apply in_map_iff in Hinx.
    destruct Hinx as (v & <- & _).
    apply Qle_trans with (Qabs v); [apply Qabs_nonneg | exact Hmx]. }
  assert (Hfour : m / binwidth == 4 * m) by (unfold binwidth; field).
  assert (Hq0 : 0 <= m / binwidth) by (rewrite Hfour; lra).
  destruct (int_bounds (m / binwidth) Hq0) as (Hn0 & Hlo & Hhi).
  set (z := int (m / binwidth)) in *.
  set (lim := inject_Z (z + 1) * binwidth).
  assert (Hz : Z.of_nat (Z.to_nat z) = z) by lia.
  assert (Hlim : lim == inject_Z z * 0.25 + 0.25).
  { unfold lim, binwidth. rewrite inject_Z_plus. ring. }
  rewrite Hfour in Hlo, Hhi.
  assert (Hcount : ceil ((lim + binwidth - - lim) / binwidth)
                   = (2 * z + 3)%Z).
  { apply ceil_inject. unfold lim, binwidth.
    rewrite !inject_Z_plus, !inject_Z_mult. field. }
  exists (Z.to_nat z), lim. eexists. split; [reflexivity|].
  split_and!.
  - rewrite Hz. reflexivity.
  - rewrite np_arange_length, Hcount. lia.
  - intros k Hk. eexists. split.
    + apply np_arange_lookup. rewrite Hcount. lia.
    + reflexivity.
  - assert (Hall : forall v : Q, In v x \/ In v y -> Qabs v <= m).
    { intros v [Hv | Hv].
      - apply Qle_trans with mx; [|exact Hmx]. apply Hlex.
        unfold np_abs. apply in_map. exact Hv.
      - apply Qle_trans with my; [|exact Hmy]. apply Hley.
        unfold np_abs. apply in_map. exact Hv. }
    intros v Hv. apply Qabs_Qlt_condition.
    apply Qle_lt_trans with m; [apply Hall; exact Hv|].
    rewrite Hlim. lra.
  - assert (Hone : exists v : Q, (In v x \/ In v y) /\ Qabs v = m).
    { unfold m. destruct (maximum_is mx my) as [-> | ->].
      - unfold np_abs in Hinx. apply in_map_iff in Hinx.
        destruct Hinx as (v & Hv & Hin). exists v. auto.
      - unfold np_abs in Hiny. apply in_map_iff in Hiny.
        destruct Hiny as (v & Hv & Hin). exists v. auto. }
    destruct Hone as (v & Hv & Habs). exists v. split; [exact Hv|].
    rewrite Habs, Hlim. lra.
Qed.

Lemma bins_edges_witness :
  exists (n : nat) (lim : Q) (edges : list Q),
    bins [0.3; -1.1] [0.7] = Ok edges /\
    lim == inject_Z (Z.of_nat n + 1) * 0.25 /\
    length edges = (2 * n + 3)%nat /\
    (forall k : nat,
        (k < 2 * n + 3)%nat ->
        exists v : Q,
          edges !! k = Some v /\ v == - lim + inject_Z (Z.of_nat k) * 0.25) /\
    (forall v : Q,
        In v [0.3; -1.1] \/ In v [0.7] -> - lim < v /\ v < lim) /\
    (exists v : Q, (In v [0.3; -1.1] \/ In v [0.7]) /\ lim - 0.25 <= Qabs v).
Proof.
  apply (bins_edges [0.3; -1.1] [0.7]); discriminate.
Defined.

End plotting_props.
